(** * cortex-loop: repo-map engine and failure-retrieval engine ("graveyard")

    A shallow embedding of [src/cortex/repomap.py], [src/cortex/graveyard.py]
    and the graveyard part of [src/cortex/store.py].

    Modelling conventions.
    - A Python [str] is a [string] holding the bytes of its UTF-8 encoding,
      so [text.encode("utf-8")] is the identity and the encoded size is
      [String.length].  Case folding is modelled on ASCII letters.
    - A Python [int] is a [Z]; lengths are [nat] and are injected with
      [Z.of_nat] where the source mixes them with ints.
    - The floats of the repo-map engine only ever go through [+ - * /],
      [min], [max] and comparisons of decimal constants: they are modelled
      as exact rationals [Q].  The floats of the graveyard go through
      [math.log] and are modelled as real numbers [R].  Rounding is not
      modelled.
    - A Python [set] of strings is a duplicate-free [list string]; a [dict]
      is an association list in insertion order. *)

From Stdlib Require Import String Ascii List Bool Arith ZArith QArith Qminmax.
From Stdlib Require Import Reals Lia Lra Permutation Sorted DecimalString.
From Stdlib Require Import Qround Qabs Morphisms Setoid.
From Equations.Prop Require Import Equations.
Import ListNotations.

Set Warnings "-register-all".

Open Scope string_scope.

(* ================================================================== *)
(** * Python string primitives *)
(* ================================================================== *)

Module PyStr.

Definition chars (s : string) : list ascii := list_ascii_of_string s.
Definition of_chars (l : list ascii) : string := string_of_list_ascii l.

Definition in_range (lo hi : nat) (c : ascii) : bool :=
  let n := nat_of_ascii c in (lo <=? n)%nat && (n <=? hi)%nat.

Definition is_upper (c : ascii) : bool := in_range 65 90 c.
Definition is_lower (c : ascii) : bool := in_range 97 122 c.
Definition is_digit (c : ascii) : bool := in_range 48 57 c.

(** [str.lower()] on the ASCII letters. *)
Definition lower_char (c : ascii) : ascii :=
  if is_upper c then ascii_of_nat (nat_of_ascii c + 32) else c.

Definition lower (s : string) : string := of_chars (map lower_char (chars s)).

Definition mem_char (c : ascii) (set : string) : bool :=
  existsb (Ascii.eqb c) (chars set).

Fixpoint lstrip_chars (set : string) (l : list ascii) : list ascii :=
  match l with
  | [] => []
  | c :: l' => if mem_char c set then lstrip_chars set l' else l
  end.

(** [s.strip(set)] *)
Definition strip (set : string) (s : string) : string :=
  of_chars (rev (lstrip_chars set (rev (lstrip_chars set (chars s))))).

(** [s.lstrip(set)] *)
Definition lstrip (set : string) (s : string) : string :=
  of_chars (lstrip_chars set (chars s)).

Definition startswith (s pre : string) : bool := String.prefix pre s.

Definition endswith (s suf : string) : bool :=
  String.prefix (of_chars (rev (chars suf))) (of_chars (rev (chars s))).

(** [s[:-k]] for [k > 0] *)
Definition drop_last (k : nat) (s : string) : string :=
  String.substring 0 (String.length s - k) s.

(** [s[:k]] for [k >= 0] *)
Definition take (k : nat) (s : string) : string := String.substring 0 k s.

(** [sub in s] *)
Fixpoint contains (s sub : string) : bool :=
  String.prefix sub s ||
  match s with
  | EmptyString => false
  | String _ s' => contains s' sub
  end.

(** [s.split(sep)] for a one-character separator; the accumulator holds
    the current piece. *)
Fixpoint split_acc (sep : ascii) (s : string) (cur : string) : list string :=
  match s with
  | EmptyString => [cur]
  | String c s' =>
      if Ascii.eqb c sep then cur :: split_acc sep s' ""
      else split_acc sep s' (cur ++ String c "")
  end.

Definition split (sep : ascii) (s : string) : list string := split_acc sep s "".

(** [sep.join(parts)] *)
Fixpoint join (sep : string) (parts : list string) : string :=
  match parts with
  | [] => ""
  | [p] => p
  | p :: rest => p ++ sep ++ join sep rest
  end.

(** [s.replace(a, b)] for single characters *)
Definition replace_char (a b : ascii) (s : string) : string :=
  of_chars (map (fun c => if Ascii.eqb c a then b else c) (chars s)).

(** [s.count(c)] for a single character *)
Definition count_char (c : ascii) (s : string) : nat :=
  List.length (filter (Ascii.eqb c) (chars s)).

(** [s.rfind(c)]: the index of the last occurrence, if any *)
Fixpoint rfind_from (c : ascii) (l : list ascii) (i : nat) (found : option nat)
  : option nat :=
  match l with
  | [] => found
  | x :: l' => rfind_from c l' (S i) (if Ascii.eqb x c then Some i else found)
  end.

Definition rfind (c : ascii) (s : string) : option nat :=
  rfind_from c (chars s) 0 None.

Definition mem (s : string) (l : list string) : bool := existsb (String.eqb s) l.

(** [str(n)] for a non-negative int *)
Definition of_nat (n : nat) : string := NilEmpty.string_of_uint (Nat.to_uint n).

(** [str(z)] for an int *)
Definition of_Z (z : Z) : string :=
  if (z <? 0)%Z then "-" ++ of_nat (Z.to_nat (- z)) else of_nat (Z.to_nat z).

(** A Python [set] of strings: first occurrences, in order. *)
Definition to_set (l : list string) : list string := nodup string_dec l.

Definition inter (a b : list string) : list string :=
  filter (fun x => mem x b) a.

Definition union (a b : list string) : list string := to_set (a ++ b).

(** [sorted(l)] on strings: stable insertion by code-point order. *)
Fixpoint insert_sorted (x : string) (l : list string) : list string :=
  match l with
  | [] => [x]
  | y :: l' => if String.leb x y then x :: l else y :: insert_sorted x l'
  end.

Definition sorted (l : list string) : list string :=
  fold_right insert_sorted [] l.

(** The one-character string holding a double quote. *)
Definition dquote : string := String (ascii_of_nat 34) EmptyString.

(** A string-keyed [dict]: distinct keys in insertion order. *)
Definition dict (V : Type) : Type := list (string * V).

Fixpoint dict_lookup {V : Type} (d : dict V) (key : string) : option V :=
  match d with
  | [] => None
  | (k, v) :: d' => if String.eqb k key then Some v else dict_lookup d' key
  end.

(** [d.get(key, default)] *)
Definition dict_get {V : Type} (d : dict V) (key : string) (default : V) : V :=
  match dict_lookup d key with
  | Some v => v
  | None => default
  end.

(** [d[key] = v]: an existing key keeps its place. *)
Fixpoint dict_set {V : Type} (d : dict V) (key : string) (v : V) : dict V :=
  match d with
  | [] => [(key, v)]
  | (k, w) :: d' => if String.eqb k key then (k, v) :: d' else (k, w) :: dict_set d' key v
  end.

(** [{k: f(k) for k in keys}] *)
Definition dict_comp {V : Type} (f : string -> V) (keys : list string) : dict V :=
  fold_left (fun d k => dict_set d k (f k)) keys [].

(** [d.values()] *)
Definition dict_values {V : Type} (d : dict V) : list V := map snd d.

(** [s.add(x)] on a set of strings *)
Definition set_add (x : string) (s : list string) : list string :=
  if mem x s then s else s ++ [x].

(** [seq[:k]] for an int [k]: a negative end counts from the tail. *)
Definition slice_to {A : Type} (k : Z) (l : list A) : list A :=
  if (0 <=? k)%Z then firstn (Z.to_nat k) l
  else firstn (List.length l - Z.to_nat (- k)) l.

End PyStr.

(* ================================================================== *)
(** * Failure tokenizer and normalizer ([graveyard.py]) *)
(* ================================================================== *)

Module Tokenizer.
Import PyStr.

(** [_WORD_RE = re.compile(r"[A-Za-z0-9_./-]+")] *)
Definition is_word_char (c : ascii) : bool :=
  is_upper c || is_lower c || is_digit c || mem_char c "_./-".

(** [_WORD_RE.findall(text)]: the maximal runs of word characters. *)
Fixpoint findall_acc (s : string) (cur : string) : list string :=
  match s with
  | EmptyString => if String.eqb cur "" then [] else [cur]
  | String c s' =>
      if is_word_char c then findall_acc s' (cur ++ String c "")
      else if String.eqb cur "" then findall_acc s' ""
           else cur :: findall_acc s' ""
  end.

Definition _WORD_RE_findall (text : string) : list string := findall_acc text "".

Definition _SYNONYM_CANONICAL : list (string * string) :=
  [ ("redis", "cache");
    ("caching", "cache");
    ("latency", "timeout");
    ("slow", "timeout");
    ("slowness", "timeout");
    ("crash", "fail");
    ("crashed", "fail");
    ("failure", "fail");
    ("failed", "fail");
    ("error", "fail");
    ("errors", "fail");
    ("exception", "fail");
    ("exceptions", "fail");
    ("connection", "connect");
    ("connections", "connect") ].

Definition _normalize_token (token : string) : string :=
  let value := strip "._/-" (lower token) in
  if (String.length value <=? 2)%nat then ""
  else
    let value :=
      if endswith value "ies" && (4 <? String.length value)%nat
      then drop_last 3 value ++ "y"
      else if endswith value "ing" && (5 <? String.length value)%nat
      then drop_last 3 value
      else if endswith value "ed" && (4 <? String.length value)%nat
      then drop_last 2 value
      else if endswith value "s" && (3 <? String.length value)%nat
      then drop_last 1 value
      else value in
    dict_get _SYNONYM_CANONICAL value value.

Definition _tokenize (text : string) : list string :=
  filter (fun t => negb (String.eqb t ""))
         (map _normalize_token (_WORD_RE_findall text)).

Definition _keywords (text : string) : list string := to_set (_tokenize text).

End Tokenizer.


(* ================================================================== *)
(** * The graveyard table of the store ([store.py]) *)
(* ================================================================== *)

Module Store.
Import PyStr.

(** A row of the [graveyard] table, which is also the item that
    [_graveyard_row_to_item] builds from it: the two JSON columns are
    kept decoded ([json.loads (json.dumps l) = l] on lists of strings). *)
Record Entry := mkEntry {
  id : Z;
  session_id : option string;
  summary : string;
  reason : string;
  files : list string;
  keywords : list string;
  created_at : string
}.

(** The store calls a graveyard operation can make. *)
Inductive StoreCall :=
| CallInsertGraveyard
| CallListGraveyard (limit : nat)
| CallFtsCandidates (tokens : list string).

(** The database: the table (newest row first, as [ORDER BY id DESC]
    reads it), the AUTOINCREMENT counter, and the calls made so far. *)
Record Db := mkDb {
  graveyard : list Entry;
  last_id : Z;
  calls : list StoreCall
}.

(** Store operations thread the database. *)
Definition M (A : Type) : Type := Db -> A * Db.

Definition ret {A : Type} (a : A) : M A := fun db => (a, db).

Definition bind {A B : Type} (m : M A) (k : A -> M B) : M B :=
  fun db => let (a, db') := m db in k a db'.

Definition log_call (c : StoreCall) : M unit :=
  fun db => (tt, mkDb (graveyard db) (last_id db) (calls db ++ [c])).

Definition get_rows : M (list Entry) := fun db => (graveyard db, db).

Declare Scope store_scope.
Delimit Scope store_scope with store.
Notation "x <- m ;; k" := (bind m (fun x => k))
  (at level 61, m at next level, right associativity) : store_scope.
Notation "m ;;; k" := (bind m (fun _ => k))
  (at level 61, right associativity) : store_scope.
Open Scope store_scope.

(** [insert_graveyard]; [now] is what [_utc_now()] returns. *)
Definition insert_graveyard (now : string) (sid : option string)
           (summary reason : string) (files keywords : list string) : M unit :=
  log_call CallInsertGraveyard ;;;
  fun db =>
    let new_id := (last_id db + 1)%Z in
    (tt, mkDb (mkEntry new_id sid summary reason files keywords now :: graveyard db)
              new_id (calls db)).

(** [_list_graveyard_rows(limit)]: [ORDER BY id DESC LIMIT limit] *)
Definition _list_graveyard_rows (limit : nat) : M (list Entry) :=
  rows <- get_rows ;; ret (firstn limit rows).

Definition list_graveyard (limit : nat) : M (list Entry) :=
  log_call (CallListGraveyard limit) ;;; _list_graveyard_rows limit.

(** SQLite's FTS5 module is outside the repository.  [fts_available]
    is whether creating the scratch table succeeds; [fts_match query
    docs limit] is the [entry_id] column of the rows that the
    [MATCH ... ORDER BY bm25, entry_id DESC LIMIT] query returns once
    [docs] have been inserted. *)
Record Fts5 := mkFts5 {
  fts_available : bool;
  fts_match : string -> list (string * string) -> Z -> list string
}.

(** [_FTS_TOKEN_RE = re.compile(r"^[a-z0-9_]+$")]; [$] also matches
    before one final newline, which a token never contains. *)
Definition _FTS_TOKEN_RE_match (t : string) : bool :=
  negb (String.eqb t "") &&
  forallb (fun c => is_lower c || is_digit c || Ascii.eqb c "_") (chars t).

(** [json.dumps(keywords)] for strings that need no escaping. *)
Definition keywords_json (e : Entry) : string :=
  "[" ++ join ", " (map (fun k => dquote ++ k ++ dquote) (keywords e)) ++ "]".

(** [int(s)] on the decimal strings that [str(id)] produces. *)
Definition find_by_id_str (rows : list Entry) (s : string) : option Entry :=
  find (fun e => String.eqb (of_Z (id e)) s) rows.

Definition list_graveyard_fts_candidates (fts : Fts5) (tokens : list string)
           (limit : nat) (candidate_limit : Z) : M (option (list Entry)) :=
  log_call (CallFtsCandidates tokens) ;;;
  let terms := filter _FTS_TOKEN_RE_match tokens in
  rows <- _list_graveyard_rows limit ;;
  match terms, rows with
  | [], _ | _, [] => ret (Some [])
  | _, _ =>
      if negb (fts_available fts) then ret None
      else
        let docs :=
          map (fun row => (of_Z (id row),
                           summary row ++ " " ++ reason row ++ " " ++ keywords_json row))
              rows in
        let match_query := join " OR " (firstn 12 terms) in
        let matched := fts_match fts match_query docs (Z.max 1 candidate_limit) in
        (* [row_map[eid] for eid in ordered_ids if eid in row_map] *)
        ret (Some (flat_map (fun eid => match find_by_id_str rows eid with
                                        | Some row => [row]
                                        | None => []
                                        end) matched))
  end.

End Store.

(* ================================================================== *)
(** * The graveyard orchestrator and similarity scorer ([graveyard.py]) *)
(* ================================================================== *)

Module Graveyard.
Import PyStr Tokenizer Store.
Open Scope R_scope.

(** [GraveyardConfig] of [genome.py] *)
Record GraveyardConfig := mkConfig {
  enabled : bool;
  max_matches : Z;
  similarity_threshold : R;
  min_keyword_overlap : Z
}.

Record GraveyardMatch := mkMatch {
  entry_id : Z;
  score : R;
  m_summary : string;
  m_reason : string;
  m_files : list string;
  keyword_overlap : list string;
  file_overlap : list string;
  semantic_score : R;
  m_created_at : string
}.

Definition Rltb (x y : R) : bool := if Rlt_dec x y then true else false.
Definition Reqb (x y : R) : bool := if Req_dec_T x y then true else false.

Definition is_empty {A : Type} (l : list A) : bool :=
  match l with [] => true | _ => false end.

(** [PurePosixPath] collapses repeated separators and [.] components;
    the comprehension then drops what is left of them. *)
Definition _norm_path (path : string) : string :=
  join "/" (filter (fun p => negb (String.eqb p "" || String.eqb p "."))
                   (split "/" path)).

Definition _token_jaccard (left right : list string) : R :=
  if is_empty left || is_empty right then 0
  else
    let union := PyStr.union left right in
    if is_empty union then 0
    else INR (List.length (inter left right)) / INR (List.length union).

Definition sum_R (l : list R) : R := fold_right Rplus 0 l.

(** [df[token]]: the number of entries whose keyword set holds [token]. *)
Definition doc_freq (idf_source : list Entry) (token : string) : nat :=
  List.length (filter (fun e => mem token (to_set (keywords e))) idf_source).

(** [query_idf]: one weight per query keyword. *)
Definition query_idf (idf_source : list Entry) (query_keywords : list string)
  : list (string * R) :=
  map (fun token =>
         (token,
          ln ((INR (List.length idf_source) + 1) / (INR (doc_freq idf_source token) + 1))
          + 1))
      query_keywords.

(** [sum(query_idf.values()) or 1.0] *)
Definition query_weight (idf : list (string * R)) : R :=
  let s := sum_R (map snd idf) in
  if Reqb s 0 then 1 else s.

(** The key of [scored.sort(key=lambda m: (m.score, m.entry_id), reverse=True)]:
    [key_ge a b] is [key a >= key b] on the tuples. *)
Definition key_ge (a b : GraveyardMatch) : bool :=
  Rltb (score b) (score a)
  || (Reqb (score a) (score b) && (entry_id b <=? entry_id a)%Z).

Fixpoint insert_desc (x : GraveyardMatch) (l : list GraveyardMatch)
  : list GraveyardMatch :=
  match l with
  | [] => [x]
  | y :: l' => if key_ge x y then x :: l else y :: insert_desc x l'
  end.

(** A stable descending sort. *)
Definition sort_desc (l : list GraveyardMatch) : list GraveyardMatch :=
  fold_right insert_desc [] l.

(** The body of the loop over the candidate entries: [None] is
    [continue], [Some m] is [scored.append(m)]. *)
Definition score_entry (config : GraveyardConfig)
           (query_keywords query_token_set query_files : list string)
           (idf : list (string * R)) (entry : Entry) : option GraveyardMatch :=
  let entry_keywords := to_set (keywords entry) in
  let entry_tokens := _tokenize (summary entry ++ " " ++ reason entry) in
  let entry_files := to_set (map _norm_path (files entry)) in
  let keyword_overlap := sorted (inter query_keywords entry_keywords) in
  let file_overlap := sorted (inter query_files entry_files) in
  let keyword_score :=
    sum_R (map (fun token => dict_get idf token 0) keyword_overlap) / query_weight idf in
  let file_score :=
    if is_empty query_files then 0
    else INR (List.length file_overlap) / INR (Nat.max 1 (List.length query_files)) in
  let semantic_score := _token_jaccard query_token_set (to_set entry_tokens) in
  if (Z.of_nat (List.length keyword_overlap) <? min_keyword_overlap config)%Z
     && is_empty file_overlap
     && Rltb semantic_score (similarity_threshold config)
  then None
  else
    let score := keyword_score * 0.45 + file_score * 0.25 + semantic_score * 0.30 in
    if Rltb score (similarity_threshold config) then None
    else Some (mkMatch (id entry) score (summary entry) (reason entry) (files entry)
                       keyword_overlap file_overlap semantic_score (created_at entry)).

Definition filter_map {A B : Type} (f : A -> option B) (l : list A) : list B :=
  flat_map (fun a => match f a with Some b => [b] | None => [] end) l.

Section WithFts.
Variable fts : Fts5.

Definition _load_candidate_entries (query_tokens : list string) : M (list Entry) :=
  if is_empty query_tokens then list_graveyard 200
  else
    candidates <- list_graveyard_fts_candidates fts query_tokens 200 80 ;;
    match candidates with
    | None | Some [] => list_graveyard 200
    | Some cs => ret cs
    end.

Definition record_failure (config : GraveyardConfig) (now : string)
           (sid : option string) (summary reason : string) (files : list string)
  : M unit :=
  if negb (enabled config) then ret tt
  else
    let keywords := sorted (PyStr.union (_keywords summary) (_keywords reason)) in
    insert_graveyard now sid summary reason files keywords.

Definition find_similar (config : GraveyardConfig) (summary : string)
           (files : list string) (max_matches_arg : option Z)
  : M (list GraveyardMatch) :=
  if negb (enabled config) then ret []
  else
    let query_keywords := _keywords summary in
    let query_tokens := _tokenize summary in
    let query_token_set := to_set query_tokens in
    let query_files :=
      to_set (map _norm_path (filter (fun p => negb (String.eqb p "")) files)) in
    if is_empty query_tokens && is_empty query_files then ret []
    else
      corpus_entries <- list_graveyard 200 ;;
      entries <- _load_candidate_entries query_tokens ;;
      let idf_source := if is_empty corpus_entries then entries else corpus_entries in
      let idf := query_idf idf_source query_keywords in
      let scored :=
        filter_map (score_entry config query_keywords query_token_set query_files idf)
                   entries in
      let limit :=
        match max_matches_arg with
        | Some m => if (m =? 0)%Z then max_matches config else m
        | None => max_matches config
        end in
      ret (slice_to limit (sort_desc scored)).

End WithFts.

End Graveyard.

(* ================================================================== *)
(** * The repo-map engine ([repomap.py]): ranking and rendering *)
(* ================================================================== *)

Module Repomap.
Import PyStr.
Open Scope Q_scope.

Definition nl : string := String (ascii_of_nat 10) EmptyString.
Definition backslash : ascii := ascii_of_nat 92.

Record RepoMapRankingEntry := mkRankingEntry {
  path : string;
  score : Q;
  symbols : list string
}.

Record RepoMapFileAnalysis := mkFileAnalysis {
  a_path : string;
  byte_size : Z;
  line_count : Z;
  a_symbols : list string;
  symbol_count : Z;
  imports : list string
}.

(** ** [pathlib] on POSIX paths (Python 3.11 to 3.13) *)

Definition path_components (p : string) : list string :=
  filter (fun s => negb (String.eqb s "" || String.eqb s ".")) (split "/" p).

(** The root of a path: two leading slashes are kept, one or three and
    more are a single slash. *)
Definition path_root (p : string) : list string :=
  if startswith p "//" && negb (startswith p "///") then ["//"]
  else if startswith p "/" then ["/"]
  else [].

(** [Path(p).parts] *)
Definition path_parts (p : string) : list string := path_root p ++ path_components p.

(** [Path(p).name] *)
Definition path_name (p : string) : string := last (path_components p) "".

(** The index [i] of the last dot of the name when [0 < i < len(name) - 1]. *)
Definition suffix_index (name : string) : option nat :=
  match rfind "." name with
  | Some i => if (0 <? i)%nat && (i <? String.length name - 1)%nat then Some i else None
  | None => None
  end.

(** [Path(p).suffix] *)
Definition path_suffix (p : string) : string :=
  let name := path_name p in
  match suffix_index name with
  | Some i => String.substring i (String.length name - i) name
  | None => ""
  end.

(** [Path(p).stem] *)
Definition path_stem (p : string) : string :=
  let name := path_name p in
  match suffix_index name with
  | Some i => String.substring 0 i name
  | None => name
  end.

(** ** Ranking tables *)

Definition _CODE_LIKE_SUFFIXES : list string :=
  [ ".astro"; ".svelte"; ".vue"; ".py"; ".pyi"; ".js"; ".jsx"; ".ts"; ".tsx";
    ".mjs"; ".cjs"; ".java"; ".kt"; ".go"; ".rs"; ".rb"; ".php"; ".c"; ".cc";
    ".cpp"; ".h"; ".hpp"; ".cs"; ".swift"; ".scala"; ".lua"; ".sh"; ".bash";
    ".zsh"; ".ps1"; ".toml"; ".yaml"; ".yml"; ".json"; ".sql"; ".md"; ".html";
    ".css"; ".scss" ].

Definition _RANK_SUFFIX_BOOSTS : list (string * Q) :=
  [ (".astro", 0.9); (".tsx", 0.5); (".jsx", 0.4) ].

Definition _RANK_EXACT_FILENAME_PENALTIES : list (string * Q) :=
  [ ("package-lock.json", 1.8); ("pnpm-lock.yaml", 1.8); ("yarn.lock", 1.8);
    ("poetry.lock", 1.4); ("cargo.lock", 1.4); ("composer.lock", 1.2) ].

Definition _RANK_NAME_BOOSTS : list (string * Q) :=
  [ ("core", 0.9); ("main", 0.8); ("app", 0.7); ("index", 0.6); ("server", 0.7);
    ("client", 0.5); ("api", 0.6); ("router", 0.5); ("service", 0.4);
    ("model", 0.3); ("store", 0.3) ].

Definition _RANK_PATH_PENALTIES : list (string * Q) :=
  [ ("tests", 0.85); ("test", 0.85); ("docs", 0.65); ("examples", 0.7);
    ("scripts", 0.8); ("migrations", 0.8) ].

Definition _RANK_PATH_BOOSTS : list (string * Q) :=
  [ ("src", 0.15); ("components", 0.2); ("pages", 0.2); ("layouts", 0.15) ].

(** ** [_rank_files] *)

(** The bonus of the [if path in focus / elif name in focus_basenames]
    statement. *)
Definition focus_bonus (focus focus_basenames : list string) (p : string) : Q :=
  if mem p focus then 25
  else if mem (path_name p) focus_basenames then 4
  else 0.

(** The loop over [_RANK_NAME_BOOSTS.items()]. *)
Definition name_boosts (stem : string) (score : Q) : Q :=
  fold_left (fun sc nb =>
               let '(name, boost) := nb in
               if String.eqb stem name || startswith stem (name ++ "_")
                  || endswith stem ("_" ++ name)
               then sc + boost else sc)
            _RANK_NAME_BOOSTS score.

(** The loop over [path_obj.parts[:-1]]. *)
Definition segment_boosts (parts : list string) (score : Q) : Q :=
  fold_left (fun sc part =>
               sc + dict_get _RANK_PATH_BOOSTS (lower part) 0
               - dict_get _RANK_PATH_PENALTIES (lower part) 0)
            (removelast parts) score.

(** The body of the loop over [analyses], up to the floor at zero. *)
Definition raw_score (focus focus_basenames : list string)
           (graph_scores : list (string * Q)) (analysis : RepoMapFileAnalysis) : Q :=
  let p := replace_char backslash "/" (a_path analysis) in
  let suffix := lower (path_suffix p) in
  let depth := Z.of_nat (count_char "/" p) in
  let score := 1 in
  let score := if mem suffix _CODE_LIKE_SUFFIXES then score + 1.6 else score in
  let score := score + dict_get _RANK_SUFFIX_BOOSTS suffix 0 in
  let score := score + focus_bonus focus focus_basenames p in
  let score := score + Qmax 0 (0.8 - inject_Z (Z.min depth 10) * 0.08) in
  let score := score + Qmin 1.5 (inject_Z (symbol_count analysis) * 0.2) in
  let score := score + Qmin 0.8 (inject_Z (line_count analysis) / 400) in
  let stem := lower (path_stem p) in
  let score := name_boosts stem score in
  let score := segment_boosts (path_parts p) score in
  let score := score - dict_get _RANK_EXACT_FILENAME_PENALTIES (lower (path_name p)) 0 in
  let score := if contains stem "generated" || contains stem "snapshot"
               then score - 0.4 else score in
  score + 2 * Qmax 0 (dict_get graph_scores p 0).

Definition rank_entry (focus focus_basenames : list string)
           (graph_scores : list (string * Q)) (analysis : RepoMapFileAnalysis)
  : RepoMapRankingEntry :=
  mkRankingEntry (replace_char backslash "/" (a_path analysis))
                 (Qmax 0 (raw_score focus focus_basenames graph_scores analysis))
                 (a_symbols analysis).

(** The key of [scored.sort(key=lambda item: (-item.score, item.path))]:
    [key_le a b] is [key a <= key b] on the tuples. *)
Definition key_le (a b : RepoMapRankingEntry) : bool :=
  negb (Qle_bool (score a) (score b))
  || (Qeq_bool (score a) (score b) && String.leb (path a) (path b)).

Fixpoint insert_ranked (x : RepoMapRankingEntry) (l : list RepoMapRankingEntry)
  : list RepoMapRankingEntry :=
  match l with
  | [] => [x]
  | y :: l' => if key_le x y then x :: l else y :: insert_ranked x l'
  end.

(** A stable ascending sort on the key. *)
Definition sort_ranked (l : list RepoMapRankingEntry) : list RepoMapRankingEntry :=
  fold_right insert_ranked [] l.

Definition _rank_files (analyses : list RepoMapFileAnalysis) (focus_files : list string)
           (max_files : Z) (graph_scores : list (string * Q))
  : list RepoMapRankingEntry :=
  let focus := to_set (map (replace_char backslash "/") focus_files) in
  let focus_basenames := to_set (map path_name focus) in
  let scored := map (rank_entry focus focus_basenames graph_scores) analyses in
  firstn (Z.to_nat (Z.max 0 max_files)) (sort_ranked scored).

(** ** UTF-8 decoding errors *)

(** The state of the strict decoder inside a multi-byte sequence: where
    the sequence started, how many continuation bytes are still due and
    the range allowed for the next one. *)
Record Pending := mkPending {
  seq_start : nat;
  need : nat;
  lo : nat;
  hi : nat
}.

(** The lead bytes of the well-formed sequences and what must follow. *)
Definition lead (i b : nat) : option (option Pending) :=
  if (b <? 128)%nat then Some None
  else if (194 <=? b)%nat && (b <=? 223)%nat then Some (Some (mkPending i 1 128 191))
  else if (b =? 224)%nat then Some (Some (mkPending i 2 160 191))
  else if (b =? 237)%nat then Some (Some (mkPending i 2 128 159))
  else if (225 <=? b)%nat && (b <=? 239)%nat then Some (Some (mkPending i 2 128 191))
  else if (b =? 240)%nat then Some (Some (mkPending i 3 144 191))
  else if (241 <=? b)%nat && (b <=? 243)%nat then Some (Some (mkPending i 3 128 191))
  else if (b =? 244)%nat then Some (Some (mkPending i 3 128 143))
  else None.

(** [bytes.decode("utf-8")] in strict mode: [None] when the bytes decode,
    [Some start] with the [start] of the [UnicodeDecodeError] otherwise
    (the index of the first byte of the first ill-formed sequence). *)
Fixpoint decode_scan (l : list ascii) (i : nat) (st : option Pending) : option nat :=
  match l with
  | [] => match st with
          | None => None
          | Some p => Some (seq_start p)
          end
  | c :: l' =>
      let b := nat_of_ascii c in
      match st with
      | None =>
          match lead i b with
          | Some st' => decode_scan l' (S i) st'
          | None => Some i
          end
      | Some p =>
          if (lo p <=? b)%nat && (b <=? hi p)%nat then
            decode_scan l' (S i)
                        (if (need p =? 1)%nat then None
                         else Some (mkPending (seq_start p) (need p - 1) 128 191))
          else Some (seq_start p)
      end
  end.

Definition utf8_decode_error (raw : string) : option nat :=
  decode_scan (chars raw) 0 None.

Lemma decode_scan_bound l : forall i st k,
    decode_scan l i st = Some k ->
    match st with Some p => (seq_start p < i)%nat | None => True end ->
    (k < i + List.length l)%nat.
Proof.
  induction l as [|c l IH]; intros i st k H Hst; simpl in H.
  - destruct st as [p|]; [|discriminate]. injection H as <-. simpl. lia.
  - destruct st as [p|].
    + destruct ((lo p <=? nat_of_ascii c)%nat && (nat_of_ascii c <=? hi p)%nat).
      * apply IH in H; [simpl; lia|].
        destruct (need p =? 1)%nat; simpl; [trivial|lia].
      * injection H as <-. simpl. lia.
    + destruct (lead i (nat_of_ascii c)) as [st'|] eqn:Hl.
      * apply IH in H; [simpl; lia|].
        unfold lead in Hl.
        repeat match type of Hl with
               | (if ?b then _ else _) = _ => destruct b
               end; inversion Hl; subst; simpl; auto.
      * injection H as <-. simpl. lia.
Qed.

Lemma chars_length s : List.length (chars s) = String.length s.
Proof. induction s; simpl; auto. Qed.

Lemma utf8_decode_error_bound raw k :
  utf8_decode_error raw = Some k -> (k < String.length raw)%nat.
Proof.
  intros H. apply decode_scan_bound in H; [|exact I].
  rewrite chars_length in H. exact H.
Qed.

Lemma take_length k s : (k < String.length s)%nat -> String.length (take k s) = k.
Proof.
  unfold take. revert k. induction s as [|c s IH]; intros k Hk; simpl in *.
  - lia.
  - destruct k; simpl; [reflexivity|]. rewrite IH; [reflexivity|lia].
Qed.

(** ** [_truncate_utf8] *)

(** Keeps the equation of a scrutinee in scope of its branches. *)
Definition inspect {A : Type} (x : A) : {y : A | x = y} := exist _ x eq_refl.

(** The [while clipped:] loop. *)
Equations? truncate_loop (clipped : string) : string by wf (String.length clipped) lt :=
  truncate_loop clipped with String.eqb clipped "" := {
    | true => ""
    | false with inspect (utf8_decode_error clipped) := {
        | exist _ None _ => clipped
        | exist _ (Some start) Herr => truncate_loop (take start clipped)
      }
    }.
Proof.
  apply utf8_decode_error_bound in Herr.
  rewrite take_length; assumption.
Qed.

Definition _truncate_utf8 (text : string) (max_bytes : Z) : string :=
  if (max_bytes <=? 0)%Z then ""
  else if (Z.of_nat (String.length text) <=? max_bytes)%Z then text
  else truncate_loop (take (Z.to_nat max_bytes) text).

(** ** [_render_text] *)

Definition pad3 (k : Z) : string :=
  let s := of_Z k in
  match String.length s with
  | 1%nat => "00" ++ s
  | 2%nat => "0" ++ s
  | _ => s
  end.

(** [f"{x:.3f}"]: the nearest multiple of 1/1000, ties to even. *)
Definition format_3f (x : Q) : string :=
  let t := Qabs x * 1000 in
  let f := Qfloor t in
  let r := t - inject_Z f in
  let n := if Qle_bool r (1 # 2)
           then (if Qeq_bool r (1 # 2) && Z.odd f then f + 1 else f)%Z
           else (f + 1)%Z in
  (if Qle_bool 0 x then "" else "-") ++ of_Z (n / 1000) ++ "." ++ pad3 (n mod 1000).

Definition _render_entry_chunk (entry : RepoMapRankingEntry) : string :=
  let lines := (path entry ++ " (" ++ format_3f (score entry) ++ ")" ++ nl)
                 :: map (fun symbol => "  - " ++ symbol ++ nl) (symbols entry) in
  String.concat "" lines.

Definition byte_len (s : string) : Z := Z.of_nat (String.length s).

(** The [for entry in ranking] loop: the chunks accepted so far, the
    bytes used and whether the loop broke out. *)
Fixpoint accept_chunks (budget : Z) (ranking : list RepoMapRankingEntry)
         (chunks : list (string * Z)) (used : Z) : list (string * Z) * Z * bool :=
  match ranking with
  | [] => (chunks, used, false)
  | entry :: rest =>
      let chunk := _render_entry_chunk entry in
      let chunk_bytes := byte_len chunk in
      if (used + chunk_bytes >? budget)%Z then (chunks, used, true)
      else accept_chunks budget rest (chunks ++ [(chunk, chunk_bytes)]) (used + chunk_bytes)%Z
  end.

Definition truncation_note (shown total : nat) (budget : Z) : string :=
  "... (truncated, showing " ++ of_nat shown ++ "/" ++ of_nat total
    ++ " files within " ++ of_Z budget ++ " bytes)" ++ nl.

(** The [while chunks and used + note_bytes > budget] loop, on the
    chunks in reverse order so that [chunks.pop()] takes the head. *)
Fixpoint shrink_chunks (budget : Z) (total : nat) (rchunks : list (string * Z))
         (used : Z) : list (string * Z) * Z :=
  match rchunks with
  | [] => ([], used)
  | (_, removed_bytes) :: rest =>
      let note := truncation_note (List.length rchunks) total budget in
      if (used + byte_len note >? budget)%Z
      then shrink_chunks budget total rest (used - removed_bytes)%Z
      else (rchunks, used)
  end.

Definition _render_text (ranking : list RepoMapRankingEntry) (max_text_bytes : Z)
  : string :=
  match ranking with
  | [] => ""
  | _ =>
      let budget := Z.max 256 max_text_bytes in
      let total := List.length ranking in
      let '(chunks, used, truncated) := accept_chunks budget ranking [] 0%Z in
      if truncated then
        let '(rchunks, used) := shrink_chunks budget total (rev chunks) used in
        let chunks := rev rchunks in
        let note := truncation_note (List.length chunks) total budget in
        let note_bytes := byte_len note in
        if (used + note_bytes <=? budget)%Z
        then String.concat "" (map fst (chunks ++ [(note, note_bytes)]))
        else _truncate_utf8 note budget
      else String.concat "" (map fst chunks)
  end.

(** ** PageRank *)

Definition sum_Q (l : list Q) : Q := fold_right Qplus 0 l.

(** [max(values, default=0.0)] *)
Definition max_Q (l : list Q) : Q :=
  match l with
  | [] => 0
  | x :: l' => fold_left Qmax l' x
  end.

Definition Edge : Type := (string * string)%type.

(** The loop that fills [outgoing] and [incoming]. *)
Definition adjacency (nodes : list string) (edges : list Edge)
  : dict (list string) * dict (list string) :=
  let empty := dict_comp (fun _ => @nil string) nodes in
  fold_left (fun '(outgoing, incoming) '(src, dst) =>
               if negb (mem src nodes) || negb (mem dst nodes) then (outgoing, incoming)
               else (dict_set outgoing src (set_add dst (dict_get outgoing src [])),
                     dict_set incoming dst (set_add src (dict_get incoming dst []))))
            edges (empty, empty).

(** One pass of the [for _ in range(max_iter)] loop: the next rank and
    the accumulated [diff]. *)
Definition pagerank_step (alpha : Q) (nodes : list string)
           (outgoing incoming : dict (list string)) (rank : dict Q) : dict Q * Q :=
  let n := inject_Z (Z.of_nat (List.length nodes)) in
  let base := (1 - alpha) / n in
  let dangling :=
    sum_Q (map (fun '(node, outs) => dict_get rank node 0)
               (filter (fun '(_, outs) => match outs with [] => true | _ => false end)
                       outgoing)) in
  fold_left (fun '(next_rank, diff) node =>
               let inbound :=
                 fold_left (fun inbound src =>
                              let outs := dict_get outgoing src [] in
                              match outs with
                              | [] => inbound
                              | _ => inbound + dict_get rank src 0
                                               / inject_Z (Z.of_nat (List.length outs))
                              end)
                           (dict_get incoming node []) 0 in
               let value := base + alpha * (inbound + dangling / n) in
               (dict_set next_rank node value,
                diff + Qabs (value - dict_get rank node 0)))
            nodes ([], 0).

Fixpoint pagerank_iterate (max_iter : nat) (alpha tol : Q) (nodes : list string)
         (outgoing incoming : dict (list string)) (rank : dict Q) : dict Q :=
  match max_iter with
  | O => rank
  | S k =>
      let '(next_rank, diff) := pagerank_step alpha nodes outgoing incoming rank in
      if Qle_bool diff tol then next_rank
      else pagerank_iterate k alpha tol nodes outgoing incoming next_rank
  end.

Definition _pagerank_scores_simple (paths : list string) (edges : list Edge) : dict Q :=
  let alpha := 0.85 in
  let nodes := paths in
  match nodes with
  | [] => []
  | _ =>
      let n := inject_Z (Z.of_nat (List.length nodes)) in
      let '(outgoing, incoming) := adjacency nodes edges in
      let rank := dict_comp (fun _ => 1 / n) nodes in
      let rank := pagerank_iterate 100 alpha (1 # 1000000) nodes outgoing incoming rank in
      let total := sum_Q (dict_values rank) in
      if Qle_bool total 0 then dict_comp (fun _ => 0) nodes
      else map (fun '(node, value) => (node, value / total)) rank
  end.

Inductive Backend := BackendNone | BackendNetworkx | BackendSimple.

Section WithNetworkx.
(** The [networkx] library is outside the repository.  [nx_pagerank
    paths edges] is [None] when importing it or calling [nx.pagerank]
    raises, and otherwise the dict that [nx.pagerank] returns for the
    graph with these nodes and edges. *)
Variable nx_pagerank : list string -> list Edge -> option (dict Q).

Definition _pagerank_scores_networkx (paths : list string) (edges : list Edge)
  : dict Q :=
  match nx_pagerank paths edges with
  | None => []
  | Some pagerank => dict_comp (fun p => dict_get pagerank p 0) paths
  end.

(** The scores before rescaling and the backend that produced them. *)
Definition backend_scores (paths : list string) (edges : list Edge)
  : dict Q * Backend :=
  match _pagerank_scores_networkx paths edges with
  | [] => (_pagerank_scores_simple paths edges, BackendSimple)
  | scores => (scores, BackendNetworkx)
  end.

Definition _pagerank_scores_with_backend (paths : list string) (edges : list Edge)
  : dict Q * Backend :=
  match paths with
  | [] => ([], BackendNone)
  | _ =>
      let '(scores, backend) := backend_scores paths edges in
      let peak := max_Q (dict_values scores) in
      if Qle_bool peak 0 then (dict_comp (fun _ => 0) paths, backend)
      else (dict_comp (fun p => dict_get scores p 0 / peak) paths, backend)
  end.

End WithNetworkx.

(** ** The artifact *)

Record ErrorObject := mkError {
  code : string;
  message : string;
  retryable : bool;
  failed_stage : string
}.

(** The provenance keys that only a successful run writes. *)
Record RunProvenance := mkRunProvenance {
  ast_requested : bool;
  ast_enabled : bool;
  missing_deps : list string;
  pagerank_backend : string
}.

Record Provenance := mkProvenance {
  method : string;
  source_root : string;
  scope : list string;
  focus_files : list string;
  duration_ms : Z;
  timeout_ms : option Z;
  run_provenance : option RunProvenance
}.

Record Stats := mkStats {
  files_parsed : Z;
  symbols_found : Z;
  graph_edges : Z;
  byte_count : Z
}.

Record RepoMapArtifact := mkArtifact {
  ok : bool;
  generated_at : string;
  provenance : Provenance;
  stats : Stats;
  ranking : list RepoMapRankingEntry;
  text : string;
  error : option ErrorObject;
  schema_version : string
}.

Definition SCHEMA_VERSION : string := "repomap_artifact_v1".

Record RepoMapRunResult := mkRunResult {
  artifact : RepoMapArtifact;
  artifact_path : option string;
  session_artifact_path : option string
}.

(** [repomap_config]: the attributes that [run_repomap] reads. *)
Record RepomapConfig := mkRepomapConfig {
  watch_paths : list string;
  ignored_dirs : list string;
  cfg_artifact_path : string;
  max_ranked_files : Z;
  cfg_max_text_bytes : Z;
  prefer_ast_graph : bool
}.

(** [_get_attr(config, name, default)] *)
Definition _get_attr {A : Type} (config : option RepomapConfig)
           (field : RepomapConfig -> A) (default : A) : A :=
  match config with
  | Some c => field c
  | None => default
  end.

(** ** The environment of a run *)

(** A directory tree as [os.walk] sees it; a file carries what
    [_is_text_candidate] answers for it. *)
Inductive FsNode :=
| FsFile (name : string) (text_candidate : bool)
| FsDir (name : string) (children : list FsNode).

(** What a scope entry resolves to. *)
Inductive ScopeTarget :=
| Outside                                     (* [relative_to(root)] fails *)
| Missing                                     (* [target.exists()] is false *)
| Raises (msg : string)                       (* an [OSError] on the way *)
| IsFile (rel : string) (text_candidate : bool)
| IsDir (rel : string) (children : list FsNode).

Inductive Effect :=
| ReadClock
| ResolveScope (entry : string)
| VisitDir (rel : string)
| AnalyzeFile (rel : string)
| WriteFile (target : string).

Record World := mkWorld {
  (** the successive values of [(time.perf_counter() - start) * 1000] *)
  clock : nat -> Z;
  root_is_dir : bool;
  path_exists : string -> bool;
  resolve_scope : string -> ScopeTarget;
  (** [None] when the write succeeds, the [OSError] text otherwise *)
  write_error : string -> option string;
  (** what [_analyze_file] reads off a discovered file *)
  analyze_file : string -> RepoMapFileAnalysis;
  now_iso8601 : string;
  world_missing_deps : list string
}.

(** The clock readings consumed and the effects performed so far. *)
Record RunState := mkRunState {
  ticks : nat;
  trace : list Effect
}.

Definition Run (A : Type) : Type := RunState -> A * RunState.

Definition rret {A : Type} (a : A) : Run A := fun st => (a, st).

Definition rbind {A B : Type} (m : Run A) (k : A -> Run B) : Run B :=
  fun st => let (a, st') := m st in k a st'.

Definition emit (e : Effect) : Run unit :=
  fun st => (tt, mkRunState (ticks st) (trace st ++ [e])).

Declare Scope run_scope.
Delimit Scope run_scope with run.
Notation "x <- m ;; k" := (rbind m (fun x => k))
  (at level 61, m at next level, right associativity) : run_scope.
Notation "m ;;; k" := (rbind m (fun _ => k))
  (at level 61, right associativity) : run_scope.

Section WithWorld.
Variable w : World.
Open Scope run_scope.

Definition _duration_ms : Run Z :=
  fun st => (Z.max 0 (clock w (ticks st)),
             mkRunState (S (ticks st)) (trace st ++ [ReadClock])).

Definition _timed_out (timeout : option Z) : Run bool :=
  match timeout with
  | None => rret false
  | Some t =>
      if (t <=? 0)%Z then rret true
      else d <- _duration_ms ;; rret (d >? t)%Z
  end.

(** ** [_failure_artifact] *)

Definition _failure_artifact (code message root : string) (scope focus_files : list string)
           (timeout : option Z) (failed_stage : string) : Run RepoMapArtifact :=
  d <- _duration_ms ;;
  rret (mkArtifact false (now_iso8601 w)
                   (mkProvenance "none" root scope focus_files d timeout None)
                   (mkStats 0 0 0 0)
                   []
                   ""
                   (Some (mkError code message
                                  (mem code ["deps_missing"; "timeout"; "scan_failed";
                                             "write_failed"])
                                  failed_stage))
                   SCHEMA_VERSION).

(** ** [_select_scope] *)

Definition is_space (c : ascii) : bool :=
  let n := nat_of_ascii c in ((9 <=? n) && (n <=? 13) || (28 <=? n) && (n <=? 32))%nat.

(** [bool(s.strip())] *)
Definition not_blank (s : string) : bool := negb (forallb is_space (chars s)).

Definition _FALLBACK_SCOPE_CANDIDATES : list string :=
  ["cortex"; "src"; "lib"; "app"; "packages"; "tests"].

Definition root_join (root entry : string) : string :=
  if startswith entry "/" then entry else root ++ "/" ++ entry.

Definition _scope_targets_exist (root : string) (scope : list string) : bool :=
  existsb (fun entry => path_exists w (root_join root entry)) scope.

Definition or_default (l default : list string) : list string :=
  match l with [] => default | _ => l end.

Definition _select_scope (root : string) (requested_scope : list string)
           (user_scope_supplied : bool) : list string :=
  let normalized := or_default (filter not_blank requested_scope) ["src"] in
  if user_scope_supplied || _scope_targets_exist root normalized then normalized
  else
    or_default (filter (fun name => path_exists w (root_join root name))
                       _FALLBACK_SCOPE_CANDIDATES)
               ["."].

(** ** [_discover_files] *)

Definition DEFAULT_IGNORED_DIRS : list string :=
  [ ".git"; ".hg"; ".svn"; ".venv"; "venv"; ".tox"; ".mypy_cache"; ".pytest_cache";
    ".ruff_cache"; ".cortex"; "node_modules"; "dist"; "build"; "__pycache__";
    ".next"; "coverage" ].

Definition _ignored (rel_path : string) (ignored_names : list string) : bool :=
  if String.eqb rel_path "" then true
  else
    let parts := filter (fun part => negb (String.eqb part ""))
                        (split "/" (replace_char backslash "/" rel_path)) in
    if existsb (fun part => mem part ignored_names) (removelast parts) then true
    else
      let filename := last parts "" in
      if startswith filename "." && negb (mem filename [".env"; ".gitignore"]) then true
      else endswith filename ".min.js" || endswith filename ".min.css"
           || endswith filename ".map".

Definition rel_join (dir name : string) : string :=
  if String.eqb dir "" || String.eqb dir "." then name else dir ++ "/" ++ name.

Definition file_entries (children : list FsNode) : list (string * bool) :=
  flat_map (fun c => match c with FsFile name t => [(name, t)] | FsDir _ _ => [] end)
           children.

(** What [os.walk] yields once [dirnames[:]] is pruned: each visited
    directory with its files, top down. *)
Fixpoint os_walk_node (ignored_names : list string) (rel : string) (node : FsNode)
  : list (string * list (string * bool)) :=
  match node with
  | FsFile _ _ => []
  | FsDir _ children =>
      (rel, file_entries children)
        :: (fix subdirs (cs : list FsNode) : list (string * list (string * bool)) :=
              match cs with
              | [] => []
              | FsDir d sub as c :: cs' =>
                  ((if _ignored (rel_join rel d) ignored_names then []
                    else os_walk_node ignored_names (rel_join rel d) c)
                     ++ subdirs cs')%list
              | FsFile _ _ :: cs' => subdirs cs'
              end) children
  end.

Definition os_walk (ignored_names : list string) (rel : string) (children : list FsNode)
  : list (string * list (string * bool)) :=
  os_walk_node ignored_names rel (FsDir rel children).

Inductive Discovery :=
| Discovered (files : list string)
| RaisedTimeout
| RaisedOSError (msg : string).

(** The inner [for filename in filenames] loop. *)
Definition add_files (ignored_names : list string) (dir : string)
           (filenames : list (string * bool)) (discovered : list string) : list string :=
  fold_left (fun acc '(filename, text_candidate) =>
               let rel := rel_join dir filename in
               if String.eqb rel "" || mem rel acc || _ignored rel ignored_names then acc
               else if negb text_candidate then acc
               else (acc ++ [rel])%list)
            filenames discovered.

(** The [for dirpath, dirnames, filenames in os.walk(target)] loop;
    [inl] carries the files discovered so far. *)
Fixpoint walk_visits (timeout : option Z) (ignored_names : list string)
         (visits : list (string * list (string * bool))) (discovered : list string)
  : Run (list string + Discovery) :=
  match visits with
  | [] => rret (inl discovered)
  | (dir, filenames) :: rest =>
      emit (VisitDir dir) ;;;
      expired <- _timed_out timeout ;;
      if expired then rret (inr RaisedTimeout)
      else walk_visits timeout ignored_names rest
                       (add_files ignored_names dir filenames discovered)
  end.

(** The [for scope_entry in scope] loop. *)
Fixpoint discover_scope (timeout : option Z) (ignored_names : list string)
         (scope : list string) (discovered : list string) : Run Discovery :=
  match scope with
  | [] => rret (Discovered (sorted discovered))
  | scope_entry :: rest =>
      expired <- _timed_out timeout ;;
      if expired then rret RaisedTimeout
      else
        emit (ResolveScope scope_entry) ;;;
        match resolve_scope w scope_entry with
        | Outside | Missing => discover_scope timeout ignored_names rest discovered
        | Raises msg => rret (RaisedOSError msg)
        | IsFile rel text_candidate =>
            discover_scope timeout ignored_names rest
              (if negb (String.eqb rel "") && negb (mem rel discovered)
                  && negb (_ignored rel ignored_names) && text_candidate
               then (discovered ++ [rel])%list else discovered)
        | IsDir rel children =>
            r <- walk_visits timeout ignored_names
                             (os_walk ignored_names rel children) discovered ;;
            match r with
            | inl discovered' => discover_scope timeout ignored_names rest discovered'
            | inr raised => rret raised
            end
        end
  end.

Definition _discover_files (scope ignored_dirs : list string) (timeout : option Z)
  : Run Discovery :=
  let ignored_names := PyStr.union DEFAULT_IGNORED_DIRS ignored_dirs in
  discover_scope timeout ignored_names (or_default scope ["src"]) [].

(** ** [run_repomap] *)

Variable nx_pagerank : list string -> list Edge -> option (dict Q).

(** Import resolution ([_build_dependency_edges]) is not modelled:
    the run is stated for any edge builder. *)
Variable _build_dependency_edges : list RepoMapFileAnalysis -> list Edge.

Definition _analyze_file (rel : string) : Run RepoMapFileAnalysis :=
  emit (AnalyzeFile rel) ;;;
  let a := analyze_file w rel in
  rret (mkFileAnalysis rel (byte_size a) (line_count a) (a_symbols a)
                       (symbol_count a) (imports a)).

Fixpoint _analyze_files (files : list string) : Run (list RepoMapFileAnalysis) :=
  match files with
  | [] => rret []
  | rel :: rest =>
      a <- _analyze_file rel ;;
      others <- _analyze_files rest ;;
      rret (a :: others)
  end.

Definition backend_name (b : Backend) : string :=
  match b with
  | BackendNone => "none"
  | BackendNetworkx => "networkx"
  | BackendSimple => "simple"
  end.

(** The two writes of the [try] block: the first [OSError], if any. *)
Definition write_artifacts (latest_path : string) (session_path : option string)
  : Run (option string) :=
  emit (WriteFile latest_path) ;;;
  match write_error w latest_path with
  | Some exc => rret (Some exc)
  | None =>
      match session_path with
      | None => rret None
      | Some sp => emit (WriteFile sp) ;;; rret (write_error w sp)
      end
  end.

Definition opt_list (l : option (list string)) : list string :=
  match l with Some l' => l' | None => [] end.

Definition opt_or {A : Type} (o : option A) (default : A) : A :=
  match o with Some a => a | None => default end.

Definition truthy (s : option string) : option string :=
  match s with
  | Some s' => if String.eqb s' "" then None else Some s'
  | None => None
  end.

Definition run_repomap (root : string) (repomap_config : option RepomapConfig)
           (scope focus_files : option (list string)) (output_path : option string)
           (max_files max_text_bytes : option Z) (session_id : option string)
           (timeout : option Z) : Run RepoMapRunResult :=
  let root_path := root in
  let config_scope := _get_attr repomap_config watch_paths ["src"] in
  let config_ignored := _get_attr repomap_config ignored_dirs [] in
  let config_artifact :=
    _get_attr repomap_config cfg_artifact_path ".cortex/artifacts/repomap/latest.json" in
  let config_max_files := _get_attr repomap_config max_ranked_files 20%Z in
  let config_max_text_bytes := _get_attr repomap_config cfg_max_text_bytes 8192%Z in
  let config_prefer_ast := _get_attr repomap_config prefer_ast_graph true in
  let requested_scope := or_default (or_default (opt_list scope) config_scope) ["src"] in
  let selected_scope :=
    _select_scope root_path requested_scope
                  (match scope with Some _ => true | None => false end) in
  let selected_focus := opt_list focus_files in
  let selected_output := opt_or (truthy output_path) config_artifact in
  let selected_max_files := Z.max 1 (opt_or max_files config_max_files) in
  let selected_max_text_bytes := Z.max 256 (opt_or max_text_bytes config_max_text_bytes) in
  let ast_mode_active := config_prefer_ast in
  let fail code message stage :=
    a <- _failure_artifact code message root_path selected_scope selected_focus
                           timeout stage ;;
    rret (mkRunResult a None None) in
  if negb (root_is_dir w) then
    fail "scan_failed"
         ("Project root does not exist or is not a directory: " ++ root_path)
         "discovery"
  else
    expired <- _timed_out timeout ;;
    if expired then
      fail "timeout" "Repo-map generation timed out before discovery started."
           "discovery"
    else
      found <- _discover_files selected_scope config_ignored timeout ;;
      match found with
      | RaisedTimeout =>
          fail "timeout" "Repo-map generation timed out during file discovery."
               "discovery"
      | RaisedOSError exc =>
          fail "scan_failed" ("Failed during file discovery: " ++ exc) "discovery"
      | Discovered files =>
          analyses <- _analyze_files files ;;
          let dependency_edges :=
            if ast_mode_active then _build_dependency_edges analyses else [] in
          let '(graph_scores, backend) :=
            if ast_mode_active
            then _pagerank_scores_with_backend nx_pagerank (map a_path analyses)
                                               dependency_edges
            else ([], BackendNone) in
          let method := if ast_mode_active then "ast_pagerank" else "heuristic_fallback" in
          let ranking := _rank_files analyses selected_focus selected_max_files
                                     graph_scores in
          let text := _render_text ranking selected_max_text_bytes in
          let symbols_found := fold_right Z.add 0%Z (map symbol_count analyses) in
          d <- _duration_ms ;;
          let artifact :=
            mkArtifact true (now_iso8601 w)
                       (mkProvenance method root_path selected_scope selected_focus d
                                     timeout
                                     (Some (mkRunProvenance config_prefer_ast
                                                            ast_mode_active
                                                            (world_missing_deps w)
                                                            (backend_name backend))))
                       (mkStats (Z.of_nat (List.length files)) symbols_found
                                (Z.of_nat (List.length dependency_edges))
                                (byte_len text))
                       ranking text None SCHEMA_VERSION in
          let latest_path := root_join root_path selected_output in
          let session_path :=
            match truthy session_id with
            | Some sid => Some (root_path ++ "/.cortex/artifacts/repomap/" ++ sid ++ ".json")
            | None => None
            end in
          failure <- write_artifacts latest_path session_path ;;
          match failure with
          | Some exc =>
              fail "write_failed" ("Failed to write repo-map artifact: " ++ exc) "write"
          | None => rret (mkRunResult artifact (Some latest_path) session_path)
          end
      end.

End WithWorld.

End Repomap.

(* ================================================================== *)
(** * The write path of the store ([store.py]): retries on a locked database *)
(* ================================================================== *)

Module StoreWrites.
Import PyStr.
Open Scope Q_scope.

(** What one pass through [with self.connection() as conn:
    operation(conn)] ends in: the commit, an [sqlite3.OperationalError]
    with its text, or any other exception. *)
Inductive Attempt :=
| Committed
| OperationalError (msg : string)
| OtherError (msg : string).

(** [_is_lock_error] *)
Definition _is_lock_error (msg : string) : bool :=
  existsb (fun m => contains (lower msg) m)
          ["database is locked"; "database table is locked"].

(** What the store does while writing: the attempts it makes, by number,
    and the seconds it sleeps between them. *)
Inductive WriteEvent :=
| Attempted (attempt : nat)
| Slept (seconds : Q).

(** How [_run_write] ends: it returns, an exception leaves it, or the
    [for] loop runs out. *)
Inductive WriteResult :=
| Returned
| Raised (exc : Attempt)
| LoopEnded.

(** The [for attempt in range(attempts)] loop, from [attempt] on with
    [remaining] iterations to go; [operation k] is what attempt [k]
    ends in. *)
Fixpoint write_loop (operation : nat -> Attempt) (attempts : Z) (backoff : Q)
         (remaining attempt : nat) : WriteResult * list WriteEvent :=
  match remaining with
  | O => (LoopEnded, [])
  | S remaining' =>
      match operation attempt with
      | Committed => (Returned, [Attempted attempt])
      | OtherError msg => (Raised (OtherError msg), [Attempted attempt])
      | OperationalError msg =>
          if negb (_is_lock_error msg) || (attempts - 1 <=? Z.of_nat attempt)%Z
          then (Raised (OperationalError msg), [Attempted attempt])
          else
            let sleep :=
              if Qlt_le_dec 0 backoff
              then [Slept (backoff * inject_Z (2 ^ Z.of_nat attempt))]
              else [] in
            let '(result, events) :=
              write_loop operation attempts backoff remaining' (S attempt) in
            (result, (Attempted attempt :: sleep ++ events)%list)
      end
  end.

(** [_run_write] of a store with the given retry settings. *)
Definition _run_write (lock_retry_attempts lock_retry_backoff_ms : Z)
           (operation : nat -> Attempt) : WriteResult * list WriteEvent :=
  let attempts := (Z.max 0 lock_retry_attempts + 1)%Z in
  let backoff := inject_Z (Z.max 0 lock_retry_backoff_ms) / 1000 in
  write_loop operation attempts backoff (Z.to_nat attempts) 0.

End StoreWrites.

(* ================================================================== *)
(** * The dependency graph of the repo-map ([repomap.py]): import resolution *)
(* ================================================================== *)

Module DependencyEdges.
Import PyStr Repomap.

(** [run_repomap] above takes the edge builder as a parameter; this is
    the one of the repository, with the helpers it resolves imports by. *)

Definition _RELATIVE_IMPORT_SUFFIX_CANDIDATES : list string :=
  [".py"; ".ts"; ".tsx"; ".js"; ".jsx"; ".mjs"; ".cjs"; ".astro"; ".vue"; ".svelte"].

(** ** [_normalize_rel] *)

(** The loop over the pieces; [None] is the early [return ""]. *)
Fixpoint normalize_pieces (pieces : list string) (parts : list string)
  : option (list string) :=
  match pieces with
  | [] => Some parts
  | piece :: rest =>
      if String.eqb piece "" || String.eqb piece "." then normalize_pieces rest parts
      else if String.eqb piece ".." then
        match parts with
        | [] => None
        | _ => normalize_pieces rest (removelast parts)
        end
      else normalize_pieces rest (parts ++ [piece])
  end.

Definition _normalize_rel (path : string) : string :=
  match normalize_pieces (split "/" (replace_char backslash "/" path)) [] with
  | Some parts => join "/" parts
  | None => ""
  end.

(** ** Strings and paths *)

Fixpoint lstrip_space (l : list ascii) : list ascii :=
  match l with
  | [] => []
  | c :: l' => if is_space c then lstrip_space l' else l
  end.

(** [s.strip()] on the ASCII whitespace. *)
Definition strip_space (s : string) : string :=
  of_chars (rev (lstrip_space (rev (lstrip_space (chars s))))).

(** [s.split(c, 1)[0]] *)
Definition before (c : ascii) (s : string) : string := hd "" (split c s).

(** [str(PurePosixPath(source).parent / target)] for a [target] that is
    not absolute. *)
Definition parent_joined (source target : string) : string :=
  let components := (removelast (path_components source) ++ path_components target)%list in
  match path_root source, components with
  | [], [] => "."
  | root, _ => String.concat "" root ++ join "/" components
  end.

(** [Path(p).with_suffix("").parts] for a path with a name. *)
Definition parts_without_suffix (p : string) : list string :=
  (removelast (path_parts p) ++ [path_stem p])%list.

(** ** Python modules *)

(** The dotted module name of a [.py] file, [None] for other files. *)
Definition module_name_of (rel : string) : option string :=
  if negb (String.eqb (lower (path_suffix rel)) ".py") then None
  else if String.eqb (path_name rel) "__init__.py"
       then Some (join "." (removelast (path_parts rel)))
       else Some (join "." (parts_without_suffix rel)).

Definition is_nil {A : Type} (l : list A) : bool :=
  match l with [] => true | _ => false end.

Definition has_key {V : Type} (d : dict V) (key : string) : bool :=
  match dict_lookup d key with Some _ => true | None => false end.

(** [_build_python_module_index]; the set is walked in list order. *)
Definition _build_python_module_index (paths : list string) : dict string :=
  fold_left (fun index rel =>
               match module_name_of rel with
               | None => index
               | Some module_name =>
                   if negb (String.eqb module_name "") && negb (has_key index module_name)
                   then dict_set index module_name rel
                   else index
               end)
            paths [].

(** [_resolve_python_import]; [_build_dependency_edges] calls it for a
    source whose suffix is [.py], which therefore has a name. *)
Definition _resolve_python_import (source_path target : string) (index : dict string)
  : option string :=
  if String.eqb target "" then None
  else if startswith target "." then
    let level := (String.length target - String.length (lstrip "." target))%nat in
    let module_tail := String.substring level (String.length target - level) target in
    let package_parts :=
      if String.eqb (path_name source_path) "__init__.py"
      then removelast (path_parts source_path)
      else removelast (parts_without_suffix source_path) in
    let trim := Nat.max 0 (level - 1) in
    if (List.length package_parts <? trim)%nat then None
    else
      let base_parts :=
        if (trim =? 0)%nat then package_parts
        else firstn (List.length package_parts - trim) package_parts in
      let tail_parts := filter (fun part => negb (String.eqb part "")) (split "." module_tail) in
      if is_nil base_parts && is_nil tail_parts then None
      else dict_lookup index (join "." (base_parts ++ tail_parts))
  else dict_lookup index target.

(** ** Relative imports *)

Definition relative_candidates (base : string) : list string :=
  flat_map (fun suffix => [base ++ suffix; base ++ "/" ++ "index" ++ suffix])
           _RELATIVE_IMPORT_SUFFIX_CANDIDATES.

(** The [for candidate in candidates] loop. *)
Fixpoint first_available (candidates available_paths : list string) : option string :=
  match candidates with
  | [] => None
  | candidate :: rest =>
      let normalized := _normalize_rel candidate in
      if negb (String.eqb normalized "") && mem normalized available_paths
      then Some normalized
      else first_available rest available_paths
  end.

Definition _resolve_relative_import (source_path target : string)
           (available_paths : list string) : option string :=
  if negb (startswith target "." || startswith target "/") then None
  else
    let raw := if startswith target "." then parent_joined source_path target
               else lstrip "/" target in
    let base := _normalize_rel raw in
    if String.eqb base "" then None
    else if mem base available_paths then Some base
    else if negb (String.eqb (path_suffix base) "") then None
    else first_available (relative_candidates base) available_paths.

(** ** [_build_dependency_edges] *)

Definition edge_eqb (a b : Edge) : bool :=
  String.eqb (fst a) (fst b) && String.eqb (snd a) (snd b).

(** [edges.add(e)] *)
Definition add_edge (e : Edge) (edges : list Edge) : list Edge :=
  if existsb (edge_eqb e) edges then edges else (edges ++ [e])%list.

(** [a <= b] on the tuples. *)
Definition edge_leb (a b : Edge) : bool :=
  if String.eqb (fst a) (fst b) then String.leb (snd a) (snd b)
  else String.leb (fst a) (fst b).

Fixpoint insert_edge (x : Edge) (l : list Edge) : list Edge :=
  match l with
  | [] => [x]
  | y :: l' => if edge_leb x y then x :: l else y :: insert_edge x l'
  end.

(** [sorted(edges)] *)
Definition sort_edges (l : list Edge) : list Edge := fold_right insert_edge [] l.

(** The body of the loop over [analysis.imports]: the [dst] of the edge
    it adds, if it adds one. *)
Definition import_edge (python_index : dict string) (available_paths : list string)
           (src suffix raw_target : string) : option string :=
  let target := strip_space (before "#" (before "?" raw_target)) in
  if String.eqb target "" then None
  else
    let dst := if String.eqb suffix ".py"
               then _resolve_python_import src target python_index
               else None in
    let dst := match dst with
               | None => _resolve_relative_import src target available_paths
               | Some _ => dst
               end in
    match dst with
    | Some d =>
        if negb (String.eqb d "") && negb (String.eqb d src) && mem d available_paths
        then Some d else None
    | None => None
    end.

Definition _build_dependency_edges (analyses : list RepoMapFileAnalysis) : list Edge :=
  let available_paths := to_set (map a_path analyses) in
  let python_index := _build_python_module_index available_paths in
  let edges :=
    fold_left (fun edges analysis =>
                 let src := a_path analysis in
                 let suffix := lower (path_suffix src) in
                 fold_left (fun edges raw_target =>
                              match import_edge python_index available_paths
                                                src suffix raw_target with
                              | Some dst => add_edge (src, dst) edges
                              | None => edges
                              end)
                           (imports analysis) edges)
              analyses [] in
  sort_edges edges.

End DependencyEdges.

(* ================================================================== *)
(** * Symbol summaries of the repo-map ([repomap.py]) *)
(* ================================================================== *)

Module Symbols.
Import PyStr.



Section WithRegex.
(** Python's [re] and [str.splitlines] are outside the repository.
    [pattern_name k line] is [match.group(1)] for the [k]-th pattern of
    [_SYMBOL_PATTERNS] on [line], and [None] when [pattern.match(line)]
    finds nothing. *)
Variable pattern_name : nat -> string -> option string.
Variable splitlines : string -> list string.



End WithRegex.

End Symbols.

(* ================================================================== *)
(** * Facts about lists and string sets shared by the two engines *)
(* ================================================================== *)

Module ListFacts.
Import PyStr.

Lemma mem_In (k : string) (l : list string) : mem k l = true <-> In k l.
Proof.
  unfold mem. rewrite existsb_exists. split.
  - intros (x & Hx & E). apply String.eqb_eq in E. now subst.
  - intros H. exists k. split; [exact H|apply String.eqb_refl].
Qed.

Lemma In_firstn {A : Type} (n : nat) (l : list A) (x : A) : In x (firstn n l) -> In x l.
Proof.
  revert n. induction l as [|y l IH]; intros [|n]; cbn [firstn In]; try tauto.
  intros [H|H]; [now left|right; eapply IH; eassumption].
Qed.

Lemma firstn_sorted {A : Type} (Rel : A -> A -> Prop) (n : nat) (l : list A) :
  StronglySorted Rel l -> StronglySorted Rel (firstn n l).
Proof.
  intros H. revert n. induction H as [|x l Hs IH Hall]; intros [|n]; cbn [firstn];
    try constructor; [apply IH|].
  apply Forall_forall. intros y Hy. rewrite Forall_forall in Hall.
  apply Hall. eapply In_firstn; eassumption.
Qed.

End ListFacts.

(* ================================================================== *)
(** * Properties of the failure tokenizer *)
(* ================================================================== *)

Module TokenizerSpec.
Import PyStr Tokenizer.

(** Stemming runs before the synonym lookup, so a table key that the
    stemmer rewrites is never looked up as written. *)
Definition stemmed_away (word : string) : bool :=
  negb (String.eqb (_normalize_token word)
                   (dict_get _SYNONYM_CANONICAL word word)).

(** C3 (the code departs from its own table): twelve of the fifteen
    words of [_SYNONYM_CANONICAL] normalize to their canonical form, but
    [redis], [caching] and [slowness] lose their ending to the stemmer
    first and come out as [redi], [cach] and [slownes], which the table
    does not hold. *)
Theorem synonym_keys_lost_to_stemming :
  _normalize_token "redis" = "redi"
  /\ _normalize_token "caching" = "cach"
  /\ _normalize_token "slowness" = "slownes"
  /\ filter stemmed_away (map fst _SYNONYM_CANONICAL) = ["redis"; "caching"; "slowness"]
  /\ map _normalize_token
         ["latency"; "slow"; "crash"; "crashed"; "failure"; "failed"; "error";
          "errors"; "exception"; "exceptions"; "connection"; "connections"]
     = ["timeout"; "timeout"; "fail"; "fail"; "fail"; "fail"; "fail";
        "fail"; "fail"; "fail"; "connect"; "connect"].
Proof. repeat split; vm_compute; reflexivity. Qed.

End TokenizerSpec.

(* ================================================================== *)
(** * Properties of the repo-map engine *)
(* ================================================================== *)

Module RepomapSpec.
Import PyStr Repomap ListFacts.

(** ** Failure artifacts *)

(** What every [ok=false] artifact looks like. *)
Definition failure_shape (a : RepoMapArtifact) : Prop :=
  stats a = mkStats 0 0 0 0
  /\ ranking a = []
  /\ text a = ""
  /\ exists e, error a = Some e
               /\ In (code e) ["scan_failed"; "timeout"; "write_failed"]
               /\ message e <> ""
               /\ retryable e = true
               /\ In (failed_stage e) ["discovery"; "write"].

Lemma _failure_artifact_eq w code msg root scope focus timeout stage st :
  _failure_artifact w code msg root scope focus timeout stage st
  = (mkArtifact false (now_iso8601 w)
                (mkProvenance "none" root scope focus (Z.max 0 (clock w (ticks st)))
                              timeout None)
                (mkStats 0 0 0 0) [] ""
                (Some (mkError code msg
                               (mem code ["deps_missing"; "timeout"; "scan_failed";
                                          "write_failed"])
                               stage))
                SCHEMA_VERSION,
     mkRunState (S (ticks st)) (trace st ++ [ReadClock])).
Proof. reflexivity. Qed.

Lemma failure_shape_intro w code msg root scope focus timeout stage st :
  In code ["scan_failed"; "timeout"; "write_failed"] ->
  msg <> "" ->
  In stage ["discovery"; "write"] ->
  failure_shape (fst (_failure_artifact w code msg root scope focus timeout stage st)).
Proof.
  intros Hc Hm Hs. rewrite _failure_artifact_eq. simpl.
  repeat split. eexists. split; [reflexivity|]. simpl.
  repeat split; auto.
  destruct Hc as [<-|[<-|[<-|[]]]]; reflexivity.
Qed.

Ltac run_step :=
  match goal with
  | |- context [_failure_artifact ?w ?c ?m ?r ?s ?f ?t ?g ?st] =>
      rewrite (_failure_artifact_eq w c m r s f t g st)
  | |- context [let (_, _) := ?m in _] => destruct m eqn:?
  | |- context [match ?m with Discovered _ => _ | _ => _ end] => destruct m eqn:?
  | |- context [match ?m with Some _ => _ | None => _ end] => destruct m eqn:?
  | |- context [if ?b then _ else _] => destruct b eqn:?
  end.

(** C1: whatever made the run fail, the artifact of a run with
    [ok=false] has all-zero stats, an empty ranking, an empty text and an
    error object with a known code, a message, [retryable] set and the
    stage that failed. *)
Theorem failed_run_artifact_shape
        (w : World) nx edges root cfg scope focus out mf mtb sid timeout st :
  let a := artifact (fst (run_repomap w nx edges root cfg scope focus out mf mtb sid
                                      timeout st)) in
  ok a = false -> failure_shape a.
Proof.
  assert (Hne : forall p s : string, p <> "" -> (p ++ s)%string <> "").
  { intros [|c p] s Hp; [congruence|simpl; discriminate]. }
  unfold run_repomap, rbind, rret. cbv zeta.
  repeat (run_step; simpl); intros Hok; try discriminate Hok.
  all: try (apply failure_shape_intro; simpl; auto 6; try discriminate;
            try (apply Hne; discriminate)).
Qed.

(** ** Sample environments *)

Definition no_analysis (rel : string) : RepoMapFileAnalysis :=
  mkFileAnalysis rel 0 0 [] 0 [].

(** A project root that does not exist. *)
Definition missing_root_world : World :=
  mkWorld (fun _ => 0%Z) false (fun _ => false) (fun _ => Missing) (fun _ => None)
          no_analysis "2026-01-01T00:00:00Z" [].

(** An existing root that holds [src/app.py]. *)
Definition small_world : World :=
  mkWorld (fun n => Z.of_nat n) true (fun p => String.eqb p "/repo/src")
          (fun entry => if String.eqb entry "src"
                        then IsDir "src" [FsFile "app.py" true]
                        else Missing)
          (fun _ => None) no_analysis "2026-01-01T00:00:00Z" [].

Definition no_networkx (paths : list string) (edges : list Edge) : option (dict Q) := None.
Definition no_edges (analyses : list RepoMapFileAnalysis) : list Edge := [].
Definition fresh : RunState := mkRunState 0 [].

Lemma failed_run_artifact_shape_witness :
  failure_shape
    (artifact (fst (run_repomap missing_root_world no_networkx no_edges "/repo"
                                None None None None None None None None fresh))).
Proof.
  apply (failed_run_artifact_shape missing_root_world no_networkx no_edges "/repo"
                                   None None None None None None None None fresh).
  reflexivity.
Defined.

(** ** The timeout budget *)






(** ** Strings: lengths and prefixes *)

Lemma length_append (a b : string) :
  String.length (a ++ b) = (String.length a + String.length b)%nat.
Proof. induction a as [|c a IH]; simpl; [reflexivity|now rewrite IH]. Qed.


Lemma byte_len_nonneg (a : string) : (0 <= byte_len a)%Z.
Proof. unfold byte_len. lia. Qed.


Lemma append_assoc (a b c : string) : (a ++ b) ++ c = a ++ (b ++ c).
Proof. induction a as [|x a IH]; simpl; [reflexivity|now rewrite IH]. Qed.

Lemma append_empty_r (a : string) : a ++ "" = a.
Proof. induction a as [|x a IH]; simpl; [reflexivity|now rewrite IH]. Qed.



Lemma prefix_refl (s : string) : String.prefix s s = true.
Proof. induction s as [|c s IH]; simpl; [reflexivity|]. now destruct (ascii_dec c c). Qed.

Lemma prefix_take (k : nat) (s : string) : String.prefix (take k s) s = true.
Proof.
  unfold take. revert k. induction s as [|c s IH]; intros [|k]; simpl; try reflexivity.
  destruct (ascii_dec c c); [apply IH|congruence].
Qed.

Lemma prefix_trans (a b c : string) :
  String.prefix a b = true -> String.prefix b c = true -> String.prefix a c = true.
Proof.
  revert b c. induction a as [|x a IH]; intros b c Hab Hbc; [now destruct c|].
  destruct b as [|y b]; [discriminate|]. destruct c as [|z c]; [discriminate|].
  simpl in *. destruct (ascii_dec x y); [subst|discriminate].
  destruct (ascii_dec y z); [subst|discriminate]. eauto.
Qed.


(** ** [_truncate_utf8] cuts at a boundary *)

(** The loop returns a prefix of its argument that decodes. *)
Lemma truncate_loop_spec (clipped : string) :
  String.prefix (truncate_loop clipped) clipped = true
  /\ utf8_decode_error (truncate_loop clipped) = None.
Proof.
  funelim (truncate_loop clipped).
  - split; [now destruct clipped|reflexivity].
  - destruct H as [Hp Hd]. split; [|assumption].
    eapply prefix_trans; [exact Hp|apply prefix_take].
  - split; [apply prefix_refl|assumption].
Qed.



(** When the text does not fit, what comes back decodes: the cut never
    falls inside a multi-byte sequence. *)
Lemma _truncate_utf8_boundary (text : string) (max_bytes : Z) :
  (max_bytes < byte_len text)%Z ->
  utf8_decode_error (_truncate_utf8 text max_bytes) = None.
Proof.
  intros Hlong. unfold _truncate_utf8.
  destruct (max_bytes <=? 0)%Z; [reflexivity|].
  fold (byte_len text).
  destruct (Z.leb_spec (byte_len text) max_bytes); [lia|].
  apply truncate_loop_spec.
Qed.

(** ** The byte budget of [_render_text] *)

Definition chunk_bytes (e : RepoMapRankingEntry) : Z := byte_len (_render_entry_chunk e).


Definition bytes_of (l : list RepoMapRankingEntry) : Z :=
  fold_right Z.add 0%Z (map chunk_bytes l).



Lemma bytes_of_nonneg (l : list RepoMapRankingEntry) : (0 <= bytes_of l)%Z.
Proof.
  unfold bytes_of. induction l as [|e l IH]; cbn [map fold_right]; [lia|].
  pose proof (byte_len_nonneg (_render_entry_chunk e)) as He.
  change (byte_len (_render_entry_chunk e)) with (chunk_bytes e) in He. lia.
Qed.








(** An existing root whose one file, [src/app.py], has four long symbols. *)
Definition long_symbols_world : World :=
  mkWorld (fun n => Z.of_nat n) true (fun p => String.eqb p "/repo/src")
          (fun entry => if String.eqb entry "src"
                        then IsDir "src" [FsFile "app.py" true]
                        else Missing)
          (fun _ => None)
          (fun rel => mkFileAnalysis rel 900 40
                        ["class ApplicationControllerForTheWholeService";
                         "def build_application_controller_from_config";
                         "def register_every_route_of_the_application";
                         "def shutdown_application_controller_cleanly"]
                        4 [])
          "2026-01-01T00:00:00Z" [].

(** The budget has a floor of 256: [run_repomap] (and [_render_text]
    again) raises a smaller requested size to it, so a run asked for 100
    bytes can return a text of 214 bytes. *)
Lemma requested_size_below_floor_is_exceeded :
  let r := fst (run_repomap long_symbols_world no_networkx no_edges "/repo"
                            None None None None None (Some 100%Z) None None fresh) in
  ok (artifact r) = true
  /\ byte_len (text (artifact r)) = 214%Z
  /\ (byte_len (text (artifact r)) > 100)%Z.
Proof. vm_compute. repeat split. Qed.


(** ** Dicts *)

Definition keys {V : Type} (d : dict V) : list string := map fst d.

(** A dict over [nodes]: distinct keys, all of them in [nodes]. *)
Definition dict_over {V : Type} (nodes : list string) (d : dict V) : Prop :=
  NoDup (keys d) /\ incl (keys d) nodes.

Lemma keys_dict_set {V : Type} (d : dict V) (k : string) (v : V) :
  keys (dict_set d k v) = if mem k (keys d) then keys d else (keys d ++ [k])%list.
Proof.
  unfold keys, mem. induction d as [|[k' w] d IH]; cbn [dict_set map fst existsb app].
  - reflexivity.
  - rewrite (String.eqb_sym k k'). destruct (String.eqb k' k) eqn:E; cbn [map fst orb].
    + reflexivity.
    + rewrite IH. now destruct (existsb (String.eqb k) (map fst d)).
Qed.

Lemma dict_over_set {V : Type} (nodes : list string) (d : dict V) (k : string) (v : V) :
  dict_over nodes d -> In k nodes -> dict_over nodes (dict_set d k v).
Proof.
  intros [Hnd Hincl] Hk. unfold dict_over. rewrite keys_dict_set.
  destruct (mem k (keys d)) eqn:E; [split; assumption|].
  split.
  - apply NoDup_app; [exact Hnd|repeat constructor; auto|].
    intros x Hx [<-|[]]. apply mem_In in Hx. congruence.
  - intros x Hx. apply in_app_or in Hx. destruct Hx as [Hx|[<-|[]]]; auto.
Qed.

Lemma dict_lookup_set {V : Type} (d : dict V) (k k' : string) (v : V) :
  dict_lookup (dict_set d k v) k' = if String.eqb k k' then Some v else dict_lookup d k'.
Proof.
  induction d as [|[k0 w] d IH]; cbn [dict_set dict_lookup].
  - reflexivity.
  - destruct (String.eqb k0 k) eqn:E0; cbn [dict_lookup].
    + apply String.eqb_eq in E0. subst k0. now destruct (String.eqb k k').
    + rewrite IH. destruct (String.eqb k0 k') eqn:E1; [|reflexivity].
      apply String.eqb_eq in E1. subst k0. now rewrite String.eqb_sym, E0.
Qed.

Lemma dict_comp_spec {V : Type} (f : string -> V) (ks : list string) :
  dict_over ks (dict_comp f ks)
  /\ forall k, In k ks -> dict_lookup (dict_comp f ks) k = Some (f k).
Proof.
  unfold dict_comp.
  assert (H : forall ks' d,
             dict_over ks d -> incl ks' ks ->
             (forall k, In k (keys d) -> dict_lookup d k = Some (f k)) ->
             let d' := fold_left (fun d k => dict_set d k (f k)) ks' d in
             dict_over ks d'
             /\ (forall k, In k (keys d') -> dict_lookup d' k = Some (f k))
             /\ incl (keys d) (keys d') /\ incl ks' (keys d')).
  { induction ks' as [|k0 ks' IH]; intros d Hd Hincl Hval; cbn [fold_left].
    - split; [exact Hd|]. split; [exact Hval|].
      split; [apply incl_refl|intros x []].
    - destruct (IH (dict_set d k0 (f k0))) as (H1 & H2 & H3 & H4).
      + apply dict_over_set; [exact Hd|apply Hincl; now left].
      + intros x Hx. apply Hincl. now right.
      + intros k Hk. rewrite dict_lookup_set.
        destruct (String.eqb k0 k) eqn:E.
        * apply String.eqb_eq in E. now subst.
        * apply Hval. rewrite keys_dict_set in Hk.
          destruct (mem k0 (keys d)); [exact Hk|].
          apply in_app_or in Hk. destruct Hk as [Hk|[<-|[]]]; [exact Hk|].
          now rewrite String.eqb_refl in E.
      + assert (Hsub : incl (keys d) (keys (dict_set d k0 (f k0)))
                       /\ In k0 (keys (dict_set d k0 (f k0)))).
        { rewrite keys_dict_set. destruct (mem k0 (keys d)) eqn:E.
          - split; [apply incl_refl|now apply mem_In].
          - split; [apply incl_appl, incl_refl|apply in_or_app; right; now left]. }
        cbv zeta. split; [exact H1|]. split; [exact H2|]. split.
        * eapply incl_tran; [apply Hsub|exact H3].
        * intros x [<-|Hx]; [apply H3, Hsub|now apply H4]. }
  destruct (H ks [] ltac:(split; [constructor|intros x []]) (incl_refl ks)
              ltac:(intros x [])) as (H1 & H2 & _ & H4).
  split; [exact H1|]. intros k Hk. apply H2, H4, Hk.
Qed.


(** ** PageRank scores are rescaled by their maximum *)










(** ** The focus bonus in [_rank_files] *)

Open Scope Q_scope.

Definition boost_step (stem : string) (sc : Q) (nb : string * Q) : Q :=
  let '(name, boost) := nb in
  if (String.eqb stem name || startswith stem (name ++ "_")
      || endswith stem ("_" ++ name))%bool
  then sc + boost else sc.

Definition segment_step (sc : Q) (part : string) : Q :=
  sc + dict_get _RANK_PATH_BOOSTS (lower part) 0
  - dict_get _RANK_PATH_PENALTIES (lower part) 0.

(** A loop whose every step adds to the running score, whatever the
    score is, respects equality of rationals and carries a constant
    through. *)
Lemma additive_fold_compat {A : Type} (step : Q -> A -> Q) (delta : A -> Q) (l : list A) :
  (forall sc a, step sc a == sc + delta a) ->
  forall u v, u == v -> fold_left step l u == fold_left step l v.
Proof.
  intros Hstep. induction l as [|b l IHl]; intros u v Huv; cbn [fold_left].
  - exact Huv.
  - apply IHl. rewrite !Hstep. now rewrite Huv.
Qed.

Lemma additive_fold {A : Type} (step : Q -> A -> Q) (delta : A -> Q) (l : list A) :
  (forall sc a, step sc a == sc + delta a) ->
  forall x c, fold_left step l (x + c) == fold_left step l x + c.
Proof.
  intros Hstep. induction l as [|a l IH]; intros x c; cbn [fold_left].
  - reflexivity.
  - rewrite <- IH. apply (additive_fold_compat step delta l Hstep).
    rewrite !Hstep. ring.
Qed.

Lemma boost_step_additive (stem : string) (sc : Q) (nb : string * Q) :
  boost_step stem sc nb == sc + boost_step stem 0 nb.
Proof. destruct nb as [name boost]. unfold boost_step. destruct (_ || _)%bool; ring. Qed.

Lemma segment_step_additive (sc : Q) (part : string) :
  segment_step sc part == sc + segment_step 0 part.
Proof. unfold segment_step. ring. Qed.

#[local] Instance name_boosts_proper (stem : string) :
  Proper (Qeq ==> Qeq) (name_boosts stem).
Proof.
  intros u v Huv.
  exact (additive_fold_compat (boost_step stem) _ _ (boost_step_additive stem) u v Huv).
Qed.

#[local] Instance segment_boosts_proper (parts : list string) :
  Proper (Qeq ==> Qeq) (segment_boosts parts).
Proof.
  intros u v Huv.
  exact (additive_fold_compat segment_step _ _ segment_step_additive u v Huv).
Qed.

Lemma name_boosts_shift (stem : string) (x c : Q) :
  name_boosts stem (x + c) == name_boosts stem x + c.
Proof. exact (additive_fold (boost_step stem) _ _ (boost_step_additive stem) x c). Qed.

Lemma segment_boosts_shift (parts : list string) (x c : Q) :
  segment_boosts parts (x + c) == segment_boosts parts x + c.
Proof. exact (additive_fold segment_step _ _ segment_step_additive x c). Qed.

(** The path [_rank_files] scores an analysis under. *)
Definition ranked_path (a : RepoMapFileAnalysis) : string :=
  replace_char backslash "/" (a_path a).

(** What a file accumulates from every signal but the focus list. *)
Definition other_signals (graph_scores : dict Q) (a : RepoMapFileAnalysis) : Q :=
  raw_score [] [] graph_scores a.

Lemma raw_score_focus (focus focus_basenames : list string) (g : dict Q)
      (a : RepoMapFileAnalysis) :
  raw_score focus focus_basenames g a
  == other_signals g a + focus_bonus focus focus_basenames (ranked_path a).
Proof.
  unfold other_signals, raw_score, ranked_path. cbv zeta.
  set (p := replace_char backslash "/" (a_path a)).
  set (fb := focus_bonus focus focus_basenames p).
  change (focus_bonus [] [] p) with 0.
  set (depth_term := Qmax 0 (0.8 - inject_Z (Z.min (Z.of_nat (count_char "/" p)) 10) * 0.08)).
  set (symbol_term := Qmin 1.5 (inject_Z (symbol_count a) * 0.2)).
  set (line_term := Qmin 0.8 (inject_Z (line_count a) / 400)).
  set (suffix_term := dict_get _RANK_SUFFIX_BOOSTS (lower (path_suffix p)) 0).
  set (start := if mem (lower (path_suffix p)) _CODE_LIKE_SUFFIXES then 1 + 1.6 else 1).
  set (stem := lower (path_stem p)).
  set (x := start + suffix_term + 0 + depth_term + symbol_term + line_term).
  assert (Hshift :
            segment_boosts (path_parts p)
              (name_boosts stem (start + suffix_term + fb + depth_term + symbol_term
                                 + line_term))
            == segment_boosts (path_parts p) (name_boosts stem x) + fb).
  { rewrite <- segment_boosts_shift, <- name_boosts_shift.
    apply segment_boosts_proper, name_boosts_proper. unfold x. ring. }
  destruct (contains stem "generated" || contains stem "snapshot")%bool;
    rewrite Hshift; ring.
Qed.

(** The signals of the ranking heuristic other than the focus list. *)
Definition same_signals (g : dict Q) (a b : RepoMapFileAnalysis) : Prop :=
  let pa := ranked_path a in
  let pb := ranked_path b in
  lower (path_suffix pa) = lower (path_suffix pb)
  /\ count_char "/" pa = count_char "/" pb
  /\ symbol_count a = symbol_count b
  /\ line_count a = line_count b
  /\ lower (path_stem pa) = lower (path_stem pb)
  /\ map lower (removelast (path_parts pa)) = map lower (removelast (path_parts pb))
  /\ lower (path_name pa) = lower (path_name pb)
  /\ dict_get g pa 0 = dict_get g pb 0.

Lemma segment_boosts_lower (parts : list string) (x : Q) :
  segment_boosts parts x
  = fold_left (fun sc lowered =>
                 sc + dict_get _RANK_PATH_BOOSTS lowered 0
                 - dict_get _RANK_PATH_PENALTIES lowered 0)
              (map lower (removelast parts)) x.
Proof.
  unfold segment_boosts. revert x.
  induction (removelast parts) as [|part l IH]; intros x; cbn [fold_left map];
    [reflexivity|apply IH].
Qed.

(** Files with the same signals accumulate the same score from them. *)
Lemma same_signals_other_signals (g : dict Q) (a b : RepoMapFileAnalysis) :
  same_signals g a b -> other_signals g a = other_signals g b.
Proof.
  unfold same_signals, other_signals, raw_score. cbv zeta. fold (ranked_path a) (ranked_path b).
  intros (Hsuffix & Hdepth & Hsym & Hline & Hstem & Hparts & Hname & Hgraph).
  rewrite !segment_boosts_lower.
  rewrite Hsuffix, Hdepth, Hsym, Hline, Hstem, Hparts, Hname, Hgraph. reflexivity.
Qed.

(** ** The order of [_rank_files] *)

Definition score_desc (x y : RepoMapRankingEntry) : Prop := score y <= score x.

Lemma key_le_true (x y : RepoMapRankingEntry) : key_le x y = true -> score_desc x y.
Proof.
  unfold key_le, score_desc. intros H. apply orb_true_iff in H. destruct H as [H|H].
  - apply negb_true_iff in H. apply Qlt_le_weak, Qnot_le_lt. intros Hle.
    apply Qle_bool_iff in Hle. congruence.
  - apply andb_true_iff in H. destruct H as [H _]. apply Qeq_bool_iff in H.
    rewrite H. apply Qle_refl.
Qed.

Lemma key_le_false (x y : RepoMapRankingEntry) : key_le x y = false -> score_desc y x.
Proof.
  unfold key_le, score_desc. intros H. apply orb_false_iff in H. destruct H as [H _].
  apply negb_false_iff in H. now apply Qle_bool_iff.
Qed.

Lemma insert_ranked_In (x : RepoMapRankingEntry) (l : list RepoMapRankingEntry) :
  forall y, In y (insert_ranked x l) <-> y = x \/ In y l.
Proof.
  induction l as [|z l IH]; intros y; cbn [insert_ranked].
  - cbn. intuition congruence.
  - destruct (key_le x z); cbn [In]; [intuition congruence|].
    rewrite IH. intuition congruence.
Qed.

Lemma insert_ranked_sorted (x : RepoMapRankingEntry) (l : list RepoMapRankingEntry) :
  StronglySorted score_desc l -> StronglySorted score_desc (insert_ranked x l).
Proof.
  induction 1 as [|z l Hsorted IH Hall]; cbn [insert_ranked].
  - repeat constructor.
  - destruct (key_le x z) eqn:E.
    + apply key_le_true in E. constructor; [now constructor|].
      constructor; [exact E|]. eapply Forall_impl; [|exact Hall].
      intros y Hy. unfold score_desc in *. eapply Qle_trans; eassumption.
    + apply key_le_false in E. constructor; [exact IH|].
      apply Forall_forall. intros y Hy. apply insert_ranked_In in Hy.
      destruct Hy as [->|Hy]; [exact E|].
      rewrite Forall_forall in Hall. now apply Hall.
Qed.

Lemma sort_ranked_sorted (l : list RepoMapRankingEntry) :
  StronglySorted score_desc (sort_ranked l).
Proof.
  induction l as [|x l IH]; cbn [sort_ranked fold_right]; [constructor|].
  now apply insert_ranked_sorted.
Qed.

Lemma sorted_nth_error {A : Type} (R : A -> A -> Prop) (l : list A) :
  StronglySorted R l ->
  forall i j x y, (i < j)%nat -> nth_error l i = Some x -> nth_error l j = Some y -> R x y.
Proof.
  induction 1 as [|z l Hs IH Hall]; intros i j x y Hij Hi Hj.
  - destruct i; discriminate.
  - destruct j as [|j]; [lia|]. cbn [nth_error] in Hj.
    destruct i as [|i]; cbn [nth_error] in Hi.
    + injection Hi as <-. rewrite Forall_forall in Hall.
      apply Hall. eapply nth_error_In; eassumption.
    + apply (IH i j); auto. lia.
Qed.

Lemma _rank_files_sorted analyses focus_files max_files g :
  StronglySorted score_desc (_rank_files analyses focus_files max_files g).
Proof. unfold _rank_files. cbv zeta. apply firstn_sorted, sort_ranked_sorted. Qed.

(** ** A focus file against an otherwise identical file *)

(** [_rank_files] on the focus list: the set of focus paths and of their
    basenames. *)
Definition focus_set (focus_files : list string) : list string :=
  to_set (map (replace_char backslash "/") focus_files).

Definition focus_basenames_set (focus_files : list string) : list string :=
  to_set (map path_name (focus_set focus_files)).

Lemma focus_bonus_cases focus focus_basenames p :
  (mem p focus = true /\ focus_bonus focus focus_basenames p = 25)
  \/ (mem p focus = false /\ (focus_bonus focus focus_basenames p = 4
                              \/ focus_bonus focus focus_basenames p = 0)).
Proof.
  unfold focus_bonus. destruct (mem p focus); [left; auto|right].
  split; [reflexivity|]. destruct (mem (path_name p) focus_basenames); auto.
Qed.

(** A path nested under forty [tests] directories. *)
Definition forty_tests (name : string) : string :=
  String.concat "" (repeat "tests/" 40) ++ name.

Definition plain_analysis (p : string) : RepoMapFileAnalysis :=
  mkFileAnalysis p 100 10 [] 0 [].

(** The same nesting spelt with a doubled separator, first or second. *)
Definition doubled_first : string :=
  "tests//" ++ String.concat "" (repeat "tests/" 39) ++ "x.py".

Definition doubled_second : string :=
  "tests/tests//" ++ String.concat "" (repeat "tests/" 38) ++ "x.py".

(** C5 fails as stated once the path penalties outweigh every bonus:
    both files are floored at 0 and the tie goes to the smaller path.
    Under forty [tests] directories the focus file [b.py] comes after
    [a.py]; and with every signal literally identical (same suffix, depth,
    counts, stem and segments), the focus path [doubled_second] comes
    after [doubled_first]. *)
Lemma floored_focus_file_is_not_ahead :
  let a := plain_analysis (forty_tests "b.py") in
  let b := plain_analysis (forty_tests "a.py") in
  let c := plain_analysis doubled_second in
  let d := plain_analysis doubled_first in
  (mem (ranked_path a) (focus_set [forty_tests "b.py"]) = true
   /\ mem (ranked_path b) (focus_set [forty_tests "b.py"]) = false
   /\ other_signals [] a == other_signals [] b
   /\ map (fun e => (path e, Qred (score e)))
          (_rank_files [a; b] [forty_tests "b.py"] 10 [])
      = [(forty_tests "a.py", 0); (forty_tests "b.py", 0)])
  /\ (mem (ranked_path c) (focus_set [doubled_second]) = true
      /\ mem (ranked_path d) (focus_set [doubled_second]) = false
      /\ same_signals [] c d
      /\ map (fun e => (path e, Qred (score e)))
             (_rank_files [c; d] [doubled_second] 10 [])
         = [(doubled_first, 0); (doubled_second, 0)]).
Proof. vm_compute. repeat split. Qed.

(** C5, amended: of two files that accumulate the same score from every
    signal but the focus list, the one whose path is a focus file never
    scores lower; as long as its own score is positive (the floor at 0 has
    not been reached) it scores strictly higher and is ranked before the
    other wherever both appear in the ranking. *)
Theorem focus_file_outranks_identical
        (analyses : list RepoMapFileAnalysis) (focus_files : list string)
        (max_files : Z) (g : dict Q) (a b : RepoMapFileAnalysis) :
  let focus := focus_set focus_files in
  let focus_basenames := focus_basenames_set focus_files in
  let ea := rank_entry focus focus_basenames g a in
  let eb := rank_entry focus focus_basenames g b in
  let ranked := _rank_files analyses focus_files max_files g in
  mem (ranked_path a) focus = true ->
  mem (ranked_path b) focus = false ->
  other_signals g a == other_signals g b ->
  score eb <= score ea
  /\ (0 < score ea ->
      score eb < score ea
      /\ forall i j, nth_error ranked i = Some ea -> nth_error ranked j = Some eb ->
                     (i < j)%nat).
Proof.
  intros focus focus_basenames ea eb ranked Ha Hb Hsame.
  pose proof (raw_score_focus focus focus_basenames g a) as Hra.
  pose proof (raw_score_focus focus focus_basenames g b) as Hrb.
  assert (Hfa : focus_bonus focus focus_basenames (ranked_path a) = 25).
  { destruct (focus_bonus_cases focus focus_basenames (ranked_path a)) as [[_ H]|[H _]];
      [exact H|congruence]. }
  assert (Hlt : raw_score focus focus_basenames g b < raw_score focus focus_basenames g a).
  { rewrite Hra, Hrb, Hfa, Hsame.
    destruct (focus_bonus_cases focus focus_basenames (ranked_path b))
      as [[H _]|[_ [H|H]]]; [congruence| |]; rewrite H.
    - apply Qplus_lt_r. reflexivity.
    - apply Qplus_lt_r. reflexivity. }
  change (score ea) with (Qmax 0 (raw_score focus focus_basenames g a)).
  change (score eb) with (Qmax 0 (raw_score focus focus_basenames g b)).
  split.
  - apply Q.max_le_compat_l. now apply Qlt_le_weak.
  - intros Hpos.
    assert (Hstrict : Qmax 0 (raw_score focus focus_basenames g b)
                      < Qmax 0 (raw_score focus focus_basenames g a)).
    { apply Q.max_lt_iff in Hpos. destruct Hpos as [Hpos|Hpos];
        [now apply Qlt_irrefl in Hpos|].
      apply Q.max_lub_lt_iff. split.
      - eapply Qlt_le_trans; [exact Hpos|apply Q.le_max_r].
      - eapply Qlt_le_trans; [exact Hlt|apply Q.le_max_r]. }
    split; [exact Hstrict|].
    intros i j Hi Hj.
    pose proof (_rank_files_sorted analyses focus_files max_files g) as Hsorted.
    fold ranked in Hsorted.
    destruct (Nat.lt_trichotomy i j) as [Hij|[Hij|Hij]]; [exact Hij| |].
    + subst j. assert (Heq : ea = eb) by congruence.
      change (score eb < score ea) in Hstrict. rewrite Heq in Hstrict.
      now apply Qlt_irrefl in Hstrict.
    + exfalso.
      pose proof (sorted_nth_error _ _ Hsorted j i eb ea Hij Hj Hi) as Hdesc.
      unfold score_desc in Hdesc. apply (Qlt_irrefl (score ea)).
      eapply Qle_lt_trans; [exact Hdesc|exact Hstrict].
Qed.

Lemma focus_file_outranks_identical_witness :
  let a := plain_analysis "src/b.py" in
  let b := plain_analysis "src/a.py" in
  let ea := rank_entry (focus_set ["src/b.py"]) (focus_basenames_set ["src/b.py"]) [] a in
  let eb := rank_entry (focus_set ["src/b.py"]) (focus_basenames_set ["src/b.py"]) [] b in
  let ranked := _rank_files [b; a] ["src/b.py"] 10 [] in
  score eb <= score ea
  /\ (0 < score ea ->
      score eb < score ea
      /\ forall i j, nth_error ranked i = Some ea -> nth_error ranked j = Some eb ->
                     (i < j)%nat).
Proof.
  apply (focus_file_outranks_identical
           [plain_analysis "src/a.py"; plain_analysis "src/b.py"] ["src/b.py"] 10 []
           (plain_analysis "src/b.py") (plain_analysis "src/a.py")).
  - reflexivity.
  - reflexivity.
  - vm_compute. reflexivity.
Defined.

End RepomapSpec.


(* ================================================================== *)
(** * Properties of the graveyard *)
(* ================================================================== *)

Module GraveyardSpec.
Import PyStr Tokenizer Store Graveyard ListFacts.
Open Scope R_scope.

(** ** The disabled graveyard *)

Definition disabled_config : GraveyardConfig := mkConfig false 5 0.35 1.

Definition one_row_db : Db :=
  mkDb [mkEntry 1 (Some "sess-1") "Cache warming" "Timeout in redis startup"
                ["src/cache.py"] ["cache"; "redi"; "startup"; "timeout"; "warming"]
                "2026-01-01T00:00:00+00:00"]
       1 [].

(** C10: with [enabled] off, [record_failure] leaves the database as it
    was (no row added, no store call made) and [find_similar] returns the
    empty list without a store call. *)
Theorem disabled_graveyard_is_inert
        (fts : Fts5) (config : GraveyardConfig) (db : Db)
        (now : string) (sid : option string) (summary reason : string)
        (files : list string) (max_matches_arg : option Z) :
  enabled config = false ->
  record_failure config now sid summary reason files db = (tt, db)
  /\ find_similar fts config summary files max_matches_arg db = ([], db).
Proof.
  intros Hoff. unfold record_failure, find_similar.
  rewrite Hoff. split; reflexivity.
Qed.

Lemma disabled_graveyard_is_inert_witness :
  record_failure disabled_config "2026-01-02T00:00:00+00:00" None
                 "Cache warming" "Timeout again" ["src/cache.py"] one_row_db
  = (tt, one_row_db)
  /\ find_similar (mkFts5 true (fun _ _ _ => [])) disabled_config
                  "Cache warming" ["src/cache.py"] None one_row_db
     = ([], one_row_db).
Proof.
  apply (disabled_graveyard_is_inert (mkFts5 true (fun _ _ _ => [])) disabled_config
                                     one_row_db).
  reflexivity.
Defined.

(** ** Sets of strings *)

Lemma to_set_NoDup (l : list string) : NoDup (to_set l).
Proof. apply NoDup_nodup. Qed.

Lemma insert_sorted_perm (x : string) (l : list string) :
  Permutation (insert_sorted x l) (x :: l).
Proof.
  induction l as [|y l IH]; cbn [insert_sorted]; [reflexivity|].
  destruct (String.leb x y); [reflexivity|].
  rewrite IH. apply perm_swap.
Qed.

Lemma sorted_perm (l : list string) : Permutation (sorted l) l.
Proof.
  unfold sorted. induction l as [|x l IH]; cbn [fold_right]; [reflexivity|].
  rewrite insert_sorted_perm. now constructor.
Qed.

Lemma inter_length (a b : list string) : (List.length (inter a b) <= List.length a)%nat.
Proof. unfold inter. apply filter_length_le. Qed.

Lemma sorted_inter_length (a b : list string) :
  (List.length (sorted (inter a b)) <= List.length a)%nat.
Proof. rewrite (Permutation_length (sorted_perm _)). apply inter_length. Qed.

(** ** Bounds on the three components *)

Lemma sum_R_nonneg (l : list R) : Forall (fun x => 0 <= x) l -> 0 <= sum_R l.
Proof.
  unfold sum_R. induction 1 as [|x l Hx _ IH]; cbn [fold_right]; lra.
Qed.

Lemma sum_R_perm (l l' : list R) : Permutation l l' -> sum_R l = sum_R l'.
Proof.
  unfold sum_R. induction 1; cbn [fold_right]; lra.
Qed.


(** The IDF weight of a token over a window of entries. *)
Definition idf_weight (idf_source : list Entry) (token : string) : R :=
  ln ((INR (List.length idf_source) + 1) / (INR (doc_freq idf_source token) + 1)) + 1.

Lemma idf_weight_ge_1 (idf_source : list Entry) (token : string) :
  1 <= idf_weight idf_source token.
Proof.
  unfold idf_weight, doc_freq.
  set (n := List.length idf_source).
  set (df := List.length (filter _ idf_source)).
  assert (Hdf : (df <= n)%nat) by apply filter_length_le.
  apply le_INR in Hdf. pose proof (pos_INR df) as Hpos.
  assert (Hratio : 1 <= (INR n + 1) / (INR df + 1)).
  { apply Rmult_le_reg_r with (INR df + 1); [lra|].
    unfold Rdiv. rewrite Rmult_assoc, Rinv_l by lra. lra. }
  destruct Hratio as [Hlt|Heq].
  - pose proof (ln_increasing 1 _ Rlt_0_1 Hlt) as H. rewrite ln_1 in H. lra.
  - rewrite <- Heq, ln_1. lra.
Qed.

Lemma query_idf_lookup (idf_source : list Entry) (qk : list string) (token : string) :
  In token qk ->
  dict_get (query_idf idf_source qk) token 0 = idf_weight idf_source token.
Proof.
  unfold query_idf, dict_get. fold (idf_weight idf_source).
  induction qk as [|t qk IH]; intros Hin; [destruct Hin|].
  cbn [map dict_lookup]. destruct (String.eqb t token) eqn:E.
  - apply String.eqb_eq in E. now subst.
  - destruct Hin as [->|Hin]; [now rewrite String.eqb_refl in E|now apply IH].
Qed.

Lemma query_idf_values (idf_source : list Entry) (qk : list string) :
  map snd (query_idf idf_source qk) = map (idf_weight idf_source) qk.
Proof. unfold query_idf. rewrite map_map. reflexivity. Qed.

Lemma idf_sum_positive (idf_source : list Entry) (qk : list string) :
  qk <> [] -> 0 < sum_R (map (idf_weight idf_source) qk).
Proof.
  destruct qk as [|t qk]; [congruence|]. intros _.
  cbn [map]. unfold sum_R. cbn [fold_right]. fold (sum_R (map (idf_weight idf_source) qk)).
  pose proof (idf_weight_ge_1 idf_source t).
  assert (0 <= sum_R (map (idf_weight idf_source) qk)).
  { apply sum_R_nonneg, Forall_forall. intros x Hx. apply in_map_iff in Hx.
    destruct Hx as (t' & <- & _). pose proof (idf_weight_ge_1 idf_source t'). lra. }
  lra.
Qed.

(** [query_weight] is the sum of the weights, or 1 for a query without
    keywords. *)
Lemma query_weight_spec (idf_source : list Entry) (qk : list string) :
  query_weight (query_idf idf_source qk)
  = match qk with
    | [] => 1
    | _ => sum_R (map (idf_weight idf_source) qk)
    end.
Proof.
  unfold query_weight, Reqb. rewrite query_idf_values.
  destruct (Req_dec_T (sum_R (map (idf_weight idf_source) qk)) 0) as [Hz|Hnz].
  - destruct qk as [|t qk]; [reflexivity|].
    pose proof (idf_sum_positive idf_source (t :: qk) ltac:(discriminate)). lra.
  - destruct qk as [|t qk]; [|reflexivity]. exfalso. apply Hnz. reflexivity.
Qed.

(** The keyword overlap of a query with an entry, as the loop computes it. *)
Definition overlap_of (qk : list string) (entry : Entry) : list string :=
  sorted (inter qk (to_set (keywords entry))).

Lemma overlap_weights (idf_source : list Entry) (qk : list string) (entry : Entry) :
  map (fun token => dict_get (query_idf idf_source qk) token 0) (overlap_of qk entry)
  = map (idf_weight idf_source) (overlap_of qk entry).
Proof.
  apply map_ext_in. intros t Ht. apply query_idf_lookup.
  unfold overlap_of in Ht. apply (Permutation_in _ (sorted_perm _)) in Ht.
  unfold inter in Ht. now apply filter_In in Ht.
Qed.


Lemma _token_jaccard_bounds (left right : list string) :
  NoDup left -> 0 <= _token_jaccard left right <= 1.
Proof.
  intros Hnd. unfold _token_jaccard.
  destruct (is_empty left || is_empty right)%bool; [lra|].
  destruct (is_empty (PyStr.union left right)) eqn:Hu; [lra|].
  set (i := List.length (inter left right)).
  set (u := List.length (PyStr.union left right)).
  assert (Hiu : (i <= u)%nat).
  { apply NoDup_incl_length; [now apply NoDup_filter|].
    intros x Hx. unfold inter in Hx. apply filter_In in Hx.
    unfold PyStr.union, to_set. apply nodup_In, in_or_app. left. tauto. }
  assert (Hupos : (0 < u)%nat).
  { subst u. destruct (PyStr.union left right); [discriminate|simpl; lia]. }
  apply le_INR in Hiu. apply lt_INR in Hupos. change (INR 0) with 0 in Hupos.
  pose proof (pos_INR i). split.
  - apply Rmult_le_reg_r with (INR u); [lra|].
    unfold Rdiv. rewrite Rmult_assoc, Rinv_l by lra. lra.
  - apply Rmult_le_reg_r with (INR u); [lra|].
    unfold Rdiv. rewrite Rmult_assoc, Rinv_l by lra. lra.
Qed.

(** ** One candidate entry *)

(** The query as [find_similar] prepares it. *)
Record Query := mkQuery {
  q_keywords : list string;
  q_token_set : list string;
  q_files : list string
}.

Definition query_of (summary : string) (files : list string) : Query :=
  mkQuery (_keywords summary)
          (to_set (_tokenize summary))
          (to_set (map _norm_path (filter (fun p => negb (String.eqb p "")) files))).

Definition file_overlap_of (q : Query) (entry : Entry) : list string :=
  sorted (inter (q_files q) (to_set (map _norm_path (files entry)))).

Definition semantic_of (q : Query) (entry : Entry) : R :=
  _token_jaccard (q_token_set q)
                 (to_set (_tokenize (summary entry ++ " " ++ reason entry))).

(** The keyword component: the IDF weight of the overlap over the IDF
    weight of the whole query. *)
Definition keyword_share (idf_source : list Entry) (q : Query) (overlap : list string) : R :=
  sum_R (map (idf_weight idf_source) overlap)
  / sum_R (map (idf_weight idf_source) (q_keywords q)).

(** The file component: the share of the query files that overlap, 0
    without query files. *)
Definition file_share (q : Query) (overlap : list string) : R :=
  match q_files q with
  | [] => 0
  | _ => INR (List.length overlap) / INR (List.length (q_files q))
  end.

Definition combined_score (idf_source : list Entry) (q : Query) (m : GraveyardMatch) : R :=
  0.45 * keyword_share idf_source q (keyword_overlap m)
  + 0.25 * file_share q (file_overlap m)
  + 0.30 * semantic_score m.

(** The gate of the loop. *)
Definition gate_open (config : GraveyardConfig) (m : GraveyardMatch) : Prop :=
  (min_keyword_overlap config <= Z.of_nat (List.length (keyword_overlap m)))%Z
  \/ file_overlap m <> []
  \/ similarity_threshold config <= semantic_score m.

(** What a match says about the entry it was built from. *)
Definition built_from (q : Query) (entry : Entry) (m : GraveyardMatch) : Prop :=
  entry_id m = id entry
  /\ m_summary m = summary entry /\ m_reason m = reason entry
  /\ m_files m = files entry /\ m_created_at m = created_at entry
  /\ keyword_overlap m = overlap_of (q_keywords q) entry
  /\ file_overlap m = file_overlap_of q entry
  /\ semantic_score m = semantic_of q entry.

Lemma keyword_score_eq (idf_source : list Entry) (q : Query) (entry : Entry) :
  sum_R (map (fun token => dict_get (query_idf idf_source (q_keywords q)) token 0)
             (overlap_of (q_keywords q) entry))
  / query_weight (query_idf idf_source (q_keywords q))
  = keyword_share idf_source q (overlap_of (q_keywords q) entry).
Proof.
  unfold keyword_share. rewrite overlap_weights, query_weight_spec.
  destruct (q_keywords q) as [|t qk] eqn:E; [|reflexivity].
  change (overlap_of [] entry) with (@nil string). cbn [map]. unfold sum_R. cbn [fold_right].
  unfold Rdiv. now rewrite !Rmult_0_l.
Qed.

Lemma file_score_eq (q : Query) (overlap : list string) :
  (if is_empty (q_files q) then 0
   else INR (List.length overlap) / INR (Nat.max 1 (List.length (q_files q))))
  = file_share q overlap.
Proof.
  unfold file_share. destruct (q_files q) as [|f qf]; [reflexivity|].
  cbn [is_empty List.length]. now rewrite Nat.max_r by lia.
Qed.

(** [score_entry] appends exactly the entries that pass the gate and the
    threshold, with the combined score. *)
Lemma score_entry_spec (config : GraveyardConfig) (idf_source : list Entry) (q : Query)
      (entry : Entry) (m : GraveyardMatch) :
  score_entry config (q_keywords q) (q_token_set q) (q_files q)
              (query_idf idf_source (q_keywords q)) entry = Some m
  <-> built_from q entry m
      /\ score m = combined_score idf_source q m
      /\ gate_open config m
      /\ similarity_threshold config <= score m.
Proof.
  unfold score_entry. cbv zeta.
  fold (overlap_of (q_keywords q) entry) (file_overlap_of q entry) (semantic_of q entry).
  rewrite keyword_score_eq, file_score_eq.
  set (ko := overlap_of (q_keywords q) entry).
  set (fo := file_overlap_of q entry).
  set (sem := semantic_of q entry).
  set (sc := keyword_share idf_source q ko * 0.45 + file_share q fo * 0.25 + sem * 0.30).
  set (built := mkMatch (id entry) sc (summary entry) (reason entry) (files entry)
                        ko fo sem (created_at entry)).
  assert (Hbuilt : built_from q entry built) by (repeat split).
  assert (Hscore : score built = combined_score idf_source q built).
  { unfold combined_score. cbn. unfold sc. ring. }
  assert (Huniq : forall m', built_from q entry m' ->
                             score m' = combined_score idf_source q m' -> m' = built).
  { intros [i s su re fi k f se cr] (H1 & H2 & H3 & H4 & H5 & H6 & H7 & H8) Hs.
    unfold combined_score in Hs. cbn in *. subst. unfold built, sc, ko, fo, sem.
    f_equal. ring. }
  assert (Hgate : ((Z.of_nat (List.length ko) <? min_keyword_overlap config)%Z
                   && is_empty fo && Rltb sem (similarity_threshold config) = false)%bool
                  <-> gate_open config built).
  { unfold gate_open, Rltb. cbn [keyword_overlap file_overlap semantic_score built].
    destruct (Z.ltb_spec (Z.of_nat (List.length ko)) (min_keyword_overlap config));
      destruct fo as [|f fo'];
      destruct (Rlt_dec sem (similarity_threshold config)); cbn;
      intuition (try congruence; try lia; try lra). }
  destruct ((Z.of_nat (List.length ko) <? min_keyword_overlap config)%Z
            && is_empty fo && Rltb sem (similarity_threshold config))%bool.
  - split; [discriminate|]. intros (Hb & Hs & Hg & _).
    rewrite (Huniq m Hb Hs) in Hg. apply Hgate in Hg. discriminate.
  - unfold Rltb. destruct (Rlt_dec sc (similarity_threshold config)) as [Hlow|Hok].
    + split; [discriminate|]. intros (Hb & Hs & _ & Hthr).
      rewrite (Huniq m Hb Hs) in Hthr. cbn in Hthr. lra.
    + split.
      * intros E. injection E as <-. repeat split; try exact Hscore.
        -- now apply Hgate.
        -- cbn. lra.
      * intros (Hb & Hs & _). now rewrite (Huniq m Hb Hs).
Qed.

(** ** The final order *)





Lemma insert_desc_perm (x : GraveyardMatch) (l : list GraveyardMatch) :
  Permutation (insert_desc x l) (x :: l).
Proof.
  induction l as [|y l IH]; cbn [insert_desc]; [reflexivity|].
  destruct (key_ge x y); [reflexivity|]. rewrite IH. apply perm_swap.
Qed.

Lemma sort_desc_perm (l : list GraveyardMatch) : Permutation (sort_desc l) l.
Proof.
  unfold sort_desc. induction l as [|x l IH]; cbn [fold_right]; [reflexivity|].
  rewrite insert_desc_perm. now constructor.
Qed.



Lemma slice_to_In {A : Type} (k : Z) (l : list A) (x : A) : In x (slice_to k l) -> In x l.
Proof. unfold slice_to. destruct (0 <=? k)%Z; apply In_firstn. Qed.



Lemma filter_map_In {A B : Type} (f : A -> option B) (l : list A) (b : B) :
  In b (filter_map f l) <-> exists a, In a l /\ f a = Some b.
Proof.
  unfold filter_map. rewrite in_flat_map. split.
  - intros (a & Ha & Hb). exists a. split; [exact Ha|].
    destruct (f a) as [b'|]; [|destruct Hb]. destruct Hb as [->|[]]. reflexivity.
  - intros (a & Ha & Hb). exists a. split; [exact Ha|]. rewrite Hb. now left.
Qed.

(** ** What [find_similar] evaluates *)

(** The recent window: [list_graveyard(limit=200)]. *)
Definition window (db : Db) : list Entry := firstn 200 (graveyard db).

(** What [list_graveyard_fts_candidates] computes from the rows it read. *)
Definition narrow_rows (fts : Fts5) (tokens : list string) (rows : list Entry)
  : option (list Entry) :=
  match filter _FTS_TOKEN_RE_match tokens, rows with
  | [], _ | _, [] => Some []
  | terms, _ =>
      if negb (fts_available fts) then None
      else
        Some (flat_map (fun eid => match find_by_id_str rows eid with
                                   | Some row => [row]
                                   | None => []
                                   end)
                       (fts_match fts (join " OR " (firstn 12 terms))
                                  (map (fun row =>
                                          (of_Z (id row),
                                           summary row ++ " " ++ reason row ++ " "
                                                   ++ keywords_json row))
                                       rows)
                                  (Z.max 1 80)))
  end.

Definition narrowed (fts : Fts5) (tokens : list string) (db : Db) : option (list Entry) :=
  narrow_rows fts tokens (window db).

(** The entries [_load_candidate_entries] hands to the scoring loop. *)
Definition candidates (fts : Fts5) (tokens : list string) (db : Db) : list Entry :=
  if is_empty tokens then window db
  else match narrowed fts tokens db with
       | None | Some [] => window db
       | Some cs => cs
       end.

(** The [max_matches or self.config.max_matches] of the final slice. *)
Definition effective_limit (config : GraveyardConfig) (max_matches_arg : option Z) : Z :=
  match max_matches_arg with
  | Some m => if (m =? 0)%Z then max_matches config else m
  | None => max_matches config
  end.

Definition logged (db : Db) (c : StoreCall) : Db :=
  mkDb (graveyard db) (last_id db) (Store.calls db ++ [c]).

Lemma list_graveyard_eq (db : Db) :
  list_graveyard 200 db = (window db, logged db (CallListGraveyard 200)).
Proof. reflexivity. Qed.

Lemma list_graveyard_fts_candidates_eq (fts : Fts5) (tokens : list string) (db : Db) :
  list_graveyard_fts_candidates fts tokens 200 80 db
  = (narrowed fts tokens db, logged db (CallFtsCandidates tokens)).
Proof.
  unfold list_graveyard_fts_candidates, narrowed, narrow_rows, log_call,
    _list_graveyard_rows, get_rows, logged, window.
  unfold Store.bind, Store.ret.
  generalize (@firstn Entry 200) as take200. intros take200.
  cbn [graveyard last_id Store.calls fst snd].
  destruct (filter _FTS_TOKEN_RE_match tokens) as [|t terms];
    destruct (take200 (graveyard db)) as [|row rows];
    try destruct (negb (fts_available fts)); reflexivity.
Qed.

Lemma _load_candidate_entries_eq (fts : Fts5) (tokens : list string) (db : Db) :
  fst (_load_candidate_entries fts tokens db) = candidates fts tokens db.
Proof.
  unfold _load_candidate_entries, candidates.
  destruct (is_empty tokens); [reflexivity|].
  unfold Store.bind. rewrite list_graveyard_fts_candidates_eq.
  destruct (narrowed fts tokens db) as [[|c cs]|]; reflexivity.
Qed.

Lemma candidates_logged (fts : Fts5) (tokens : list string) (db : Db) (c : StoreCall) :
  candidates fts tokens (logged db c) = candidates fts tokens db.
Proof. reflexivity. Qed.

Lemma candidates_of_empty_window (fts : Fts5) (tokens : list string) (db : Db) :
  window db = [] -> candidates fts tokens db = [].
Proof.
  intros Hw. unfold candidates, narrowed, narrow_rows. rewrite Hw.
  destruct (is_empty tokens); [reflexivity|].
  now destruct (filter _FTS_TOKEN_RE_match tokens).
Qed.

(** The list [find_similar] returns on an enabled graveyard and a
    non-empty query. *)
Definition ranked_matches (fts : Fts5) (config : GraveyardConfig) (summary : string)
           (files : list string) (max_matches_arg : option Z) (db : Db)
  : list GraveyardMatch :=
  let q := query_of summary files in
  slice_to (effective_limit config max_matches_arg)
           (sort_desc
              (filter_map (score_entry config (q_keywords q) (q_token_set q) (q_files q)
                                       (query_idf (window db) (q_keywords q)))
                          (candidates fts (_tokenize summary) db))).

Lemma find_similar_eq (fts : Fts5) (config : GraveyardConfig) (summary : string)
      (files : list string) (max_matches_arg : option Z) (db : Db) :
  fst (find_similar fts config summary files max_matches_arg db)
  = if negb (enabled config) then []
    else if (is_empty (_tokenize summary) && is_empty (q_files (query_of summary files)))%bool
         then []
         else ranked_matches fts config summary files max_matches_arg db.
Proof.
  unfold find_similar. cbv zeta.
  destruct (negb (enabled config)); [reflexivity|].
  cbn [q_files query_of].
  destruct (is_empty (_tokenize summary) && is_empty _)%bool; [reflexivity|].
  unfold Store.bind. rewrite list_graveyard_eq.
  pose proof (_load_candidate_entries_eq fts (_tokenize summary)
                                         (logged db (CallListGraveyard 200))) as Hc.
  destruct (_load_candidate_entries fts (_tokenize summary) _) as [entries db2].
  cbn [fst] in Hc. subst entries. rewrite candidates_logged.
  unfold Store.ret, ranked_matches, effective_limit. cbv zeta.
  cbn [fst q_keywords q_token_set q_files query_of].
  destruct (window db) as [|e0 es] eqn:Hw; cbn [is_empty]; [|reflexivity].
  rewrite (candidates_of_empty_window fts _ db Hw). reflexivity.
Qed.

(** ** The returned matches *)

Lemma ranked_matches_In (fts : Fts5) (config : GraveyardConfig) (summary : string)
      (files : list string) (max_matches_arg : option Z) (db : Db) (m : GraveyardMatch) :
  In m (ranked_matches fts config summary files max_matches_arg db) ->
  exists entry,
    In entry (candidates fts (_tokenize summary) db)
    /\ built_from (query_of summary files) entry m
    /\ score m = combined_score (window db) (query_of summary files) m
    /\ gate_open config m
    /\ similarity_threshold config <= score m.
Proof.
  unfold ranked_matches. cbv zeta. intros Hin.
  apply slice_to_In in Hin. apply (Permutation_in _ (sort_desc_perm _)) in Hin.
  apply filter_map_In in Hin. destruct Hin as (entry & Hentry & Hscore).
  exists entry. split; [exact Hentry|].
  now apply (score_entry_spec config (window db) (query_of summary files)).
Qed.

Lemma find_similar_cases (fts : Fts5) (config : GraveyardConfig) (summary : string)
      (files : list string) (max_matches_arg : option Z) (db : Db) :
  fst (find_similar fts config summary files max_matches_arg db) = []
  \/ fst (find_similar fts config summary files max_matches_arg db)
     = ranked_matches fts config summary files max_matches_arg db.
Proof.
  rewrite find_similar_eq. destruct (negb (enabled config)); [now left|].
  destruct (_ && _)%bool; [now left|now right].
Qed.


(** ** Scores lie between 0 and 1 *)

Lemma share_bounds (num den : R) : 0 <= num <= den -> 0 <= num / den <= 1.
Proof.
  intros [Hn Hd]. destruct (Req_dec_T den 0) as [Hz|Hnz].
  - assert (num = 0) by lra. subst num. unfold Rdiv. rewrite Rmult_0_l. lra.
  - assert (Hpos : 0 < den) by lra. split.
    + apply Rmult_le_reg_r with den; [exact Hpos|].
      unfold Rdiv. rewrite Rmult_assoc, Rinv_l by lra. lra.
    + apply Rmult_le_reg_r with den; [exact Hpos|].
      unfold Rdiv. rewrite Rmult_assoc, Rinv_l by lra. lra.
Qed.


Lemma file_share_bounds (q : Query) (entry : Entry) :
  0 <= file_share q (file_overlap_of q entry) <= 1.
Proof.
  unfold file_share. destruct (q_files q) as [|f qf] eqn:E; [lra|].
  apply share_bounds. split; [apply pos_INR|].
  apply le_INR. rewrite <- E. apply sorted_inter_length.
Qed.



(** ** Evaluating the scorer on sample data *)

(** The match the loop builds from an entry when it keeps it. *)
Definition match_for (idf_source : list Entry) (q : Query) (entry : Entry) : GraveyardMatch :=
  let ko := overlap_of (q_keywords q) entry in
  let fo := file_overlap_of q entry in
  let sem := semantic_of q entry in
  mkMatch (id entry)
          (0.45 * keyword_share idf_source q ko + 0.25 * file_share q fo + 0.30 * sem)
          (summary entry) (reason entry) (files entry) ko fo sem (created_at entry).

Lemma match_for_built (idf_source : list Entry) (q : Query) (entry : Entry) :
  built_from q entry (match_for idf_source q entry)
  /\ score (match_for idf_source q entry)
     = combined_score idf_source q (match_for idf_source q entry).
Proof. repeat split. Qed.

Lemma score_entry_match_for (config : GraveyardConfig) (idf_source : list Entry) (q : Query)
      (entry : Entry) :
  gate_open config (match_for idf_source q entry) ->
  similarity_threshold config <= score (match_for idf_source q entry) ->
  score_entry config (q_keywords q) (q_token_set q) (q_files q)
              (query_idf idf_source (q_keywords q)) entry
  = Some (match_for idf_source q entry).
Proof.
  intros Hgate Hthr. apply score_entry_spec.
  destruct (match_for_built idf_source q entry) as [Hb Hs]. auto.
Qed.

Lemma score_entry_built (config : GraveyardConfig) (idf_source : list Entry) (q : Query)
      (entry : Entry) (m : GraveyardMatch) :
  score_entry config (q_keywords q) (q_token_set q) (q_files q)
              (query_idf idf_source (q_keywords q)) entry = Some m ->
  m = match_for idf_source q entry.
Proof.
  intros H. pose proof H as H'. apply score_entry_spec in H.
  destruct H as (Hb & Hs & Hg & Ht).
  destruct m as [i sc su re fi ko fo se cr].
  destruct Hb as (H1 & H2 & H3 & H4 & H5 & H6 & H7 & H8).
  unfold combined_score in Hs. cbn in *. subst. reflexivity.
Qed.


Lemma find_similar_enabled (fts : Fts5) (config : GraveyardConfig) (summary : string)
      (files : list string) (max_matches_arg : option Z) (db : Db) :
  enabled config = true ->
  is_empty (_tokenize summary) = false ->
  fst (find_similar fts config summary files max_matches_arg db)
  = ranked_matches fts config summary files max_matches_arg db.
Proof. intros He Ht. rewrite find_similar_eq, He, Ht. reflexivity. Qed.

(** A store without FTS5. *)
Definition fts_unsupported : Fts5 := mkFts5 false (fun _ _ _ => []).




Lemma slice_to_all {A : Type} (k : Z) (l : list A) :
  (Z.of_nat (List.length l) <= k)%Z -> slice_to k l = l.
Proof.
  intros Hk. unfold slice_to. destruct (Z.leb_spec 0 k); [|lia].
  apply firstn_all2. lia.
Qed.



(** ** Narrowing against the full scan *)

Lemma find_by_id_str_In (rows : list Entry) (eid : string) (row : Entry) :
  find_by_id_str rows eid = Some row -> In row rows.
Proof. unfold find_by_id_str. intros H. now apply find_some in H. Qed.

Lemma found_row_In (rows : list Entry) (eid : string) (x : Entry) :
  In x match find_by_id_str rows eid with
       | Some row => [row]
       | None => []
       end ->
  In x rows.
Proof.
  destruct (find_by_id_str rows eid) as [row|] eqn:Hf; cbn [In]; [|intros []].
  intros [<-|[]]. eapply find_by_id_str_In; eassumption.
Qed.

(** The shortlist is drawn from the window. *)
Lemma candidates_in_window (fts : Fts5) (tokens : list string) (db : Db) :
  incl (candidates fts tokens db) (window db).
Proof.
  unfold candidates. destruct (is_empty tokens); [apply incl_refl|].
  destruct (narrowed fts tokens db) as [[|c cs]|] eqn:E; try apply incl_refl.
  unfold narrowed, narrow_rows in E.
  destruct (filter _FTS_TOKEN_RE_match tokens); [discriminate|].
  destruct (window db) as [|r rows] eqn:Hw; [discriminate|].
  destruct (negb (fts_available fts)); [discriminate|].
  injection E as E. rewrite <- E. intros x Hx. apply in_flat_map in Hx.
  destruct Hx as (eid & _ & Hx).
  exact (found_row_In (r :: rows) eid x Hx).
Qed.

(** Without FTS5 the candidates are the whole window. *)
Lemma candidates_unsupported (fts : Fts5) (tokens : list string) (db : Db) :
  fts_available fts = false -> candidates fts tokens db = window db.
Proof.
  intros Hoff. unfold candidates, narrowed, narrow_rows.
  destruct (is_empty tokens); [reflexivity|].
  destruct (filter _FTS_TOKEN_RE_match tokens); [reflexivity|].
  destruct (window db); [reflexivity|]. rewrite Hoff. reflexivity.
Qed.







(** ** A narrowing that loses a match *)




Definition payments_entry : Entry :=
  mkEntry 2 (Some "sess-2") "Payment retries" "Idempotency mismatch" ["src/payments.ts"]
          ["idempotency"; "mismatch"; "payment"; "retry"] "2026-01-02T00:00:00+00:00".

Definition pagination_entry : Entry :=
  mkEntry 1 (Some "sess-1") "Offset pagination" "Performance cliff past 10k rows"
          ["src/db/query.py"]
          ["10k"; "cliff"; "offset"; "pagination"; "past"; "performance"; "row"]
          "2026-01-01T00:00:00+00:00".

Definition two_failures_db : Db := mkDb [payments_entry; pagination_entry] 2 [].

(** [GraveyardConfig(similarity_threshold=0.2)] *)
Definition test_config : GraveyardConfig := mkConfig true 5 0.2 1.

Lemma filter_map_length_le {A B : Type} (f : A -> option B) (l : list A) :
  (List.length (filter_map f l) <= List.length l)%nat.
Proof.
  unfold filter_map. induction l as [|a l IH]; cbn [flat_map List.length]; [lia|].
  rewrite length_app. destruct (f a); cbn [List.length]; lia.
Qed.



(** The sample database is what two calls of [record_failure] store. *)
Lemma two_failures_db_recorded :
  let db0 := mkDb [] 0 [] in
  let db1 := snd (record_failure test_config "2026-01-01T00:00:00+00:00" (Some "sess-1")
                                 "Offset pagination" "Performance cliff past 10k rows"
                                 ["src/db/query.py"] db0) in
  let db2 := snd (record_failure test_config "2026-01-02T00:00:00+00:00" (Some "sess-2")
                                 "Payment retries" "Idempotency mismatch"
                                 ["src/payments.ts"] db1) in
  graveyard db2 = graveyard two_failures_db /\ last_id db2 = last_id two_failures_db.
Proof. vm_compute. split; reflexivity. Qed.

(** ** When the two paths agree *)








End GraveyardSpec.

(* ================================================================== *)
(** * Further properties: strings *)
(* ================================================================== *)

Module TextFacts.
Import PyStr.

Lemma chars_of_chars (l : list ascii) : chars (of_chars l) = l.
Proof. apply list_ascii_of_string_of_list_ascii. Qed.

Lemma of_chars_chars (s : string) : of_chars (chars s) = s.
Proof. apply string_of_list_ascii_of_string. Qed.

Lemma chars_app (a b : string) : chars (a ++ b) = (chars a ++ chars b)%list.
Proof. unfold chars. induction a as [|c a IH]; cbn; [reflexivity|now rewrite IH]. Qed.

Lemma of_chars_length (l : list ascii) : String.length (of_chars l) = List.length l.
Proof. unfold of_chars. induction l as [|c l IH]; cbn; [reflexivity|now rewrite IH]. Qed.

Lemma string_length_chars (s : string) : String.length s = List.length (chars s).
Proof. now rewrite <- (of_chars_chars s), of_chars_length, chars_of_chars. Qed.

Lemma substring0_length (n : nat) (s : string) :
  String.length (String.substring 0 n s) = Nat.min n (String.length s).
Proof.
  revert n. induction s as [|c s IH]; intros [|n]; cbn; try reflexivity.
  now rewrite IH.
Qed.

Lemma substring0_chars (n : nat) (s : string) :
  chars (String.substring 0 n s) = firstn n (chars s).
Proof.
  revert n. induction s as [|c s IH]; intros [|n]; cbn; try reflexivity.
  now rewrite <- IH.
Qed.

(** ASCII case folding *)

Lemma lower_char_not_upper (c : ascii) : is_upper (lower_char c) = false.
Proof.
  unfold lower_char. destruct (is_upper c) eqn:E; [|exact E].
  unfold is_upper, in_range in *.
  apply andb_true_iff in E. destruct E as [E1 E2].
  apply Nat.leb_le in E1, E2.
  rewrite nat_ascii_embedding by lia.
  apply andb_false_iff. right. apply Nat.leb_gt. lia.
Qed.

Lemma lower_char_idem (c : ascii) : lower_char (lower_char c) = lower_char c.
Proof. unfold lower_char at 1. now rewrite lower_char_not_upper. Qed.

Lemma lower_chars (s : string) : chars (lower s) = map lower_char (chars s).
Proof. unfold lower. apply chars_of_chars. Qed.

Lemma lower_idem (s : string) : lower (lower s) = lower s.
Proof.
  unfold lower at 1. rewrite lower_chars, map_map.
  unfold lower. f_equal. apply map_ext. intros c. apply lower_char_idem.
Qed.

Lemma lower_cons (c : ascii) (s : string) : lower (String c s) = String (lower_char c) (lower s).
Proof. reflexivity. Qed.

Lemma lower_app (a b : string) : lower (a ++ b) = lower a ++ lower b.
Proof. induction a as [|c a IH]; [reflexivity|]. cbn [append]. now rewrite !lower_cons, IH. Qed.

Lemma lower_length (s : string) : String.length (lower s) = String.length s.
Proof. unfold lower. now rewrite of_chars_length, length_map, <- string_length_chars. Qed.

(** A string without upper-case ASCII letters. *)
Definition lowered (s : string) : Prop := Forall (fun c => is_upper c = false) (chars s).

Lemma lower_lowered (s : string) : lowered (lower s).
Proof.
  unfold lowered. rewrite lower_chars. apply Forall_forall. intros c Hc.
  apply in_map_iff in Hc. destruct Hc as (c' & <- & _). apply lower_char_not_upper.
Qed.

Lemma lowered_app (a b : string) : lowered a -> lowered b -> lowered (a ++ b).
Proof. unfold lowered. rewrite chars_app. intros. now apply Forall_app. Qed.

Lemma lowered_substring0 (n : nat) (s : string) : lowered s -> lowered (String.substring 0 n s).
Proof.
  unfold lowered. rewrite substring0_chars. intros H.
  apply Forall_forall. intros c Hc. rewrite Forall_forall in H.
  apply H. eapply ListFacts.In_firstn; eassumption.
Qed.

Lemma lstrip_chars_incl (set : string) (l : list ascii) : incl (lstrip_chars set l) l.
Proof.
  induction l as [|c l IH]; cbn [lstrip_chars]; [apply incl_refl|].
  destruct (mem_char c set); [now apply incl_tl|apply incl_refl].
Qed.

Lemma lstrip_chars_length (set : string) (l : list ascii) :
  (List.length (lstrip_chars set l) <= List.length l)%nat.
Proof.
  induction l as [|c l IH]; cbn [lstrip_chars]; [lia|].
  destruct (mem_char c set); cbn [List.length]; lia.
Qed.

Lemma strip_chars_incl (set s : string) : incl (chars (strip set s)) (chars s).
Proof.
  unfold strip. rewrite chars_of_chars. intros c Hc.
  apply in_rev in Hc. apply lstrip_chars_incl in Hc. apply in_rev in Hc.
  now apply lstrip_chars_incl in Hc.
Qed.

Lemma lowered_strip (set s : string) : lowered s -> lowered (strip set s).
Proof.
  unfold lowered. intros H. apply Forall_forall. intros c Hc.
  rewrite Forall_forall in H. now apply H, (strip_chars_incl set s).
Qed.

End TextFacts.

(* ================================================================== *)
(** * Further properties: the failure tokenizer *)
(* ================================================================== *)

Module TokenizerFacts.
Import PyStr Tokenizer TextFacts.

Lemma is_word_char_lower (c : ascii) : is_word_char (lower_char c) = is_word_char c.
Proof. destruct c as [[] [] [] [] [] [] [] []]; reflexivity. Qed.

Lemma eqb_empty_lower (s : string) : String.eqb (lower s) "" = String.eqb s "".
Proof. destruct s; reflexivity. Qed.

Lemma findall_acc_lower (s cur : string) :
  findall_acc (lower s) (lower cur) = map lower (findall_acc s cur).
Proof.
  revert cur. induction s as [|c s IH]; intros cur.
  - cbn. rewrite eqb_empty_lower. now destruct (String.eqb cur "").
  - rewrite lower_cons. cbn [findall_acc]. rewrite is_word_char_lower.
    destruct (is_word_char c).
    + rewrite <- IH. now rewrite lower_app.
    + rewrite eqb_empty_lower. destruct (String.eqb cur "").
      * apply (IH "").
      * cbn [map]. f_equal. apply (IH "").
Qed.

Lemma _normalize_token_lower (t : string) : _normalize_token (lower t) = _normalize_token t.
Proof. unfold _normalize_token. now rewrite lower_idem. Qed.

Lemma _tokenize_lower (text : string) : _tokenize (lower text) = _tokenize text.
Proof.
  unfold _tokenize, _WORD_RE_findall.
  change (findall_acc (lower text) "") with (findall_acc (lower text) (lower "")).
  rewrite findall_acc_lower, map_map.
  f_equal. apply map_ext. intros t. apply _normalize_token_lower.
Qed.

(** X1. Tokenization ignores ASCII case: two texts that agree once
    lower-cased yield the same token list, hence the same keyword set. *)
Theorem tokenize_ignores_case (a b : string) :
  lower a = lower b ->
  _tokenize a = _tokenize b /\ _keywords a = _keywords b.
Proof.
  intros H.
  assert (E : _tokenize a = _tokenize b)
    by now rewrite <- (_tokenize_lower a), <- (_tokenize_lower b), H.
  split; [exact E|]. unfold _keywords. now rewrite E.
Qed.

Lemma tokenize_ignores_case_witness :
  _tokenize "Redis TIMEOUT in Worker" = _tokenize "redis timeout in worker"
  /\ _keywords "Redis TIMEOUT in Worker" = _keywords "redis timeout in worker".
Proof. apply tokenize_ignores_case. reflexivity. Defined.

(** The characters a token is made of. *)
Definition token_char (c : ascii) : Prop := is_word_char c = true /\ is_upper c = false.

Definition token_chars (s : string) : Prop := Forall token_char (chars s).

Lemma token_chars_app (a b : string) : token_chars a -> token_chars b -> token_chars (a ++ b).
Proof. unfold token_chars. rewrite chars_app. intros. now apply Forall_app. Qed.

Lemma token_chars_incl (a b : string) :
  incl (chars a) (chars b) -> token_chars b -> token_chars a.
Proof.
  unfold token_chars. intros Hi H. apply Forall_forall. intros c Hc.
  rewrite Forall_forall in H. now apply H, Hi.
Qed.

Lemma substring0_incl (n : nat) (s : string) : incl (chars (String.substring 0 n s)) (chars s).
Proof. rewrite substring0_chars. intros c Hc. eapply ListFacts.In_firstn; eassumption. Qed.

Lemma word_chars_lower (s : string) :
  Forall (fun c => is_word_char c = true) (chars s) -> token_chars (lower s).
Proof.
  intros H. unfold token_chars. rewrite lower_chars.
  apply Forall_forall. intros c Hc. apply in_map_iff in Hc.
  destruct Hc as (c' & <- & Hc'). rewrite Forall_forall in H. split.
  - rewrite is_word_char_lower. now apply H.
  - apply lower_char_not_upper.
Qed.

Lemma findall_acc_word_chars (s cur : string) :
  Forall (fun c => is_word_char c = true) (chars cur) ->
  Forall (fun t => Forall (fun c => is_word_char c = true) (chars t)) (findall_acc s cur).
Proof.
  revert cur. induction s as [|c s IH]; intros cur Hcur; cbn [findall_acc].
  - destruct (String.eqb cur ""); [constructor|]. now repeat constructor.
  - destruct (is_word_char c) eqn:Ec.
    + apply IH. rewrite chars_app. apply Forall_app. split; [exact Hcur|].
      now repeat constructor.
    + destruct (String.eqb cur "").
      * apply IH. constructor.
      * constructor; [exact Hcur|]. apply IH. constructor.
Qed.

Lemma synonym_values_shape (v d : string) :
  (3 <= String.length d)%nat -> token_chars d ->
  (3 <= String.length (dict_get _SYNONYM_CANONICAL v d))%nat
  /\ token_chars (dict_get _SYNONYM_CANONICAL v d).
Proof.
  intros Hl Hc. unfold dict_get, _SYNONYM_CANONICAL. cbn [dict_lookup].
  repeat match goal with
  | |- context [if String.eqb ?k v then _ else _] =>
      destruct (String.eqb k v);
      [split; [cbn; lia|unfold token_chars, token_char; cbn; repeat constructor]|]
  end.
  now split.
Qed.

Lemma drop_last_length (k : nat) (s : string) :
  String.length (drop_last k s) = (String.length s - k)%nat.
Proof. unfold drop_last. rewrite substring0_length. lia. Qed.

Lemma _normalize_token_shape (raw : string) :
  Forall (fun c => is_word_char c = true) (chars raw) ->
  _normalize_token raw = ""
  \/ ((3 <= String.length (_normalize_token raw))%nat /\ token_chars (_normalize_token raw)).
Proof.
  intros Hraw. unfold _normalize_token.
  set (value := strip "._/-" (lower raw)).
  assert (Hv : token_chars value).
  { eapply token_chars_incl; [apply strip_chars_incl|]. now apply word_chars_lower. }
  destruct (String.length value <=? 2)%nat eqn:El; [now left|right].
  apply Nat.leb_gt in El.
  assert (Hd : forall k, token_chars (drop_last k value)).
  { intros k. eapply token_chars_incl; [apply substring0_incl|exact Hv]. }
  apply synonym_values_shape.
  - repeat match goal with
    | |- context [if ?b && (?n <? ?m)%nat then _ else _] =>
        let E := fresh "E" in
        destruct (b && (n <? m)%nat) eqn:E;
        [apply andb_true_iff in E; destruct E as [_ E]; apply Nat.ltb_lt in E;
         rewrite ?RepomapSpec.length_append, ?drop_last_length; cbn [String.length]; lia|]
    end; lia.
  - repeat match goal with
    | |- context [if ?b && (?n <? ?m)%nat then _ else _] =>
        destruct (b && (n <? m)%nat);
        [first [apply Hd | apply token_chars_app;
                 [apply Hd|unfold token_chars, token_char; cbn; repeat constructor]]|]
    end. exact Hv.
Qed.

(** X2. Every token that [_tokenize] returns has at least three
    characters, all of them from the word alphabet [[a-z0-9_./-]] and
    none of them an upper-case letter. *)
Theorem tokens_are_lowercase_words (text : string) :
  Forall (fun t => (3 <= String.length t)%nat /\ token_chars t) (_tokenize text).
Proof.
  unfold _tokenize, _WORD_RE_findall.
  apply Forall_forall. intros t Ht.
  apply filter_In in Ht. destruct Ht as [Ht Hne].
  apply in_map_iff in Ht. destruct Ht as (raw & <- & Hraw).
  pose proof (findall_acc_word_chars text "" (Forall_nil _)) as Hall.
  rewrite Forall_forall in Hall. specialize (Hall raw Hraw).
  destruct (_normalize_token_shape raw Hall) as [E|H]; [|exact H].
  rewrite E in Hne. discriminate.
Qed.

End TokenizerFacts.

(* ================================================================== *)
(** * Further properties: splitting and joining *)
(* ================================================================== *)

Module SplitFacts.
Import PyStr TextFacts.

(** A piece that does not hold the separator. *)
Definition no_sep (sep : ascii) (p : string) : Prop :=
  Forall (fun c => Ascii.eqb c sep = false) (chars p).

Lemma no_sep_app (sep : ascii) (a b : string) :
  no_sep sep a -> no_sep sep b -> no_sep sep (a ++ b).
Proof. unfold no_sep. rewrite chars_app. intros. now apply Forall_app. Qed.

Lemma split_acc_no_sep (sep : ascii) (s cur : string) :
  no_sep sep cur -> Forall (no_sep sep) (split_acc sep s cur).
Proof.
  revert cur. induction s as [|c s IH]; intros cur Hcur; cbn [split_acc].
  - now repeat constructor.
  - destruct (Ascii.eqb c sep) eqn:E.
    + constructor; [exact Hcur|]. apply IH. constructor.
    + apply IH. apply no_sep_app; [exact Hcur|]. now repeat constructor.
Qed.

Lemma split_no_sep (sep : ascii) (s : string) : Forall (no_sep sep) (split sep s).
Proof. apply split_acc_no_sep. constructor. Qed.

Lemma split_acc_app (sep : ascii) (p rest cur : string) :
  no_sep sep p ->
  split_acc sep (p ++ rest) cur = split_acc sep rest (cur ++ p).
Proof.
  revert cur. induction p as [|c p IH]; intros cur Hp.
  - cbn [append]. now rewrite RepomapSpec.append_empty_r.
  - inversion Hp as [|? ? Hc Hp']; subst. cbn [append split_acc]. rewrite Hc.
    rewrite IH by exact Hp'. f_equal.
    change (String c p) with (String c "" ++ p).
    now rewrite RepomapSpec.append_assoc.
Qed.

(** Splitting what [join] built gives the pieces back. *)
Lemma split_acc_join (sep : ascii) (parts : list string) (cur : string) :
  Forall (no_sep sep) parts -> parts <> [] ->
  split_acc sep (join (String sep "") parts) cur
  = match parts with
    | [] => []
    | p :: rest => (cur ++ p) :: rest
    end.
Proof.
  revert cur. induction parts as [|p rest IH]; intros cur Hall Hne; [congruence|].
  inversion Hall as [|? ? Hp Hrest]; subst.
  destruct rest as [|p2 rest].
  - cbn [join]. rewrite <- (RepomapSpec.append_empty_r p) at 1.
    rewrite split_acc_app by exact Hp. reflexivity.
  - change (join (String sep "") (p :: p2 :: rest))
      with (p ++ String sep (join (String sep "") (p2 :: rest))).
    rewrite split_acc_app by exact Hp. cbn [split_acc]. rewrite Ascii.eqb_refl.
    f_equal. rewrite IH by (auto; discriminate). reflexivity.
Qed.

Lemma split_join (sep : ascii) (parts : list string) :
  Forall (no_sep sep) parts -> parts <> [] ->
  split sep (join (String sep "") parts) = parts.
Proof.
  intros Hall Hne. unfold split. rewrite split_acc_join by assumption.
  now destruct parts.
Qed.

(** The segments [PurePosixPath] and the comprehensions keep. *)
Definition kept_segment (p : string) : bool := negb (String.eqb p "" || String.eqb p ".").

Lemma filter_all {A : Type} (f : A -> bool) (l : list A) :
  Forall (fun x => f x = true) l -> filter f l = l.
Proof. induction 1 as [|x l Hx _ IH]; cbn [filter]; [reflexivity|]. now rewrite Hx, IH. Qed.

Lemma filter_idem {A : Type} (f : A -> bool) (l : list A) : filter f (filter f l) = filter f l.
Proof.
  apply filter_all, Forall_forall. intros x Hx. now apply filter_In in Hx.
Qed.

(** Splitting the join of clean segments and cleaning again changes nothing. *)
Lemma segments_round_trip (parts : list string) :
  Forall (no_sep "/") parts ->
  Forall (fun p => kept_segment p = true) parts ->
  filter kept_segment (split "/" (join "/" parts)) = parts.
Proof.
  intros Hsep Hkept. destruct parts as [|p rest]; [reflexivity|].
  rewrite split_join by (auto; discriminate). now apply filter_all.
Qed.

Lemma Forall_filter {A : Type} (P : A -> Prop) (f : A -> bool) (l : list A) :
  Forall P l -> Forall P (filter f l).
Proof.
  intros H. apply Forall_forall. intros x Hx. apply filter_In in Hx.
  rewrite Forall_forall in H. now apply H.
Qed.

Lemma Forall_filter_kept {A : Type} (f : A -> bool) (l : list A) :
  Forall (fun x => f x = true) (filter f l).
Proof. apply Forall_forall. intros x Hx. now apply filter_In in Hx. Qed.

End SplitFacts.

(* ================================================================== *)
(** * Further properties: [sorted] on strings *)
(* ================================================================== *)

Module SortFacts.
Import PyStr.

Definition leb_order (a b : string) : Prop := String.leb a b = true.

Lemma insert_sorted_Sorted (x : string) (l : list string) :
  Sorted leb_order l -> Sorted leb_order (insert_sorted x l).
Proof.
  induction 1 as [|y l Hs IH Hhd]; cbn [insert_sorted].
  - repeat constructor.
  - destruct (String.leb x y) eqn:E.
    + constructor; [now constructor|]. now constructor.
    + constructor; [exact IH|].
      assert (Hyx : leb_order y x).
      { destruct (String.leb_total x y) as [H|H]; [congruence|exact H]. }
      destruct l as [|z l]; cbn [insert_sorted]; [now constructor|].
      destruct (String.leb x z); constructor; [exact Hyx|].
      now inversion Hhd.
Qed.

Lemma sorted_Sorted (l : list string) : Sorted leb_order (sorted l).
Proof.
  unfold sorted. induction l as [|x l IH]; cbn [fold_right]; [constructor|].
  now apply insert_sorted_Sorted.
Qed.

Lemma sorted_NoDup (l : list string) : NoDup l -> NoDup (sorted l).
Proof. intros H. eapply Permutation_NoDup; [symmetry; apply GraveyardSpec.sorted_perm|exact H]. Qed.

Lemma sorted_In (l : list string) (x : string) : In x (sorted l) <-> In x l.
Proof.
  split; apply Permutation_in; [apply GraveyardSpec.sorted_perm|symmetry; apply GraveyardSpec.sorted_perm].
Qed.


(** Code-point order on strings is transitive. *)
Lemma ascii_compare_N (a b : ascii) :
  Ascii.compare a b = N.compare (N_of_ascii a) (N_of_ascii b).
Proof. reflexivity. Qed.

Lemma string_compare_cons (a b : ascii) (s t : string) :
  String.compare (String a s) (String b t)
  = match Ascii.compare a b with
    | Eq => String.compare s t
    | other => other
    end.
Proof. cbn [String.compare]. now destruct (Ascii.compare a b). Qed.

Lemma string_compare_trans (s : string) :
  forall t u,
    String.compare s t <> Gt -> String.compare t u <> Gt -> String.compare s u <> Gt.
Proof.
  induction s as [|a s IH]; intros [|b t] [|c u] Hst Htu; try (cbn in *; congruence).
  revert Hst Htu. rewrite !string_compare_cons, !ascii_compare_N.
  destruct (N.compare_spec (N_of_ascii a) (N_of_ascii b)) as [Eab|Lab|Gab];
    destruct (N.compare_spec (N_of_ascii b) (N_of_ascii c)) as [Ebc|Lbc|Gbc];
    destruct (N.compare_spec (N_of_ascii a) (N_of_ascii c)) as [Eac|Lac|Gac];
    intros Hst Htu; try congruence; try lia.
  now apply (IH t u).
Qed.

Lemma leb_compare (s t : string) : String.leb s t = true <-> String.compare s t <> Gt.
Proof. unfold String.leb. destruct (String.compare s t); split; congruence. Qed.

Lemma leb_trans (s t u : string) :
  String.leb s t = true -> String.leb t u = true -> String.leb s u = true.
Proof. rewrite !leb_compare. apply string_compare_trans. Qed.

Lemma leb_refl (s : string) : String.leb s s = true.
Proof. destruct (String.leb_total s s); assumption. Qed.

End SortFacts.

(* ================================================================== *)
(** * Further properties: the graveyard *)
(* ================================================================== *)

Module GraveyardFacts.
Import PyStr Tokenizer Store Graveyard TextFacts SplitFacts SortFacts GraveyardSpec.
Open Scope R_scope.

(** ** Path normalization *)

(** The segments of a path that [_norm_path] keeps. *)
Definition segments (path : string) : list string := filter kept_segment (split "/" path).

Lemma _norm_path_segments (path : string) : _norm_path path = join "/" (segments path).
Proof. reflexivity. Qed.

Lemma segments_clean (path : string) :
  Forall (no_sep "/") (segments path) /\ Forall (fun p => kept_segment p = true) (segments path).
Proof.
  split; [apply Forall_filter, split_no_sep|apply Forall_filter_kept].
Qed.

Lemma segments_norm_path (path : string) : segments (_norm_path path) = segments path.
Proof.
  rewrite _norm_path_segments. destruct (segments_clean path) as [Hs Hk].
  now apply segments_round_trip.
Qed.

(** X3. [_norm_path] is idempotent, and two paths have the same normal
    form exactly when they have the same sequence of segments other than
    the empty one and [.]. *)
Theorem _norm_path_canonical (p q : string) :
  _norm_path (_norm_path p) = _norm_path p
  /\ (_norm_path p = _norm_path q <-> segments p = segments q).
Proof.
  split.
  - rewrite (_norm_path_segments (_norm_path p)), segments_norm_path. reflexivity.
  - split; intros H.
    + rewrite <- (segments_norm_path p), <- (segments_norm_path q). now rewrite H.
    + rewrite !_norm_path_segments. now rewrite H.
Qed.

(** ** Token sets *)

Lemma inter_comm_perm (a b : list string) :
  NoDup a -> NoDup b -> Permutation (inter a b) (inter b a).
Proof.
  intros Ha Hb. apply NoDup_Permutation; try (now apply NoDup_filter).
  intros x. unfold inter. rewrite !filter_In, !ListFacts.mem_In. tauto.
Qed.

Lemma union_comm_perm (a b : list string) : Permutation (PyStr.union a b) (PyStr.union b a).
Proof.
  apply NoDup_Permutation; try apply NoDup_nodup.
  intros x. unfold PyStr.union, to_set. rewrite !nodup_In, !in_app_iff. tauto.
Qed.

Lemma is_empty_length {A : Type} (l : list A) : is_empty l = (List.length l =? 0)%nat.
Proof. now destruct l. Qed.

Lemma inter_self (s : list string) : inter s s = s.
Proof.
  unfold inter. apply filter_all, Forall_forall. intros x Hx. now apply ListFacts.mem_In.
Qed.

Lemma union_self (s : list string) : NoDup s -> Permutation (PyStr.union s s) s.
Proof.
  intros Hs. apply NoDup_Permutation; [apply NoDup_nodup|exact Hs|].
  intros x. unfold PyStr.union, to_set. rewrite nodup_In, in_app_iff. tauto.
Qed.

Lemma union_nonempty (a b : list string) : a <> [] -> PyStr.union a b <> [].
Proof.
  destruct a as [|x a]; [congruence|]. intros _ E.
  assert (H : In x (PyStr.union (x :: a) b)).
  { unfold PyStr.union, to_set. apply nodup_In. now left. }
  rewrite E in H. destruct H.
Qed.

(** X4. On duplicate-free token sets the Jaccard score is symmetric, it
    is 1 for a non-empty set against itself, and it is 0 when the two
    sets share no token. *)
Theorem _token_jaccard_symmetric (left right : list string) :
  NoDup left -> NoDup right ->
  _token_jaccard left right = _token_jaccard right left
  /\ (left <> [] -> _token_jaccard left left = 1)
  /\ ((forall t, In t left -> ~ In t right) -> _token_jaccard left right = 0).
Proof.
  intros Hl Hr. split; [|split].
  - unfold _token_jaccard. rewrite (orb_comm (is_empty right)).
    destruct (is_empty left || is_empty right)%bool; [reflexivity|].
    rewrite (is_empty_length (PyStr.union left right)),
            (is_empty_length (PyStr.union right left)).
    rewrite (Permutation_length (union_comm_perm left right)).
    rewrite (Permutation_length (inter_comm_perm left right Hl Hr)).
    reflexivity.
  - intros Hne. unfold _token_jaccard.
    destruct left as [|x l]; [congruence|]. cbn [is_empty orb].
    assert (Hu : is_empty (PyStr.union (x :: l) (x :: l)) = false).
    { destruct (PyStr.union (x :: l) (x :: l)) eqn:Eu; [|reflexivity].
      exfalso. eapply union_nonempty; [|exact Eu]. discriminate. }
    rewrite Hu.
    rewrite inter_self, (Permutation_length (union_self _ Hl)).
    apply Rinv_r. apply not_0_INR. cbn [List.length]. lia.
  - intros Hdis. unfold _token_jaccard.
    destruct (is_empty left || is_empty right)%bool; [reflexivity|].
    destruct (is_empty (PyStr.union left right)); [reflexivity|].
    assert (E : inter left right = []).
    { unfold inter. destruct (filter _ left) as [|x f] eqn:Ef; [reflexivity|].
      assert (Hx : In x (filter (fun x => mem x right) left)) by (rewrite Ef; now left).
      apply filter_In in Hx. destruct Hx as [H1 H2]. apply ListFacts.mem_In in H2.
      now destruct (Hdis x H1). }
    rewrite E. cbn [List.length INR]. unfold Rdiv. apply Rmult_0_l.
Qed.

Lemma _token_jaccard_symmetric_witness :
  _token_jaccard ["cache"; "timeout"] ["timeout"; "worker"]
  = _token_jaccard ["timeout"; "worker"] ["cache"; "timeout"]
  /\ (["cache"; "timeout"] <> [] -> _token_jaccard ["cache"; "timeout"] ["cache"; "timeout"] = 1)
  /\ ((forall t, In t ["cache"; "timeout"] -> ~ In t ["timeout"; "worker"]) ->
      _token_jaccard ["cache"; "timeout"] ["timeout"; "worker"] = 0).
Proof.
  apply _token_jaccard_symmetric.
  - repeat constructor; cbn; intuition discriminate.
  - repeat constructor; cbn; intuition discriminate.
Defined.

(** ** Recording *)

Lemma union_In (a b : list string) (x : string) : In x (PyStr.union a b) <-> In x a \/ In x b.
Proof. unfold PyStr.union, to_set. now rewrite nodup_In, in_app_iff. Qed.

Lemma _keywords_In (text : string) (x : string) : In x (_keywords text) <-> In x (_tokenize text).
Proof. unfold _keywords, to_set. apply nodup_In. Qed.

(** The keywords [record_failure] stores with a failure. *)
Definition recorded_keywords (summary reason : string) : list string :=
  sorted (PyStr.union (_keywords summary) (_keywords reason)).

(** The row [record_failure] adds. *)
Definition recorded_row (db : Db) (now : string) (sid : option string)
           (summary reason : string) (files : list string) : Entry :=
  mkEntry (last_id db + 1) sid summary reason files (recorded_keywords summary reason) now.

Lemma record_failure_eq (config : GraveyardConfig) (now : string) (sid : option string)
      (summary reason : string) (files : list string) (db : Db) :
  enabled config = true ->
  snd (record_failure config now sid summary reason files db)
  = mkDb (recorded_row db now sid summary reason files :: graveyard db)
         (last_id db + 1) (Store.calls db ++ [CallInsertGraveyard]).
Proof. intros He. unfold record_failure. rewrite He. reflexivity. Qed.

(** X5. An enabled [record_failure] adds one row in front of the table,
    under the next id, with the fields it was given; the next
    [list_graveyard] returns it first; and its keyword list is in
    ascending order, free of duplicates, and holds exactly the tokens of
    the summary and of the reason. *)
Theorem record_failure_stores_row
        (config : GraveyardConfig) (now : string) (sid : option string)
        (summary reason : string) (files : list string) (db : Db) (limit : nat) :
  enabled config = true ->
  let db' := snd (record_failure config now sid summary reason files db) in
  let row := recorded_row db now sid summary reason files in
  fst (list_graveyard (S limit) db') = row :: firstn limit (graveyard db)
  /\ last_id db' = id row
  /\ Sorted leb_order (keywords row)
  /\ NoDup (keywords row)
  /\ (forall k, In k (keywords row) <-> In k (_tokenize summary) \/ In k (_tokenize reason)).
Proof.
  intros He db' row. subst db'. rewrite record_failure_eq by exact He.
  split; [reflexivity|]. split; [reflexivity|]. cbn [keywords row recorded_row].
  split; [apply sorted_Sorted|]. split.
  - apply sorted_NoDup, NoDup_nodup.
  - intros k. unfold recorded_keywords.
    now rewrite sorted_In, union_In, !_keywords_In.
Qed.

Lemma record_failure_stores_row_witness :
  let db' := snd (record_failure test_config "2026-01-02T00:00:00+00:00" (Some "sess-2")
                                 "Redis timeout" "Worker crashed on retries"
                                 ["src/worker.py"] one_row_db) in
  let row := recorded_row one_row_db "2026-01-02T00:00:00+00:00" (Some "sess-2")
                          "Redis timeout" "Worker crashed on retries" ["src/worker.py"] in
  fst (list_graveyard 2 db') = row :: firstn 1 (graveyard one_row_db)
  /\ last_id db' = id row
  /\ Sorted leb_order (keywords row)
  /\ NoDup (keywords row)
  /\ (forall k, In k (keywords row) <->
                In k (_tokenize "Redis timeout") \/ In k (_tokenize "Worker crashed on retries")).
Proof. apply (record_failure_stores_row test_config). reflexivity. Defined.

(** ** What [find_similar] does to the store *)

Lemma find_similar_store (fts : Fts5) (config : GraveyardConfig) (summary : string)
      (files : list string) (max_matches_arg : option Z) (db : Db) :
  exists extra,
    snd (find_similar fts config summary files max_matches_arg db)
    = mkDb (graveyard db) (last_id db) (Store.calls db ++ extra)
    /\ (extra = []
        \/ extra = [CallListGraveyard 200; CallListGraveyard 200]
        \/ extra = [CallListGraveyard 200; CallFtsCandidates (_tokenize summary)]
        \/ extra = [CallListGraveyard 200; CallFtsCandidates (_tokenize summary);
                    CallListGraveyard 200]).
Proof.
  unfold find_similar. cbv zeta.
  destruct (negb (enabled config)).
  { exists []. rewrite app_nil_r. destruct db. split; [reflexivity|now left]. }
  destruct (is_empty (_tokenize summary) && is_empty _)%bool.
  { exists []. rewrite app_nil_r. destruct db. split; [reflexivity|now left]. }
  unfold Store.bind at 1. rewrite list_graveyard_eq.
  unfold Store.bind at 1. unfold _load_candidate_entries.
  destruct (is_empty (_tokenize summary)).
  - rewrite list_graveyard_eq. unfold Store.ret, logged. cbn [snd graveyard last_id Store.calls].
    exists [CallListGraveyard 200; CallListGraveyard 200].
    rewrite <- app_assoc. split; [reflexivity|]. right. now left.
  - unfold Store.bind at 1. rewrite list_graveyard_fts_candidates_eq.
    destruct (narrowed fts (_tokenize summary) _) as [[|c cs]|].
    + rewrite list_graveyard_eq. unfold Store.ret, logged.
      cbn [snd graveyard last_id Store.calls].
      exists [CallListGraveyard 200; CallFtsCandidates (_tokenize summary);
              CallListGraveyard 200].
      rewrite <- !app_assoc. split; [reflexivity|]. right. right. now right.
    + unfold Store.ret, logged. cbn [snd graveyard last_id Store.calls].
      exists [CallListGraveyard 200; CallFtsCandidates (_tokenize summary)].
      rewrite <- !app_assoc. split; [reflexivity|]. right. right. now left.
    + rewrite list_graveyard_eq. unfold Store.ret, logged.
      cbn [snd graveyard last_id Store.calls].
      exists [CallListGraveyard 200; CallFtsCandidates (_tokenize summary);
              CallListGraveyard 200].
      rewrite <- !app_assoc. split; [reflexivity|]. right. right. now right.
Qed.

(** X6. [find_similar] only reads: whatever the configuration, the query
    and the FTS backend, the table and the id counter are left as they
    were, and the store sees at most three calls, none of them an insert;
    a query without tokens and without files makes no call at all. *)
Theorem find_similar_only_reads
        (fts : Fts5) (config : GraveyardConfig) (summary : string) (files : list string)
        (max_matches_arg : option Z) (db : Db) :
  let db' := snd (find_similar fts config summary files max_matches_arg db) in
  graveyard db' = graveyard db
  /\ last_id db' = last_id db
  /\ (exists extra,
        Store.calls db' = (Store.calls db ++ extra)%list
        /\ (List.length extra <= 3)%nat
        /\ ~ In CallInsertGraveyard extra)
  /\ (_tokenize summary = [] -> Forall (fun p => p = "") files ->
      find_similar fts config summary files max_matches_arg db = ([], db)).
Proof.
  intros db'. subst db'.
  destruct (find_similar_store fts config summary files max_matches_arg db)
    as (extra & E & Hextra).
  rewrite E. cbn [graveyard last_id Store.calls].
  split; [reflexivity|]. split; [reflexivity|]. split.
  - exists extra. split; [reflexivity|].
    destruct Hextra as [ -> | [ -> | [ -> | -> ] ] ]; cbn [List.length In];
      (split; [lia|intuition discriminate]).
  - clear E Hextra. intros Htok Hfiles. unfold find_similar. cbv zeta. rewrite Htok.
    assert (Hf : filter (fun p => negb (String.eqb p "")) files = []).
    { induction Hfiles as [|p l Hp _ IH]; [reflexivity|]. subst p. cbn. exact IH. }
    rewrite Hf. now destruct (negb (enabled config)).
Qed.

(** ** Sequences of graveyard operations *)

Inductive Op :=
| OpRecord (config : GraveyardConfig) (now : string) (sid : option string)
           (summary reason : string) (files : list string)
| OpFind (config : GraveyardConfig) (summary : string) (files : list string)
         (max_matches_arg : option Z).

Definition run_op (fts : Fts5) (db : Db) (op : Op) : Db :=
  match op with
  | OpRecord config now sid summary reason files =>
      snd (record_failure config now sid summary reason files db)
  | OpFind config summary files max_matches_arg =>
      snd (find_similar fts config summary files max_matches_arg db)
  end.

Definition run_ops (fts : Fts5) (ops : list Op) (db : Db) : Db :=
  fold_left (run_op fts) ops db.

(** A store right after [initialize]. *)
Definition fresh_db : Db := mkDb [] 0 [].

(** The recordings that an enabled graveyard performs. *)
Definition records (op : Op) : bool :=
  match op with
  | OpRecord config _ _ _ _ _ => enabled config
  | OpFind _ _ _ _ => false
  end.

(** The ids of the table, newest first, are [n, n-1, ..., 1]. *)
Fixpoint countdown (n : nat) : list Z :=
  match n with
  | O => []
  | S k => Z.of_nat n :: countdown k
  end.

Definition ids_consecutive (db : Db) : Prop :=
  (0 <= last_id db)%Z /\ map id (graveyard db) = countdown (Z.to_nat (last_id db)).

Lemma run_op_ids (fts : Fts5) (db : Db) (op : Op) :
  ids_consecutive db ->
  ids_consecutive (run_op fts db op)
  /\ last_id (run_op fts db op) = (last_id db + (if records op then 1 else 0))%Z.
Proof.
  intros [Hpos Hids]. unfold ids_consecutive.
  destruct op as [config ts sid summary reason files|config summary files mm];
    cbn [run_op records].
  - destruct (enabled config) eqn:He.
    + rewrite record_failure_eq by exact He. cbn [last_id graveyard]. split; [|reflexivity].
      split; [lia|]. cbn [map id recorded_row]. rewrite Hids.
      replace (Z.to_nat (last_id db + 1)) with (S (Z.to_nat (last_id db))) by lia.
      cbn [countdown]. f_equal. lia.
    + unfold record_failure. rewrite He. cbn [negb snd Store.ret].
      split; [now split|lia].
  - destruct (find_similar_store fts config summary files mm db) as (extra & E & _).
    rewrite E. cbn [last_id graveyard]. split; [now split|lia].
Qed.

Lemma countdown_In (n : nat) (z : Z) : In z (countdown n) <-> (1 <= z <= Z.of_nat n)%Z.
Proof.
  induction n as [|n IH]; [cbn; lia|].
  cbn [countdown In]. rewrite IH. lia.
Qed.

Lemma countdown_NoDup (n : nat) : NoDup (countdown n).
Proof.
  induction n as [|n IH]; cbn [countdown]; constructor; [|exact IH].
  rewrite countdown_In. lia.
Qed.

Lemma countdown_length (n : nat) : List.length (countdown n) = n.
Proof. induction n as [|n IH]; cbn [countdown List.length]; [reflexivity|now rewrite IH]. Qed.

Lemma run_ops_ids (fts : Fts5) (ops : list Op) (db : Db) :
  ids_consecutive db ->
  ids_consecutive (run_ops fts ops db)
  /\ last_id (run_ops fts ops db) = (last_id db + Z.of_nat (List.length (filter records ops)))%Z.
Proof.
  revert db. induction ops as [|op ops IH]; intros db Hdb.
  - cbn. split; [exact Hdb|lia].
  - cbn [run_ops fold_left]. destruct (run_op_ids fts db op Hdb) as [H1 H2].
    destruct (IH _ H1) as [H3 H4]. split; [exact H3|].
    unfold run_ops in H4. rewrite H4, H2. cbn [filter].
    destruct (records op); cbn [List.length]; lia.
Qed.

(** X7. After any sequence of [record_failure] and [find_similar] calls on
    a fresh store, the table holds one row per enabled recording, and the
    ids, newest first, are [n, n-1, ..., 1]: distinct, and never reused or
    changed by a lookup. *)
Theorem graveyard_ids_after_any_run (fts : Fts5) (ops : list Op) :
  let db := run_ops fts ops fresh_db in
  let n := List.length (filter records ops) in
  map id (graveyard db) = countdown n
  /\ last_id db = Z.of_nat n
  /\ List.length (graveyard db) = n
  /\ NoDup (map id (graveyard db)).
Proof.
  intros db n.
  assert (H0 : ids_consecutive fresh_db) by (split; [cbn; lia|reflexivity]).
  destruct (run_ops_ids fts ops fresh_db H0) as [[Hpos Hids] Hlast].
  fold db in Hpos, Hids, Hlast. cbn [last_id fresh_db] in Hlast. fold n in Hlast.
  assert (Hn : Z.to_nat (last_id db) = n) by lia.
  rewrite Hn in Hids. split; [exact Hids|]. split; [lia|]. split.
  - rewrite <- (length_map id), Hids. apply countdown_length.
  - rewrite Hids. apply countdown_NoDup.
Qed.

(** ** Entries that hold every query keyword *)

Lemma full_overlap (qk kws : list string) :
  (forall k, In k qk -> In k kws) -> inter qk (to_set kws) = qk.
Proof.
  intros H. unfold inter. apply filter_all, Forall_forall. intros k Hk.
  apply ListFacts.mem_In. unfold to_set. apply nodup_In. now apply H.
Qed.

Lemma keyword_share_full (idf_source : list Entry) (q : Query) (entry : Entry) :
  q_keywords q <> [] ->
  (forall k, In k (q_keywords q) -> In k (keywords entry)) ->
  keyword_share idf_source q (overlap_of (q_keywords q) entry) = 1.
Proof.
  intros Hne Hall. unfold keyword_share, overlap_of.
  rewrite full_overlap by exact Hall.
  rewrite (sum_R_perm _ _ (Permutation_map _ (sorted_perm _))).
  pose proof (idf_sum_positive idf_source (q_keywords q) Hne).
  apply Rinv_r. lra.
Qed.

(** X8. An entry whose keywords include every keyword of the query has
    keyword share 1, so its score is at least 0.45: the scoring loop
    keeps it whenever the threshold is at most 0.45 and the minimum
    overlap does not exceed the number of query keywords. *)
Theorem full_keyword_match_is_kept
        (config : GraveyardConfig) (idf_source : list Entry) (summary : string)
        (files : list string) (entry : Entry) :
  let q := query_of summary files in
  _tokenize summary <> [] ->
  (forall k, In k (_tokenize summary) -> In k (keywords entry)) ->
  (min_keyword_overlap config <= Z.of_nat (List.length (q_keywords q)))%Z ->
  similarity_threshold config <= 0.45 ->
  exists m,
    score_entry config (q_keywords q) (q_token_set q) (q_files q)
                (query_idf idf_source (q_keywords q)) entry = Some m
    /\ entry_id m = id entry
    /\ keyword_overlap m = sorted (q_keywords q)
    /\ 0.45 <= score m.
Proof.
  intros q Htok Hall Hmin Hthr.
  assert (Hne : q_keywords q <> []).
  { cbn [q q_keywords query_of]. intros E. destruct (_tokenize summary) as [|t ts] eqn:Et;
      [congruence|]. assert (H : In t (_keywords summary)).
    { apply _keywords_In. rewrite Et. now left. }
    rewrite E in H. destruct H. }
  assert (Hall' : forall k, In k (q_keywords q) -> In k (keywords entry)).
  { intros k Hk. apply Hall. now apply _keywords_In. }
  assert (Hko : overlap_of (q_keywords q) entry = sorted (q_keywords q)).
  { unfold overlap_of. now rewrite full_overlap. }
  assert (Hscore : 0.45 <= score (match_for idf_source q entry)).
  { cbn [score match_for]. rewrite keyword_share_full by assumption.
    pose proof (file_share_bounds q entry).
    pose proof (_token_jaccard_bounds (q_token_set q)
                  (to_set (_tokenize (Store.summary entry ++ " " ++ reason entry)))
                  (to_set_NoDup _)) as Hj.
    fold (semantic_of q entry) in Hj. lra. }
  exists (match_for idf_source q entry). split; [|split; [reflexivity|split]].
  - apply score_entry_match_for; [|lra].
    left. cbn [keyword_overlap match_for]. rewrite Hko.
    now rewrite (Permutation_length (sorted_perm _)).
  - exact Hko.
  - exact Hscore.
Qed.

Lemma full_keyword_match_is_kept_witness :
  exists m,
    score_entry test_config (_keywords "redis timeout") (to_set (_tokenize "redis timeout")) []
                (query_idf (graveyard one_row_db) (_keywords "redis timeout"))
                (mkEntry 1 (Some "sess-1") "Cache warming" "Timeout in redis startup"
                         ["src/cache.py"] ["cache"; "redi"; "startup"; "timeout"; "warming"]
                         "2026-01-01T00:00:00+00:00") = Some m
    /\ entry_id m = 1%Z
    /\ keyword_overlap m = sorted (_keywords "redis timeout")
    /\ 0.45 <= score m.
Proof.
  apply (full_keyword_match_is_kept test_config (graveyard one_row_db) "redis timeout" []).
  - vm_compute. discriminate.
  - intros k Hk.
    assert (E : _tokenize "redis timeout" = ["redi"; "timeout"]) by (vm_compute; reflexivity).
    rewrite E in Hk. cbn [keywords]. cbn [In] in *. intuition.
  - assert (E : List.length (q_keywords (query_of "redis timeout" [])) = 2%nat)
      by (vm_compute; reflexivity).
    rewrite E. cbn. lia.
  - cbn. lra.
Defined.

(** X9. A failure that was just recorded is found again: on a store
    without FTS5, with a threshold of at most 0.45 and a minimum overlap
    of at most 1, a lookup under the same summary whose limit exceeds
    the number of earlier rows returns a match for the new row, with a
    score of at least 0.45. *)
Theorem recorded_failure_is_found
        (fts : Fts5) (config : GraveyardConfig) (now : string) (sid : option string)
        (summary reason : string) (files query_files : list string) (limit : Z) (db : Db) :
  enabled config = true ->
  fts_available fts = false ->
  _tokenize summary <> [] ->
  (min_keyword_overlap config <= 1)%Z ->
  similarity_threshold config <= 0.45 ->
  (Z.of_nat (List.length (graveyard db)) < limit)%Z ->
  let db' := snd (record_failure config now sid summary reason files db) in
  exists m,
    In m (fst (find_similar fts config summary query_files (Some limit) db'))
    /\ entry_id m = (last_id db + 1)%Z
    /\ m_summary m = summary /\ m_reason m = reason /\ m_files m = files
    /\ 0.45 <= score m.
Proof.
  intros He Hfts Htok Hmin Hthr Hlimit db'.
  set (row := recorded_row db now sid summary reason files).
  assert (Hdb' : db' = mkDb (row :: graveyard db) (last_id db + 1)
                            (Store.calls db ++ [CallInsertGraveyard]))
    by (apply record_failure_eq; exact He).
  set (q := query_of summary query_files).
  assert (Hqk : (1 <= List.length (q_keywords q))%nat).
  { cbn [q q_keywords query_of]. destruct (_tokenize summary) as [|t ts] eqn:Et; [congruence|].
    assert (H : In t (_keywords summary)) by (apply _keywords_In; rewrite Et; now left).
    destruct (_keywords summary); [destruct H|cbn; lia]. }
  destruct (full_keyword_match_is_kept config (window db') summary query_files row)
    as (m & Hm & Hid & _ & Hscore); try assumption.
  { intros k Hk. cbn [keywords row recorded_row]. unfold recorded_keywords.
    rewrite sorted_In, union_In, !_keywords_In. now left. }
  { fold q. lia. }
  exists m. split; [|split; [exact Hid|]].
  - rewrite find_similar_enabled;
      [|exact He|destruct (_tokenize summary); [congruence|reflexivity]].
    unfold ranked_matches. cbv zeta.
    rewrite candidates_unsupported by exact Hfts.
    assert (Hin : In row (window db')).
    { rewrite Hdb'. unfold window. cbn [graveyard firstn]. now left. }
    assert (Hwin : (List.length (window db') <= S (List.length (graveyard db)))%nat).
    { rewrite Hdb'. unfold window. cbn [graveyard]. rewrite length_firstn.
      cbn [List.length]. lia. }
    rewrite slice_to_all.
    + apply (Permutation_in _ (Permutation_sym (sort_desc_perm _))).
      apply filter_map_In. exists row. split; [exact Hin|exact Hm].
    + rewrite (Permutation_length (sort_desc_perm _)).
      pose proof (filter_map_length_le
                    (score_entry config (q_keywords q) (q_token_set q) (q_files q)
                                 (query_idf (window db') (q_keywords q)))
                    (window db')) as Hle.
      fold q. unfold effective_limit.
      destruct (Z.eqb_spec limit 0); lia.
  - apply (score_entry_built config (window db') (query_of summary query_files)) in Hm.
    subst m. cbn [m_summary m_reason m_files match_for] in *.
    repeat split; try reflexivity. exact Hscore.
Qed.

Lemma recorded_failure_is_found_witness :
  exists m,
    In m (fst (find_similar fts_unsupported test_config "Redis timeout" ["src/worker.py"]
                            (Some 5%Z)
                            (snd (record_failure test_config "2026-01-02T00:00:00+00:00"
                                                 (Some "sess-2") "Redis timeout"
                                                 "Worker crashed on retries"
                                                 ["src/worker.py"] one_row_db))))
    /\ entry_id m = (last_id one_row_db + 1)%Z
    /\ m_summary m = "Redis timeout" /\ m_reason m = "Worker crashed on retries"
    /\ m_files m = ["src/worker.py"]
    /\ 0.45 <= score m.
Proof.
  apply (recorded_failure_is_found fts_unsupported test_config).
  - reflexivity.
  - reflexivity.
  - vm_compute. discriminate.
  - cbn. lia.
  - cbn. lra.
  - cbn. lia.
Defined.

(** ** Where matches come from *)

(** X22. Only the 200 newest rows are ever matched: each match that
    [find_similar] returns, with or without FTS5 narrowing, carries the
    id, summary, reason, files and timestamp of one of them. *)
Theorem matches_come_from_recent_rows
        (fts : Fts5) (config : GraveyardConfig) (summary : string) (files : list string)
        (max_matches_arg : option Z) (db : Db) :
  Forall (fun m =>
            exists entry,
              In entry (firstn 200 (graveyard db))
              /\ entry_id m = id entry
              /\ m_summary m = Store.summary entry
              /\ m_reason m = reason entry
              /\ m_files m = Store.files entry
              /\ m_created_at m = created_at entry)
         (fst (find_similar fts config summary files max_matches_arg db)).
Proof.
  apply Forall_forall. intros m Hm.
  destruct (find_similar_cases fts config summary files max_matches_arg db) as [E|E];
    rewrite E in Hm; [destruct Hm|].
  apply ranked_matches_In in Hm.
  destruct Hm as (entry & Hentry & (H1 & H2 & H3 & H4 & H5 & _) & _).
  exists entry. split; [|auto].
  now apply (candidates_in_window fts (_tokenize summary) db).
Qed.

End GraveyardFacts.

(* ================================================================== *)
(** * Further properties: one match per row *)
(* ================================================================== *)

Module GraveyardDistinct.
Import PyStr Tokenizer Store Graveyard GraveyardSpec.
Open Scope R_scope.

Lemma firstn_NoDup {A : Type} (n : nat) (l : list A) : NoDup l -> NoDup (firstn n l).
Proof.
  intros H. revert n. induction H as [|x l Hx Hl IH]; intros [|n]; cbn [firstn];
    try constructor; [|apply IH].
  intros Hin. apply Hx. eapply ListFacts.In_firstn; eassumption.
Qed.

Lemma slice_to_NoDup {A : Type} (k : Z) (l : list A) : NoDup l -> NoDup (slice_to k l).
Proof. intros H. unfold slice_to. destruct (0 <=? k)%Z; now apply firstn_NoDup. Qed.






End GraveyardDistinct.

(* ================================================================== *)
(** * Further properties: writes under a locked database *)
(* ================================================================== *)

Module StoreWritesFacts.
Import StoreWrites.
Open Scope Q_scope.

(** An attempt that the loop answers with a retry, unless it was the last. *)
Definition lock_error (a : Attempt) : bool :=
  match a with
  | OperationalError msg => _is_lock_error msg
  | _ => false
  end.

Definition attempted (events : list WriteEvent) : list nat :=
  flat_map (fun ev => match ev with Attempted k => [k] | Slept _ => [] end) events.

Definition sleeps (events : list WriteEvent) : list Q :=
  flat_map (fun ev => match ev with Attempted _ => [] | Slept s => [s] end) events.

(** The pause after attempt [k]. *)
Definition pause (backoff : Q) (k : nat) : Q := backoff * inject_Z (2 ^ Z.of_nat k).

(** How the outcome of the last attempt made decides the result. *)
Definition decided_by (result : WriteResult) (last_attempt : Attempt) (was_final : Prop) : Prop :=
  match result with
  | Returned => last_attempt = Committed
  | Raised exc =>
      exc = last_attempt /\ exc <> Committed /\ (lock_error exc = true -> was_final)
  | LoopEnded => False
  end.

Lemma attempted_app (a b : list WriteEvent) : attempted (a ++ b) = (attempted a ++ attempted b)%list.
Proof. apply flat_map_app. Qed.

Lemma sleeps_app (a b : list WriteEvent) : sleeps (a ++ b) = (sleeps a ++ sleeps b)%list.
Proof. apply flat_map_app. Qed.

Lemma write_loop_spec (operation : nat -> Attempt) (attempts : Z) (backoff : Q)
      (remaining : nat) :
  forall attempt,
    (1 <= remaining)%nat ->
    (Z.of_nat attempt + Z.of_nat remaining = attempts)%Z ->
    exists made,
      (1 <= made <= remaining)%nat
      /\ attempted (snd (write_loop operation attempts backoff remaining attempt))
         = seq attempt made
      /\ (forall k, (attempt <= k < attempt + made - 1)%nat -> lock_error (operation k) = true)
      /\ sleeps (snd (write_loop operation attempts backoff remaining attempt))
         = (if Qlt_le_dec 0 backoff then map (pause backoff) (seq attempt (made - 1)) else [])
      /\ decided_by (fst (write_loop operation attempts backoff remaining attempt))
                    (operation (attempt + made - 1)%nat)
                    (made = remaining).
Proof.
  induction remaining as [|remaining IH]; intros attempt Hpos Hsum; [lia|].
  cbn [write_loop].
  assert (Hone : forall result,
             decided_by result (operation attempt)
                        (1%nat = S remaining) ->
             (forall k, (attempt <= k < attempt + 1 - 1)%nat -> lock_error (operation k) = true)).
  { intros _ _ k Hk. lia. }
  destruct (operation attempt) as [|msg|msg] eqn:Eop.
  - exists 1%nat. cbn [snd fst attempted sleeps flat_map app seq map].
    replace (attempt + 1 - 1)%nat with attempt by lia. rewrite Eop.
    repeat split; try lia; try (intros k Hk; lia).
    now destruct (Qlt_le_dec 0 backoff).
  - destruct (negb (_is_lock_error msg) || (attempts - 1 <=? Z.of_nat attempt)%Z) eqn:Estop.
    + exists 1%nat. cbn [snd fst attempted sleeps flat_map app seq map].
      replace (attempt + 1 - 1)%nat with attempt by lia. rewrite Eop.
      repeat split; try lia; try (intros k Hk; lia); try discriminate;
        try (now destruct (Qlt_le_dec 0 backoff)).
      cbn [lock_error]. intros Hlock. rewrite Hlock in Estop. cbn [negb orb] in Estop.
      apply Z.leb_le in Estop. lia.
    + apply orb_false_iff in Estop. destruct Estop as [Hlock Hnotlast].
      apply negb_false_iff in Hlock. apply Z.leb_gt in Hnotlast.
      destruct (IH (S attempt)) as (made & Hmade & Hatt & Hlocks & Hsleeps & Hdec); try lia.
      destruct (write_loop operation attempts backoff remaining (S attempt))
        as [result events].
      cbn [fst snd] in *. exists (S made).
      split; [lia|]. split; [|split; [|split]].
      * change (Attempted attempt :: ?l) with ([Attempted attempt] ++ l)%list.
        rewrite !attempted_app, Hatt.
        assert (Hs : attempted (if Qlt_le_dec 0 backoff
                                then [Slept (backoff * inject_Z (2 ^ Z.of_nat attempt))]
                                else []) = []) by now destruct (Qlt_le_dec 0 backoff).
        rewrite Hs. reflexivity.
      * intros k Hk. destruct (Nat.eq_dec k attempt) as [->|Hne].
        -- rewrite Eop. exact Hlock.
        -- apply Hlocks. lia.
      * change (Attempted attempt :: ?l) with ([Attempted attempt] ++ l)%list.
        rewrite !sleeps_app, Hsleeps.
        replace (S made - 1)%nat with (S (made - 1)) by lia.
        destruct (Qlt_le_dec 0 backoff); reflexivity.
      * replace (attempt + S made - 1)%nat with (S attempt + made - 1)%nat by lia.
        destruct result as [|exc|]; cbn [decided_by] in *; [exact Hdec| |exact Hdec].
        destruct Hdec as (H1 & H2 & H3). split; [exact H1|]. split; [exact H2|].
        intros Hl. specialize (H3 Hl). lia.
  - exists 1%nat. cbn [snd fst attempted sleeps flat_map app seq map].
    replace (attempt + 1 - 1)%nat with attempt by lia. rewrite Eop.
    repeat split; try lia; try (intros k Hk; lia); try discriminate.
    now destruct (Qlt_le_dec 0 backoff).
Qed.

(** X10. [_run_write] makes between one and [max(0, retries) + 1]
    attempts, numbered from 0; every attempt but the last one made hit a
    lock error; and the last one decides: a commit returns, any other
    outcome is raised unchanged, a lock error only when the attempts are
    used up.  The loop never runs out without one or the other. *)
Theorem _run_write_retries_lock_errors
        (lock_retry_attempts lock_retry_backoff_ms : Z) (operation : nat -> Attempt) :
  let attempts := Z.to_nat (Z.max 0 lock_retry_attempts + 1) in
  let run := _run_write lock_retry_attempts lock_retry_backoff_ms operation in
  exists made,
    (1 <= made <= attempts)%nat
    /\ attempted (snd run) = seq 0 made
    /\ (forall k, (k < made - 1)%nat -> lock_error (operation k) = true)
    /\ decided_by (fst run) (operation (made - 1)%nat) (made = attempts).
Proof.
  intros attempts run. subst run. unfold _run_write. cbv zeta.
  destruct (write_loop_spec operation (Z.max 0 lock_retry_attempts + 1)
                            (inject_Z (Z.max 0 lock_retry_backoff_ms) / 1000)
                            attempts 0%nat)
    as (made & Hmade & Hatt & Hlocks & _ & Hdec); subst attempts; try lia.
  exists made. split; [exact Hmade|]. split; [exact Hatt|]. split.
  - intros k Hk. apply Hlocks. lia.
  - exact Hdec.
Qed.

Lemma sum_pauses (backoff : Q) (n : nat) :
  Repomap.sum_Q (map (pause backoff) (seq 0 n)) == backoff * (inject_Z (2 ^ Z.of_nat n) - 1).
Proof.
  induction n as [|n IH].
  - cbn. ring.
  - rewrite seq_S, map_app. cbn [map Nat.add].
    assert (Happ : forall l x, Repomap.sum_Q (l ++ [x]) == Repomap.sum_Q l + x).
    { induction l as [|y l IHl]; intros x; cbn [Repomap.sum_Q fold_right app].
      - ring.
      - unfold Repomap.sum_Q in IHl. rewrite IHl. ring. }
    rewrite Happ, IH. unfold pause.
    rewrite Nat2Z.inj_succ, Z.pow_succ_r by lia.
    rewrite inject_Z_mult. change (inject_Z 2) with 2. ring.
Qed.

(** X11. Between attempts the store backs off exponentially: with a
    positive back-off of [b] seconds the pauses are [b, 2b, 4b, ...],
    one after every attempt but the last one made, [b * (2^(made-1) - 1)]
    seconds in all; with a back-off that is not positive it never sleeps. *)
Theorem _run_write_backs_off
        (lock_retry_attempts lock_retry_backoff_ms : Z) (operation : nat -> Attempt) :
  let backoff := inject_Z (Z.max 0 lock_retry_backoff_ms) / 1000 in
  let run := _run_write lock_retry_attempts lock_retry_backoff_ms operation in
  let made := List.length (attempted (snd run)) in
  ((0 < lock_retry_backoff_ms)%Z ->
   sleeps (snd run) = map (pause backoff) (seq 0 (made - 1))
   /\ Repomap.sum_Q (sleeps (snd run)) == backoff * (inject_Z (2 ^ Z.of_nat (made - 1)) - 1))
  /\ ((lock_retry_backoff_ms <= 0)%Z -> sleeps (snd run) = []).
Proof.
  intros backoff run made. subst run made. unfold _run_write. cbv zeta.
  destruct (write_loop_spec operation (Z.max 0 lock_retry_attempts + 1) backoff
                            (Z.to_nat (Z.max 0 lock_retry_attempts + 1)) 0%nat)
    as (made & Hmade & Hatt & _ & Hsleeps & _); try lia.
  fold backoff. rewrite Hatt, length_seq. split.
  - intros Hpos.
    assert (Hb : 0 < backoff).
    { unfold backoff. apply Qlt_shift_div_l; [reflexivity|].
      rewrite Qmult_0_l. change 0 with (inject_Z 0). rewrite <- Zlt_Qlt. lia. }
    destruct (Qlt_le_dec 0 backoff) as [_|Hle]; [|exfalso; eapply Qlt_not_le; eassumption].
    split; [exact Hsleeps|]. rewrite Hsleeps. apply sum_pauses.
  - intros Hneg.
    assert (Hb : backoff <= 0).
    { unfold backoff. rewrite Z.max_l by lia. vm_compute. discriminate. }
    destruct (Qlt_le_dec 0 backoff) as [Hlt|_]; [exfalso; eapply Qlt_not_le; eassumption|].
    exact Hsleeps.
Qed.

End StoreWritesFacts.

(* ================================================================== *)
(** * Further properties: import resolution and the dependency graph *)
(* ================================================================== *)

Module DependencyEdgesFacts.
Import PyStr Repomap DependencyEdges TextFacts SplitFacts.

(** ** [_normalize_rel] *)

(** A segment of a normalized path. *)
Definition plain_segment (p : string) : Prop :=
  p <> "" /\ p <> "." /\ p <> ".." /\ no_sep "/" p /\ no_sep backslash p.

Lemma Forall_removelast {A : Type} (P : A -> Prop) (l : list A) :
  Forall P l -> Forall P (removelast l).
Proof.
  induction 1 as [|x l Hx Hl IH]; cbn [removelast]; [constructor|].
  destruct l; [constructor|]. now constructor.
Qed.

Lemma normalize_pieces_plain (pieces : list string) :
  forall parts parts',
    Forall (fun p => no_sep "/" p /\ no_sep backslash p) pieces ->
    Forall plain_segment parts ->
    normalize_pieces pieces parts = Some parts' ->
    Forall plain_segment parts'.
Proof.
  induction pieces as [|piece rest IH]; intros parts parts' Hp Hparts H; cbn [normalize_pieces] in H.
  - now injection H as <-.
  - inversion Hp as [|? ? [Hs Hb] Hrest]; subst.
    destruct (String.eqb piece "" || String.eqb piece ".") eqn:E1; [now apply (IH parts)|].
    destruct (String.eqb piece "..") eqn:E2.
    + destruct parts as [|x parts]; [discriminate|].
      apply (IH _ _ Hrest) in H; [exact H|]. now apply Forall_removelast.
    + apply (IH _ _ Hrest) in H; [exact H|].
      apply Forall_app. split; [exact Hparts|]. constructor; [|constructor].
      apply orb_false_iff in E1. destruct E1 as [Ea Eb].
      apply String.eqb_neq in Ea, Eb, E2. repeat split; assumption.
Qed.

Lemma normalize_pieces_fixed (pieces : list string) :
  forall parts,
    Forall plain_segment pieces ->
    normalize_pieces pieces parts = Some (parts ++ pieces)%list.
Proof.
  induction pieces as [|piece rest IH]; intros parts H; cbn [normalize_pieces].
  - now rewrite app_nil_r.
  - inversion H as [|? ? (Ha & Hb & Hc & _) Hrest]; subst.
    apply String.eqb_neq in Ha, Hb, Hc. rewrite Ha, Hb, Hc. cbn [orb].
    rewrite IH by exact Hrest. now rewrite <- app_assoc.
Qed.

Lemma replace_char_chars (a b : ascii) (s : string) :
  chars (replace_char a b s) = map (fun c => if Ascii.eqb c a then b else c) (chars s).
Proof. unfold replace_char. apply chars_of_chars. Qed.

Lemma replace_char_no_sep (s : string) : no_sep backslash (replace_char backslash "/" s).
Proof.
  unfold no_sep. rewrite replace_char_chars. apply Forall_forall. intros c Hc.
  apply in_map_iff in Hc. destruct Hc as (c' & <- & _).
  destruct (Ascii.eqb c' backslash) eqn:E; [reflexivity|exact E].
Qed.

Lemma replace_char_absent (a b : ascii) (s : string) :
  no_sep a s -> replace_char a b s = s.
Proof.
  intros H. unfold replace_char. rewrite <- (of_chars_chars s) at 2. f_equal.
  unfold no_sep in H. induction H as [|c l Hc _ IH]; cbn [map]; [reflexivity|].
  now rewrite Hc, IH.
Qed.

(** A piece of a split holds only characters of the whole. *)
Lemma split_acc_chars (sep : ascii) (P : ascii -> Prop) (s cur : string) :
  Forall P (chars s) -> Forall P (chars cur) ->
  Forall (fun p => Forall P (chars p)) (split_acc sep s cur).
Proof.
  revert cur. induction s as [|c s IH]; intros cur Hs Hcur; cbn [split_acc].
  - now repeat constructor.
  - inversion Hs as [|? ? Hc Hs']; subst. destruct (Ascii.eqb c sep).
    + constructor; [exact Hcur|]. apply IH; [exact Hs'|constructor].
    + apply IH; [exact Hs'|]. rewrite chars_app. apply Forall_app. split; [exact Hcur|].
      now repeat constructor.
Qed.

Lemma join_no_sep (c : ascii) (parts : list string) :
  Ascii.eqb "/" c = false -> Forall (no_sep c) parts -> no_sep c (join "/" parts).
Proof.
  intros Hc H. induction H as [|p rest Hp Hrest IH]; [constructor|].
  destruct rest as [|q rest]; [exact Hp|].
  change (join "/" (p :: q :: rest)) with (p ++ "/" ++ join "/" (q :: rest)).
  apply no_sep_app; [exact Hp|]. apply no_sep_app; [|exact IH].
  now repeat constructor.
Qed.

Lemma normalized_parts (path : string) (parts : list string) :
  normalize_pieces (split "/" (replace_char backslash "/" path)) [] = Some parts ->
  Forall plain_segment parts.
Proof.
  apply normalize_pieces_plain; [|constructor].
  pose proof (split_no_sep "/" (replace_char backslash "/" path)) as Hs.
  pose proof (split_acc_chars "/" (fun c => Ascii.eqb c backslash = false)
                              (replace_char backslash "/" path) ""
                              (replace_char_no_sep path) (Forall_nil _)) as Hb.
  rewrite Forall_forall in Hs, Hb. apply Forall_forall. intros p Hp.
  split; [now apply Hs|now apply Hb].
Qed.

Lemma _normalize_rel_of_parts (parts : list string) :
  Forall plain_segment parts -> _normalize_rel (join "/" parts) = join "/" parts.
Proof.
  intros H. unfold _normalize_rel.
  rewrite replace_char_absent.
  - destruct parts as [|p rest]; [reflexivity|].
    rewrite split_join; [|apply Forall_forall; intros x Hx; rewrite Forall_forall in H;
                          now apply H|discriminate].
    now rewrite normalize_pieces_fixed.
  - apply join_no_sep; [reflexivity|]. apply Forall_forall. intros x Hx.
    rewrite Forall_forall in H. now apply H.
Qed.

(** X12. [_normalize_rel] is idempotent; its result holds no backslash,
    and is either empty or a [/]-separated list of segments none of
    which is empty, [.] or [..]; a path that starts by climbing out of
    the root normalizes to the empty string. *)
Theorem _normalize_rel_canonical (path : string) :
  _normalize_rel (_normalize_rel path) = _normalize_rel path
  /\ no_sep backslash (_normalize_rel path)
  /\ (_normalize_rel path = ""
      \/ Forall (fun p => p <> "" /\ p <> "." /\ p <> "..") (split "/" (_normalize_rel path)))
  /\ _normalize_rel ("../" ++ path) = "".
Proof.
  assert (Hup : _normalize_rel ("../" ++ path) = "") by reflexivity.
  rewrite Hup. clear Hup.
  cut (_normalize_rel (_normalize_rel path) = _normalize_rel path
       /\ no_sep backslash (_normalize_rel path)
       /\ (_normalize_rel path = ""
           \/ Forall (fun p => p <> "" /\ p <> "." /\ p <> "..")
                     (split "/" (_normalize_rel path)))); [tauto|].
  destruct (normalize_pieces (split "/" (replace_char backslash "/" path)) []) as [parts|] eqn:E.
  - pose proof (normalized_parts path parts E) as Hparts.
    assert (Hr : _normalize_rel path = join "/" parts) by (unfold _normalize_rel; now rewrite E).
    rewrite Hr.
    split; [now apply _normalize_rel_of_parts|]. split.
    + apply join_no_sep; [reflexivity|]. apply Forall_forall. intros x Hx.
      rewrite Forall_forall in Hparts. now apply Hparts.
    + destruct parts as [|p rest]; [now left|right].
      rewrite split_join; [| |discriminate].
      * apply Forall_forall. intros x Hx. rewrite Forall_forall in Hparts.
        destruct (Hparts x Hx) as (H1 & H2 & H3 & _). auto.
      * apply Forall_forall. intros x Hx. rewrite Forall_forall in Hparts.
        now apply Hparts.
  - assert (Hr : _normalize_rel path = "") by (unfold _normalize_rel; now rewrite E).
    rewrite Hr. split; [reflexivity|]. split; [constructor|now left].
Qed.

(** ** The Python module index *)

(** [rel] is a [.py] file whose dotted module name is [m]. *)
Definition names_module (m : string) (rel : string) : bool :=
  match module_name_of rel with
  | Some n => String.eqb n m
  | None => false
  end.

Lemma index_fold_lookup (paths : list string) (m : string) :
  forall index,
    dict_lookup
      (fold_left (fun index rel =>
                    match module_name_of rel with
                    | None => index
                    | Some module_name =>
                        if negb (String.eqb module_name "") && negb (has_key index module_name)
                        then dict_set index module_name rel
                        else index
                    end) paths index) m
    = match dict_lookup index m with
      | Some rel => Some rel
      | None => if String.eqb m "" then None else find (names_module m) paths
      end.
Proof.
  induction paths as [|rel paths IH]; intros index; cbn [fold_left find].
  - destruct (dict_lookup index m); [reflexivity|]. now destruct (String.eqb m "").
  - rewrite IH. unfold names_module at 2.
    destruct (module_name_of rel) as [n|]; [|reflexivity].
    destruct (String.eqb n "") eqn:En; cbn [negb andb].
    + apply String.eqb_eq in En. subst n.
      destruct (dict_lookup index m); [reflexivity|].
      rewrite (String.eqb_sym "" m). now destruct (String.eqb m "").
    + unfold has_key. destruct (dict_lookup index n) as [r|] eqn:Ln; cbn [negb].
      * destruct (dict_lookup index m) eqn:Lm; [reflexivity|].
        destruct (String.eqb n m) eqn:Enm; [|reflexivity].
        apply String.eqb_eq in Enm. subst n. congruence.
      * rewrite RepomapSpec.dict_lookup_set.
        destruct (String.eqb n m) eqn:Enm.
        -- apply String.eqb_eq in Enm. subst n. rewrite Ln, En. reflexivity.
        -- reflexivity.
Qed.

Lemma _build_python_module_index_lookup (paths : list string) (m : string) :
  dict_lookup (_build_python_module_index paths) m
  = if String.eqb m "" then None else find (names_module m) paths.
Proof. unfold _build_python_module_index. now rewrite index_fold_lookup. Qed.

(** X13. An absolute Python import resolves exactly when one of the
    analysed paths is a [.py] file with that dotted module name, and then
    to such a path. *)
Theorem absolute_python_import_resolves
        (source_path target : string) (paths : list string) :
  target <> "" ->
  startswith target "." = false ->
  let resolved :=
    _resolve_python_import source_path target (_build_python_module_index paths) in
  (forall dst, resolved = Some dst -> In dst paths /\ module_name_of dst = Some target)
  /\ ((exists rel, In rel paths /\ module_name_of rel = Some target) ->
      exists dst, resolved = Some dst).
Proof.
  intros Hne Hdot resolved. subst resolved. unfold _resolve_python_import.
  apply String.eqb_neq in Hne. rewrite Hne, Hdot.
  rewrite _build_python_module_index_lookup, Hne. split.
  - intros dst Hfind. apply find_some in Hfind. destruct Hfind as [Hin Hname].
    split; [exact Hin|]. unfold names_module in Hname.
    destruct (module_name_of dst) as [n|]; [|discriminate].
    apply String.eqb_eq in Hname. now subst.
  - intros (rel & Hin & Hname).
    destruct (find (names_module target) paths) as [dst|] eqn:E; [now exists dst|].
    exfalso. pose proof (find_none _ _ E rel Hin) as Hn.
    unfold names_module in Hn. rewrite Hname, String.eqb_refl in Hn. discriminate.
Qed.

Lemma absolute_python_import_resolves_witness :
  let resolved :=
    _resolve_python_import "src/app.py" "pkg.util"
                           (_build_python_module_index ["src/app.py"; "pkg/util.py"]) in
  (forall dst, resolved = Some dst ->
               In dst ["src/app.py"; "pkg/util.py"] /\ module_name_of dst = Some "pkg.util")
  /\ ((exists rel, In rel ["src/app.py"; "pkg/util.py"] /\ module_name_of rel = Some "pkg.util") ->
      exists dst, resolved = Some dst).
Proof.
  apply (absolute_python_import_resolves "src/app.py" "pkg.util" ["src/app.py"; "pkg/util.py"]).
  - discriminate.
  - reflexivity.
Defined.

(** ** The edges *)

Lemma edge_eqb_eq (a b : Edge) : edge_eqb a b = true <-> a = b.
Proof.
  destruct a as [a1 a2], b as [b1 b2]. unfold edge_eqb. cbn [fst snd].
  rewrite andb_true_iff, !String.eqb_eq. split; [intros [-> ->]; reflexivity|].
  intros E. now injection E.
Qed.

Lemma add_edge_In (e x : Edge) (edges : list Edge) :
  In x (add_edge e edges) <-> x = e \/ In x edges.
Proof.
  unfold add_edge. destruct (existsb (edge_eqb e) edges) eqn:E.
  - apply existsb_exists in E. destruct E as (y & Hy & Heq). apply edge_eqb_eq in Heq. subst y.
    split; [now right|]. intros [->|H]; assumption.
  - rewrite in_app_iff. cbn [In]. intuition.
Qed.

Lemma add_edge_NoDup (e : Edge) (edges : list Edge) : NoDup edges -> NoDup (add_edge e edges).
Proof.
  intros H. unfold add_edge. destruct (existsb (edge_eqb e) edges) eqn:E; [exact H|].
  apply NoDup_app; [exact H|repeat constructor; auto|].
  intros x Hx [<-|[]].
  assert (Ht : existsb (edge_eqb e) edges = true).
  { apply existsb_exists. exists e. split; [exact Hx|now apply edge_eqb_eq]. }
  congruence.
Qed.

(** The edges an analysis contributes. *)
Definition resolves_to (available_paths : list string) (index : dict string)
           (analysis : RepoMapFileAnalysis) (dst : string) : Prop :=
  exists raw_target,
    In raw_target (imports analysis)
    /\ import_edge index available_paths (a_path analysis)
                   (lower (path_suffix (a_path analysis))) raw_target = Some dst.

Lemma imports_fold (available_paths : list string) (index : dict string)
      (src suffix : string) (targets : list string) :
  forall edges,
    NoDup edges ->
    let edges' :=
      fold_left (fun edges raw_target =>
                   match import_edge index available_paths src suffix raw_target with
                   | Some dst => add_edge (src, dst) edges
                   | None => edges
                   end) targets edges in
    NoDup edges'
    /\ forall e, In e edges' <->
                 In e edges
                 \/ exists raw_target,
                      In raw_target targets
                      /\ import_edge index available_paths src suffix raw_target = Some (snd e)
                      /\ fst e = src.
Proof.
  induction targets as [|t targets IH]; intros edges Hnd; cbn [fold_left].
  - split; [exact Hnd|]. intros e. split; [now left|]. intros [H|(r & [] & _)]. exact H.
  - destruct (import_edge index available_paths src suffix t) as [dst|] eqn:Et.
    + destruct (IH (add_edge (src, dst) edges) (add_edge_NoDup _ _ Hnd)) as [H1 H2].
      split; [exact H1|]. intros e. rewrite H2, add_edge_In. split.
      * intros [[->|H]|(r & Hr & Hi & Hs)].
        -- right. exists t. cbn [fst snd]. auto using in_eq.
        -- now left.
        -- right. exists r. auto using in_cons.
      * intros [H|(r & [<-|Hr] & Hi & Hs)].
        -- left. now right.
        -- left. left. destruct e as [e1 e2]. cbn [fst snd] in *. congruence.
        -- right. exists r. auto.
    + destruct (IH edges Hnd) as [H1 H2]. split; [exact H1|].
      intros e. rewrite H2. split.
      * intros [H|(r & Hr & Hi & Hs)]; [now left|]. right. exists r. auto using in_cons.
      * intros [H|(r & [<-|Hr] & Hi & Hs)]; [now left|congruence|]. right. exists r. auto.
Qed.

Lemma analyses_fold (available_paths : list string) (index : dict string)
      (analyses : list RepoMapFileAnalysis) :
  forall edges,
    NoDup edges ->
    let edges' :=
      fold_left (fun edges analysis =>
                   let src := a_path analysis in
                   let suffix := lower (path_suffix src) in
                   fold_left (fun edges raw_target =>
                                match import_edge index available_paths src suffix
                                                  raw_target with
                                | Some dst => add_edge (src, dst) edges
                                | None => edges
                                end) (imports analysis) edges)
                analyses edges in
    NoDup edges'
    /\ forall e, In e edges' <->
                 In e edges
                 \/ exists analysis,
                      In analysis analyses /\ a_path analysis = fst e
                      /\ resolves_to available_paths index analysis (snd e).
Proof.
  induction analyses as [|a analyses IH]; intros edges Hnd; cbn [fold_left].
  - split; [exact Hnd|]. intros e. split; [now left|]. intros [H|(r & [] & _)]. exact H.
  - cbv zeta.
    destruct (imports_fold available_paths index (a_path a) (lower (path_suffix (a_path a)))
                           (imports a) edges Hnd) as [H1 H2].
    destruct (IH _ H1) as [H3 H4]. split; [exact H3|].
    intros e. rewrite H4, H2. unfold resolves_to. split.
    + intros [[H|(r & Hr & Hi & Hs)]|(x & Hx & Hp & Hres)].
      * now left.
      * right. exists a. split; [now left|]. split; [now symmetry|]. now exists r.
      * right. exists x. split; [now right|]. auto.
    + intros [H|(x & [<-|Hx] & Hp & (r & Hr & Hi))].
      * left. now left.
      * left. right. exists r. auto.
      * right. exists x. split; [exact Hx|]. split; [exact Hp|]. now exists r.
Qed.

Definition edge_le (a b : Edge) : Prop := edge_leb a b = true.

Lemma edge_leb_total (a b : Edge) : edge_leb a b = false -> edge_leb b a = true.
Proof.
  unfold edge_leb. rewrite (String.eqb_sym (fst b) (fst a)).
  destruct (String.eqb (fst a) (fst b)); intros H.
  - destruct (String.leb_total (snd a) (snd b)); congruence.
  - destruct (String.leb_total (fst a) (fst b)); congruence.
Qed.

Lemma insert_edge_perm (x : Edge) (l : list Edge) : Permutation (insert_edge x l) (x :: l).
Proof.
  induction l as [|y l IH]; cbn [insert_edge]; [reflexivity|].
  destruct (edge_leb x y); [reflexivity|]. rewrite IH. apply perm_swap.
Qed.

Lemma sort_edges_perm (l : list Edge) : Permutation (sort_edges l) l.
Proof.
  unfold sort_edges. induction l as [|x l IH]; cbn [fold_right]; [reflexivity|].
  rewrite insert_edge_perm. now constructor.
Qed.

Lemma insert_edge_Sorted (x : Edge) (l : list Edge) :
  Sorted edge_le l -> Sorted edge_le (insert_edge x l).
Proof.
  induction 1 as [|y l Hs IH Hhd]; cbn [insert_edge].
  - repeat constructor.
  - destruct (edge_leb x y) eqn:E.
    + constructor; [now constructor|]. now constructor.
    + constructor; [exact IH|]. apply edge_leb_total in E.
      destruct l as [|z l]; cbn [insert_edge]; [now constructor|].
      destruct (edge_leb x z); constructor; [exact E|]. now inversion Hhd.
Qed.

Lemma sort_edges_Sorted (l : list Edge) : Sorted edge_le (sort_edges l).
Proof.
  unfold sort_edges. induction l as [|x l IH]; cbn [fold_right]; [constructor|].
  now apply insert_edge_Sorted.
Qed.

Lemma import_edge_guard (index : dict string) (available_paths : list string)
      (src suffix raw_target dst : string) :
  import_edge index available_paths src suffix raw_target = Some dst ->
  dst <> "" /\ dst <> src /\ In dst available_paths.
Proof.
  unfold import_edge. cbv zeta.
  destruct (String.eqb (strip_space _) ""); [discriminate|].
  match goal with |- match ?scrutinee with _ => _ end = _ -> _ =>
    destruct scrutinee as [d|] end; [|discriminate].
  destruct (negb (String.eqb d "") && negb (String.eqb d src) && mem d available_paths) eqn:G;
    [|discriminate].
  intros E. injection E as <-.
  apply andb_true_iff in G. destruct G as [G G3]. apply andb_true_iff in G.
  destruct G as [G1 G2]. apply negb_true_iff in G1, G2. apply String.eqb_neq in G1, G2.
  apply ListFacts.mem_In in G3. auto.
Qed.

(** X14. The dependency graph is a duplicate-free list of edges in
    ascending order; it holds an edge [(src, dst)] exactly when an import
    of the analysed file [src] resolves to [dst]; and every edge joins two
    different analysed files, so PageRank drops none of them. *)
Theorem dependency_edges_join_analysed_files (analyses : list RepoMapFileAnalysis) :
  let edges := _build_dependency_edges analyses in
  let paths := to_set (map a_path analyses) in
  NoDup edges
  /\ Sorted edge_le edges
  /\ (forall src dst,
        In (src, dst) edges <->
        exists analysis,
          In analysis analyses /\ a_path analysis = src
          /\ resolves_to paths (_build_python_module_index paths) analysis dst)
  /\ (forall src dst,
        In (src, dst) edges ->
        src <> dst /\ In src (map a_path analyses) /\ In dst (map a_path analyses)).
Proof.
  intros edges paths. subst edges. unfold _build_dependency_edges. cbv zeta. fold paths.
  destruct (analyses_fold paths (_build_python_module_index paths) analyses []
                          (NoDup_nil _)) as [Hnd Hin].
  cbv zeta in Hnd, Hin.
  set (collected := fold_left _ analyses []) in *.
  assert (Hiff : forall src dst,
             In (src, dst) (sort_edges collected) <->
             exists analysis,
               In analysis analyses /\ a_path analysis = src
               /\ resolves_to paths (_build_python_module_index paths) analysis dst).
  { intros src dst. split.
    - intros H. apply (Permutation_in _ (sort_edges_perm _)) in H.
      apply Hin in H. destruct H as [[]|H]. exact H.
    - intros H. apply (Permutation_in _ (Permutation_sym (sort_edges_perm _))).
      apply Hin. now right. }
  split; [|split; [|split]].
  - eapply Permutation_NoDup; [symmetry; apply sort_edges_perm|exact Hnd].
  - apply sort_edges_Sorted.
  - exact Hiff.
  - intros src dst H. apply Hiff in H. destruct H as (a & Ha & Hp & (r & Hr & Hi)).
    apply import_edge_guard in Hi. destruct Hi as (_ & Hne & Hdst). subst src.
    split; [congruence|]. split; [now apply in_map|].
    unfold paths, to_set in Hdst. now apply nodup_In in Hdst.
Qed.

End DependencyEdgesFacts.

(* ================================================================== *)
(** * Further properties: symbol summaries *)
(* ================================================================== *)

Module SymbolsFacts.
Import PyStr Symbols.






End SymbolsFacts.

(* ================================================================== *)
(** * Further properties: the repo-map engine *)
(* ================================================================== *)

Module RepomapFacts.
Import PyStr Repomap TextFacts SplitFacts SortFacts RepomapSpec.
Open Scope Q_scope.

(** ** File discovery *)

(** What the discovery loops keep true of the files found so far. *)
Definition clean_files (ignored_names : list string) (files : list string) : Prop :=
  NoDup files
  /\ Forall (fun rel => rel <> "" /\ _ignored rel ignored_names = false) files.

Lemma clean_files_add (ignored_names : list string) (files : list string) (rel : string) :
  clean_files ignored_names files ->
  rel <> "" -> mem rel files = false -> _ignored rel ignored_names = false ->
  clean_files ignored_names (files ++ [rel]).
Proof.
  intros [Hnd Hall] Hne Hmem Hign. split.
  - apply NoDup_app; [exact Hnd|repeat constructor; auto|].
    intros x Hx [<-|[]]. apply ListFacts.mem_In in Hx. congruence.
  - apply Forall_app. split; [exact Hall|]. now repeat constructor.
Qed.

Lemma add_files_clean (ignored_names : list string) (dir : string)
      (filenames : list (string * bool)) :
  forall discovered,
    clean_files ignored_names discovered ->
    clean_files ignored_names (add_files ignored_names dir filenames discovered).
Proof.
  unfold add_files. induction filenames as [|[filename t] rest IH]; intros discovered H;
    cbn [fold_left]; [exact H|].
  apply IH.
  destruct (String.eqb (rel_join dir filename) "") eqn:E1; cbn [orb]; [exact H|].
  destruct (mem (rel_join dir filename) discovered) eqn:E2; cbn [orb]; [exact H|].
  destruct (_ignored (rel_join dir filename) ignored_names) eqn:E3; [exact H|].
  destruct t; cbn [negb]; [|exact H].
  apply clean_files_add; auto. now apply String.eqb_neq.
Qed.

Lemma walk_visits_clean (w : World) (timeout : option Z) (ignored_names : list string)
      (visits : list (string * list (string * bool))) :
  forall discovered st found,
    clean_files ignored_names discovered ->
    fst (walk_visits w timeout ignored_names visits discovered st) = inl found ->
    clean_files ignored_names found.
Proof.
  induction visits as [|[dir filenames] rest IH]; intros discovered st found H;
    cbn [walk_visits].
  - unfold rret. cbn [fst]. intros E.
    assert (Ed : discovered = found) by congruence. now subst.
  - unfold rbind, emit.
    destruct (_timed_out w timeout _) as [expired st1].
    destruct expired; [unfold rret; cbn [fst]; discriminate|].
    apply IH. now apply add_files_clean.
Qed.

Lemma walk_visits_raises (w : World) (timeout : option Z) (ignored_names : list string)
      (visits : list (string * list (string * bool))) :
  forall discovered st raised,
    fst (walk_visits w timeout ignored_names visits discovered st) = inr raised ->
    raised = RaisedTimeout.
Proof.
  induction visits as [|[dir filenames] rest IH]; intros discovered st raised;
    cbn [walk_visits].
  - unfold rret. cbn [fst]. discriminate.
  - unfold rbind, emit.
    destruct (_timed_out w timeout _) as [expired st1].
    destruct expired; [unfold rret; cbn [fst]; congruence|].
    apply IH.
Qed.

Lemma discover_scope_clean (w : World) (timeout : option Z) (ignored_names : list string)
      (scope : list string) :
  forall discovered st files,
    clean_files ignored_names discovered ->
    fst (discover_scope w timeout ignored_names scope discovered st) = Discovered files ->
    exists found, clean_files ignored_names found /\ files = sorted found.
Proof.
  induction scope as [|entry rest IH]; intros discovered st files H;
    cbn -[os_walk walk_visits].
  - unfold rret. cbn [fst]. intros E.
    assert (Ed : files = sorted discovered) by congruence. now exists discovered.
  - unfold rbind, emit.
    destruct (_timed_out w timeout st) as [expired st1].
    destruct expired; [unfold rret; cbn [fst]; discriminate|].
    destruct (resolve_scope w entry) as [| |msg|rel t|rel children].
    + now apply IH.
    + now apply IH.
    + unfold rret. cbn [fst]. discriminate.
    + apply IH.
      destruct (String.eqb rel "") eqn:E1; cbn [negb andb]; [exact H|].
      destruct (mem rel discovered) eqn:E2; cbn [negb andb]; [exact H|].
      destruct (_ignored rel ignored_names) eqn:E3; cbn [negb andb]; [exact H|].
      destruct t; [|exact H].
      apply clean_files_add; auto. now apply String.eqb_neq.
    + pose proof (walk_visits_clean w timeout ignored_names
                                    (os_walk ignored_names rel children) discovered
                                    (mkRunState (ticks st1) (trace st1 ++ [ResolveScope entry])))
        as Hwalk.
      pose proof (walk_visits_raises w timeout ignored_names
                                     (os_walk ignored_names rel children) discovered
                                     (mkRunState (ticks st1) (trace st1 ++ [ResolveScope entry])))
        as Hraise.
      destruct (walk_visits w timeout ignored_names (os_walk ignored_names rel children)
                            discovered _) as [[found|raised] st2].
      * apply IH. now apply (Hwalk found).
      * unfold rret. cbn [fst]. intros E. subst raised.
        specialize (Hraise _ eq_refl). discriminate.
Qed.

(** The directory segments of a relative path. *)
Definition dir_segments (rel : string) : list string :=
  removelast (filter (fun part => negb (String.eqb part ""))
                     (split "/" (replace_char backslash "/" rel))).

Lemma not_ignored_dirs (rel : string) (ignored_names : list string) :
  _ignored rel ignored_names = false ->
  forall d, In d (dir_segments rel) -> ~ In d ignored_names.
Proof.
  unfold _ignored. destruct (String.eqb rel ""); [discriminate|].
  fold (dir_segments rel).
  destruct (existsb (fun part => mem part ignored_names) (dir_segments rel)) eqn:E;
    [discriminate|].
  intros _ d Hd Hin.
  assert (Ht : existsb (fun part => mem part ignored_names) (dir_segments rel) = true).
  { apply existsb_exists. exists d. split; [exact Hd|now apply ListFacts.mem_In]. }
  congruence.
Qed.

(** X15. What [_discover_files] returns is in ascending order and free
    of duplicates; no file in it is the empty path or is ignored; in
    particular none lies under a directory whose name is among the
    default ignored names or the configured ones. *)
Theorem discovered_files_are_clean
        (w : World) (scope ignored_dirs : list string) (timeout : option Z)
        (st : RunState) (files : list string) :
  fst (_discover_files w scope ignored_dirs timeout st) = Discovered files ->
  let ignored_names := PyStr.union DEFAULT_IGNORED_DIRS ignored_dirs in
  Sorted leb_order files
  /\ NoDup files
  /\ (forall rel, In rel files ->
        rel <> ""
        /\ _ignored rel ignored_names = false
        /\ forall d, In d (dir_segments rel) ->
                     ~ In d DEFAULT_IGNORED_DIRS /\ ~ In d ignored_dirs).
Proof.
  intros Hrun ignored_names. unfold _discover_files in Hrun. cbv zeta in Hrun.
  fold ignored_names in Hrun.
  apply discover_scope_clean in Hrun; [|split; constructor].
  destruct Hrun as (found & [Hnd Hall] & ->).
  split; [apply sorted_Sorted|]. split; [now apply sorted_NoDup|].
  intros rel Hrel. apply (proj1 (sorted_In _ _)) in Hrel. rewrite Forall_forall in Hall.
  destruct (Hall rel Hrel) as [Hne Hign]. split; [exact Hne|]. split; [exact Hign|].
  intros d Hd. pose proof (not_ignored_dirs rel ignored_names Hign d Hd) as Hnot.
  unfold ignored_names, PyStr.union, to_set in Hnot. rewrite nodup_In, in_app_iff in Hnot.
  tauto.
Qed.

(** A tree with a vendored directory and a hidden file beside the source. *)
Definition vendored_world : World :=
  mkWorld (fun n => Z.of_nat n) true (fun p => String.eqb p "/repo/src")
          (fun entry => if String.eqb entry "src"
                        then IsDir "src" [FsFile "main.py" true;
                                          FsFile "app.py" true;
                                          FsFile ".secret" true;
                                          FsDir "node_modules" [FsFile "dep.js" true];
                                          FsDir "vendor" [FsFile "lib.py" true];
                                          FsDir "pkg" [FsFile "util.py" true;
                                                       FsFile "logo.png" false]]
                        else Missing)
          (fun _ => None) no_analysis "2026-01-01T00:00:00Z" [].

Lemma discovered_files_are_clean_witness :
  let ignored_names := PyStr.union DEFAULT_IGNORED_DIRS ["vendor"] in
  let files := ["src/app.py"; "src/main.py"; "src/pkg/util.py"] in
  Sorted leb_order files
  /\ NoDup files
  /\ (forall rel, In rel files ->
        rel <> ""
        /\ _ignored rel ignored_names = false
        /\ forall d, In d (dir_segments rel) ->
                     ~ In d DEFAULT_IGNORED_DIRS /\ ~ In d ["vendor"]).
Proof.
  apply (discovered_files_are_clean vendored_world ["src"] ["vendor"] None fresh).
  vm_compute. reflexivity.
Defined.

(** ** The ranking order *)

(** The order of [scored.sort(key=lambda item: (-item.score, item.path))]:
    higher score first, ties by ascending path. *)
Definition ranked_before (x y : RepoMapRankingEntry) : Prop :=
  score y < score x \/ (score x == score y /\ String.leb (path x) (path y) = true).

Lemma key_le_ranked (x y : RepoMapRankingEntry) : key_le x y = true -> ranked_before x y.
Proof.
  unfold key_le, ranked_before. intros H. apply orb_true_iff in H. destruct H as [H|H].
  - left. apply negb_true_iff in H. apply Qnot_le_lt. intros Hle.
    apply Qle_bool_iff in Hle. congruence.
  - right. apply andb_true_iff in H. destruct H as [H1 H2].
    apply Qeq_bool_iff in H1. now split.
Qed.

Lemma key_le_not_ranked (x y : RepoMapRankingEntry) : key_le x y = false -> ranked_before y x.
Proof.
  unfold key_le, ranked_before. intros H. apply orb_false_iff in H. destruct H as [H1 H2].
  apply negb_false_iff in H1. apply Qle_bool_iff in H1.
  destruct (Qlt_le_dec (score x) (score y)) as [Hlt|Hge]; [now left|right].
  assert (E : score x == score y) by (apply Qle_antisym; assumption).
  split; [now symmetry|].
  apply andb_false_iff in H2. destruct H2 as [H2|H2].
  - exfalso. apply Qeq_bool_iff in E. congruence.
  - destruct (String.leb_total (path x) (path y)); congruence.
Qed.

Lemma ranked_before_trans (x y z : RepoMapRankingEntry) :
  ranked_before x y -> ranked_before y z -> ranked_before x z.
Proof.
  unfold ranked_before. intros [H1|[E1 L1]] [H2|[E2 L2]].
  - left. eapply Qlt_trans; eassumption.
  - left. now rewrite <- E2.
  - left. now rewrite E1.
  - right. split; [now rewrite E1|]. eapply leb_trans; eassumption.
Qed.

Lemma insert_ranked_ordered (x : RepoMapRankingEntry) (l : list RepoMapRankingEntry) :
  StronglySorted ranked_before l -> StronglySorted ranked_before (insert_ranked x l).
Proof.
  induction 1 as [|z l Hsorted IH Hall]; cbn [insert_ranked].
  - repeat constructor.
  - destruct (key_le x z) eqn:E.
    + apply key_le_ranked in E. constructor; [now constructor|].
      constructor; [exact E|]. eapply Forall_impl; [|exact Hall].
      intros y Hy. eapply ranked_before_trans; eassumption.
    + apply key_le_not_ranked in E. constructor; [exact IH|].
      apply Forall_forall. intros y Hy. apply insert_ranked_In in Hy.
      destruct Hy as [->|Hy]; [exact E|].
      rewrite Forall_forall in Hall. now apply Hall.
Qed.

Lemma sort_ranked_ordered (l : list RepoMapRankingEntry) :
  StronglySorted ranked_before (sort_ranked l).
Proof.
  induction l as [|x l IH]; cbn [sort_ranked fold_right]; [constructor|].
  now apply insert_ranked_ordered.
Qed.

Lemma insert_ranked_perm (x : RepoMapRankingEntry) (l : list RepoMapRankingEntry) :
  Permutation (insert_ranked x l) (x :: l).
Proof.
  induction l as [|y l IH]; cbn [insert_ranked]; [reflexivity|].
  destruct (key_le x y); [reflexivity|]. rewrite IH. apply perm_swap.
Qed.

Lemma sort_ranked_perm (l : list RepoMapRankingEntry) : Permutation (sort_ranked l) l.
Proof.
  unfold sort_ranked. induction l as [|x l IH]; cbn [fold_right]; [reflexivity|].
  rewrite insert_ranked_perm. now constructor.
Qed.

(** X16. [_rank_files] returns the [max(0, max_files)] best entries (all
    of them when there are fewer), one per analysed file, ordered by
    descending score with ties broken by ascending path; no score is
    negative; and when the limit covers every file the ranking is a
    reordering of the scored analyses. *)
Theorem _rank_files_ordered_and_bounded
        (analyses : list RepoMapFileAnalysis) (focus_files : list string)
        (max_files : Z) (graph_scores : dict Q) :
  let ranking := _rank_files analyses focus_files max_files graph_scores in
  let scored :=
    map (rank_entry (focus_set focus_files) (focus_basenames_set focus_files) graph_scores)
        analyses in
  StronglySorted ranked_before ranking
  /\ Forall (fun e => 0 <= score e) ranking
  /\ List.length ranking = Nat.min (Z.to_nat (Z.max 0 max_files)) (List.length analyses)
  /\ (forall e, In e ranking -> In e scored)
  /\ ((Z.of_nat (List.length analyses) <= max_files)%Z -> Permutation ranking scored).
Proof.
  intros ranking scored. subst ranking. unfold _rank_files. cbv zeta.
  fold (focus_set focus_files). fold (focus_basenames_set focus_files). fold scored.
  assert (Hin : forall e, In e (firstn (Z.to_nat (Z.max 0 max_files)) (sort_ranked scored)) ->
                          In e scored).
  { intros e He. apply ListFacts.In_firstn in He.
    now apply (Permutation_in _ (sort_ranked_perm _)) in He. }
  split; [apply ListFacts.firstn_sorted, sort_ranked_ordered|].
  split; [|split; [|split]].
  - apply Forall_forall. intros e He. apply Hin in He.
    unfold scored in He. apply in_map_iff in He. destruct He as (a & <- & _).
    cbn [score rank_entry]. apply Q.le_max_l.
  - rewrite length_firstn, (Permutation_length (sort_ranked_perm _)).
    unfold scored. now rewrite length_map.
  - exact Hin.
  - intros Hall. rewrite firstn_all2; [apply sort_ranked_perm|].
    rewrite (Permutation_length (sort_ranked_perm _)). unfold scored.
    rewrite length_map. lia.
Qed.

(** ** The built-in PageRank *)

Definition nonneg_dict (d : dict Q) : Prop := Forall (fun kv => 0 <= snd kv) d.
Definition positive_dict (d : dict Q) : Prop := Forall (fun kv => 0 < snd kv) d.

Lemma positive_nonneg (d : dict Q) : positive_dict d -> nonneg_dict d.
Proof. apply Forall_impl. intros kv. apply Qlt_le_weak. Qed.

Lemma dict_get_nonneg (d : dict Q) (k : string) : nonneg_dict d -> 0 <= dict_get d k 0.
Proof.
  unfold dict_get. induction 1 as [|[k0 v] d Hv _ IH]; cbn [dict_lookup]; [apply Qle_refl|].
  destruct (String.eqb k0 k); [exact Hv|exact IH].
Qed.

Lemma dict_set_positive (d : dict Q) (k : string) (v : Q) :
  positive_dict d -> 0 < v -> positive_dict (dict_set d k v).
Proof.
  intros Hd Hv. induction Hd as [|[k0 w] d Hw Hd IH]; cbn [dict_set].
  - now repeat constructor.
  - destruct (String.eqb k0 k); constructor; cbn [snd]; auto.
Qed.

Lemma div_nonneg (a b : Q) : 0 <= a -> 0 < b -> 0 <= a / b.
Proof. intros Ha Hb. apply Qle_shift_div_l; [exact Hb|]. now rewrite Qmult_0_l. Qed.

Lemma div_positive (a b : Q) : 0 < a -> 0 < b -> 0 < a / b.
Proof. intros Ha Hb. apply Qlt_shift_div_l; [exact Hb|]. now rewrite Qmult_0_l. Qed.

Lemma count_positive {A : Type} (l : list A) :
  l <> [] -> 0 < inject_Z (Z.of_nat (List.length l)).
Proof.
  destruct l as [|x l]; [congruence|]. intros _.
  change 0 with (inject_Z 0). rewrite <- Zlt_Qlt. cbn [List.length]. lia.
Qed.

Lemma sum_Q_nonneg (l : list Q) : Forall (fun v => 0 <= v) l -> 0 <= sum_Q l.
Proof.
  unfold sum_Q. induction 1 as [|x l Hx _ IH]; cbn [fold_right]; [apply Qle_refl|].
  change 0 with (0 + 0). now apply Qplus_le_compat.
Qed.

Lemma inbound_nonneg (outgoing : dict (list string)) (rank : dict Q) (srcs : list string) :
  nonneg_dict rank ->
  forall acc,
    0 <= acc ->
    0 <= fold_left (fun inbound src =>
                      let outs := dict_get outgoing src [] in
                      match outs with
                      | [] => inbound
                      | _ => inbound + dict_get rank src 0
                                       / inject_Z (Z.of_nat (List.length outs))
                      end) srcs acc.
Proof.
  intros Hrank. induction srcs as [|src srcs IH]; intros acc Hacc; cbn [fold_left];
    [exact Hacc|].
  apply IH. cbv zeta. destruct (dict_get outgoing src []) as [|o outs] eqn:E; [exact Hacc|].
  change 0 with (0 + 0). apply Qplus_le_compat; [exact Hacc|].
  apply div_nonneg; [now apply dict_get_nonneg|]. apply count_positive. discriminate.
Qed.

Lemma dangling_nonneg (outgoing : dict (list string)) (rank : dict Q) :
  nonneg_dict rank ->
  0 <= sum_Q (map (fun '(node, outs) => dict_get rank node 0)
                  (filter (fun '(_, outs) => match outs : list string with
                                             | [] => true
                                             | _ => false
                                             end) outgoing)).
Proof.
  intros Hrank. apply sum_Q_nonneg, Forall_forall. intros v Hv.
  apply in_map_iff in Hv. destruct Hv as ([node outs] & <- & _).
  now apply dict_get_nonneg.
Qed.

(** Every node of the list is a key. *)
Definition covers {V : Type} (nodes : list string) (d : dict V) : Prop :=
  incl nodes (keys d).

Lemma keys_dict_set_incl {V : Type} (d : dict V) (k : string) (v : V) :
  incl (keys d) (keys (dict_set d k v)) /\ In k (keys (dict_set d k v)).
Proof.
  rewrite keys_dict_set. destruct (mem k (keys d)) eqn:E.
  - split; [apply incl_refl|now apply ListFacts.mem_In].
  - split; [apply incl_appl, incl_refl|apply in_or_app; right; now left].
Qed.

Lemma pagerank_step_positive (alpha : Q) (nodes : list string)
      (outgoing incoming : dict (list string)) (rank : dict Q) :
  0 <= alpha -> alpha < 1 -> nodes <> [] -> nonneg_dict rank ->
  positive_dict (fst (pagerank_step alpha nodes outgoing incoming rank))
  /\ covers nodes (fst (pagerank_step alpha nodes outgoing incoming rank)).
Proof.
  intros Ha0 Ha1 Hne Hrank. unfold pagerank_step. cbv zeta.
  pose proof (count_positive nodes Hne) as Hn.
  set (n := inject_Z (Z.of_nat (List.length nodes))) in *.
  pose proof (dangling_nonneg outgoing rank Hrank) as Hd.
  set (dangling := sum_Q _) in *.
  match goal with
  | |- positive_dict (fst (fold_left ?F _ _)) /\ _ =>
      assert (H : forall ns acc,
                 positive_dict (fst acc) ->
                 positive_dict (fst (fold_left F ns acc))
                 /\ incl (keys (fst acc)) (keys (fst (fold_left F ns acc)))
                 /\ incl ns (keys (fst (fold_left F ns acc))))
  end.
  { induction ns as [|node ns IH]; intros [d x] Hacc; cbn [fold_left].
    - split; [exact Hacc|]. split; [apply incl_refl|intros y []].
    - match goal with
      | |- context [dict_set d node ?v] => set (value := v)
      end.
      assert (Hv : 0 < value).
      { unfold value.
        pose proof (inbound_nonneg outgoing rank (dict_get incoming node []) Hrank 0
                                   (Qle_refl 0)) as Hin.
        set (inbound := fold_left _ (dict_get incoming node []) 0) in *.
        assert (Hbase : 0 < (1 - alpha) / n).
        { apply div_positive; [|exact Hn]. now apply Qlt_minus_iff in Ha1. }
        assert (Hdn : 0 <= dangling / n) by now apply div_nonneg.
        assert (Hprod : 0 <= alpha * (inbound + dangling / n)).
        { apply Qmult_le_0_compat; [exact Ha0|].
          change 0 with (0 + 0). now apply Qplus_le_compat. }
        change 0 with (0 + 0). now apply Qplus_lt_le_compat. }
      destruct (IH (dict_set d node value, x + Qabs (value - dict_get rank node 0)))
        as (H1 & H2 & H3).
      { cbn [fst]. now apply dict_set_positive. }
      cbn [fst] in *. destruct (keys_dict_set_incl d node value) as [Hk1 Hk2].
      split; [exact H1|]. split.
      + eapply incl_tran; [exact Hk1|exact H2].
      + intros y [<-|Hy]; [now apply H2|now apply H3]. }
  destruct (H nodes ([], 0)) as (H1 & _ & H3); [constructor|].
  split; [exact H1|exact H3].
Qed.

Lemma pagerank_iterate_positive (max_iter : nat) (alpha tol : Q) (nodes : list string)
      (outgoing incoming : dict (list string)) :
  0 <= alpha -> alpha < 1 -> nodes <> [] ->
  forall rank,
    positive_dict rank -> covers nodes rank ->
    positive_dict (pagerank_iterate max_iter alpha tol nodes outgoing incoming rank)
    /\ covers nodes (pagerank_iterate max_iter alpha tol nodes outgoing incoming rank).
Proof.
  intros Ha0 Ha1 Hne. induction max_iter as [|k IH]; intros rank Hpos Hcov;
    cbn [pagerank_iterate]; [now split|].
  pose proof (pagerank_step_positive alpha nodes outgoing incoming rank Ha0 Ha1 Hne
                                     (positive_nonneg _ Hpos)) as [H1 H2].
  destruct (pagerank_step alpha nodes outgoing incoming rank) as [next_rank diff].
  cbn [fst] in *. destruct (Qle_bool diff tol); [now split|now apply IH].
Qed.

Lemma sum_Q_positive (l : list Q) : l <> [] -> Forall (fun v => 0 < v) l -> 0 < sum_Q l.
Proof.
  destruct l as [|x l]; [congruence|]. intros _ H. inversion H as [|? ? Hx Hl]; subst.
  unfold sum_Q. cbn [fold_right]. fold (sum_Q l).
  assert (0 <= sum_Q l).
  { apply sum_Q_nonneg. eapply Forall_impl; [|exact Hl]. intros v. apply Qlt_le_weak. }
  change 0 with (0 + 0). now apply Qplus_lt_le_compat.
Qed.

Lemma positive_not_zero (x : Q) : 0 < x -> ~ x == 0.
Proof. intros H E. rewrite E in H. now apply Qlt_irrefl in H. Qed.

Lemma sum_Q_scaled (d : dict Q) (total : Q) :
  ~ total == 0 ->
  sum_Q (dict_values (map (fun '(node, value) => (node, value / total)) d))
  == sum_Q (dict_values d) / total.
Proof.
  intros Ht. unfold dict_values, sum_Q.
  induction d as [|[k v] d IH]; cbn [map snd fold_right].
  - field. exact Ht.
  - rewrite IH. field. exact Ht.
Qed.

Lemma covers_lookup {V : Type} (nodes : list string) (d : dict V) (k : string) :
  covers nodes d -> In k nodes -> exists v, In (k, v) d /\ dict_lookup d k <> None.
Proof.
  intros Hc Hk. apply Hc in Hk. unfold keys in Hk. apply in_map_iff in Hk.
  destruct Hk as ([k' v] & E & Hin). cbn in E. subst k'.
  exists v. split; [exact Hin|].
  clear Hc. induction d as [|[k0 w] d IH]; [destruct Hin|].
  cbn [dict_lookup]. destruct (String.eqb k0 k) eqn:E; [discriminate|].
  destruct Hin as [Hin|Hin]; [|now apply IH].
  injection Hin as -> _. now rewrite String.eqb_refl in E.
Qed.

Lemma dict_lookup_In {V : Type} (d : dict V) (k : string) (v : V) :
  dict_lookup d k = Some v -> In (k, v) d.
Proof.
  induction d as [|[k0 w] d IH]; cbn [dict_lookup]; [discriminate|].
  destruct (String.eqb k0 k) eqn:E; [|intros H; right; now apply IH].
  apply String.eqb_eq in E. subst k0. intros H. injection H as ->. now left.
Qed.

(** X17. On a non-empty list of nodes the built-in PageRank returns a
    probability distribution: every node gets a score, every score is
    positive, and the scores add up to 1.  The all-zero fallback of the
    function is never taken. *)
Theorem _pagerank_scores_simple_is_distribution (paths : list string) (edges : list Edge) :
  paths <> [] ->
  let scores := _pagerank_scores_simple paths edges in
  (forall p, In p paths -> exists v, dict_lookup scores p = Some v /\ 0 < v)
  /\ positive_dict scores
  /\ sum_Q (dict_values scores) == 1.
Proof.
  intros Hne scores. subst scores. unfold _pagerank_scores_simple. cbv zeta.
  destruct paths as [|p0 paths0] eqn:Hp; [congruence|].
  rewrite <- Hp in *. clear Hp p0 paths0.
  destruct (adjacency paths edges) as [outgoing incoming].
  pose proof (count_positive paths Hne) as Hn.
  set (n := inject_Z (Z.of_nat (List.length paths))) in *.
  assert (Hinit : positive_dict (dict_comp (fun _ => 1 / n) paths)
                  /\ covers paths (dict_comp (fun _ => 1 / n) paths)).
  { destruct (dict_comp_spec (fun _ : string => 1 / n) paths) as [_ Hlook]. split.
    - unfold dict_comp.
      assert (H : forall ks d, positive_dict d ->
                               positive_dict (fold_left (fun d k => dict_set d k (1 / n)) ks d)).
      { induction ks as [|k ks IH]; intros d Hd; cbn [fold_left]; [exact Hd|].
        apply IH, dict_set_positive; [exact Hd|]. apply div_positive; [reflexivity|exact Hn]. }
      apply H. constructor.
    - intros k Hk. specialize (Hlook k Hk). apply dict_lookup_In in Hlook.
      unfold keys. change k with (fst (k, 1 / n)). now apply in_map. }
  destruct Hinit as [Hpos0 Hcov0].
  destruct (pagerank_iterate_positive 100 0.85 (1 # 1000000) paths outgoing incoming
                                      ltac:(discriminate) ltac:(reflexivity) Hne
                                      _ Hpos0 Hcov0) as [Hpos Hcov].
  set (rank := pagerank_iterate 100 0.85 (1 # 1000000) paths outgoing incoming _) in *.
  assert (Hrank_ne : dict_values rank <> []).
  { destruct paths as [|p ps]; [congruence|].
    destruct (covers_lookup (p :: ps) rank p Hcov (in_eq _ _)) as (v & Hin & _).
    intros E. unfold dict_values in E. apply map_eq_nil in E. rewrite E in Hin. destruct Hin. }
  assert (Htotal : 0 < sum_Q (dict_values rank)).
  { apply sum_Q_positive; [exact Hrank_ne|].
    unfold dict_values. apply Forall_forall. intros v Hv. apply in_map_iff in Hv.
    destruct Hv as (kv & <- & Hkv). unfold positive_dict in Hpos.
    rewrite Forall_forall in Hpos. now apply Hpos. }
  set (total := sum_Q (dict_values rank)) in *.
  assert (Hbranch : Qle_bool total 0 = false).
  { destruct (Qle_bool total 0) eqn:E; [|reflexivity].
    apply Qle_bool_iff in E. exfalso. eapply Qlt_not_le; eassumption. }
  rewrite Hbranch.
  assert (Hscaled : positive_dict (map (fun '(node, value) => (node, value / total)) rank)).
  { unfold positive_dict in *. apply Forall_forall. intros kv Hkv.
    apply in_map_iff in Hkv. destruct Hkv as ([k v] & <- & Hin).
    rewrite Forall_forall in Hpos. specialize (Hpos _ Hin). cbn [snd] in *.
    now apply div_positive. }
  split; [|split].
  - intros p Hp.
    assert (Hcov' : covers paths (map (fun '(node, value) => (node, value / total)) rank)).
    { unfold covers, keys in *. rewrite map_map.
      rewrite (map_ext _ fst); [exact Hcov|]. now intros [k v]. }
    destruct (covers_lookup _ _ p Hcov' Hp) as (_ & _ & Hsome).
    destruct (dict_lookup _ p) as [v|] eqn:E; [|congruence].
    exists v. split; [reflexivity|].
    apply dict_lookup_In in E. unfold positive_dict in Hscaled.
    rewrite Forall_forall in Hscaled. now apply (Hscaled (p, v)).
  - exact Hscaled.
  - rewrite sum_Q_scaled by now apply positive_not_zero.
    fold total. field. now apply positive_not_zero.
Qed.

Lemma _pagerank_scores_simple_is_distribution_witness :
  let scores := _pagerank_scores_simple ["src/app.py"] [] in
  (forall p, In p ["src/app.py"] -> exists v, dict_lookup scores p = Some v /\ 0 < v)
  /\ positive_dict scores
  /\ sum_Q (dict_values scores) == 1.
Proof. apply _pagerank_scores_simple_is_distribution. discriminate. Defined.

(** ** The result of a run *)

Lemma _analyze_files_paths (w : World) (files : list string) :
  forall st, map a_path (fst (_analyze_files w files st)) = files.
Proof.
  induction files as [|rel rest IH]; intros st; cbn [_analyze_files]; [reflexivity|].
  unfold _analyze_file. unfold rbind, emit, rret. cbn [fst snd].
  specialize (IH (mkRunState (ticks st) (trace st ++ [AnalyzeFile rel]))).
  destruct (_analyze_files w rest _) as [others st']. cbn [fst map a_path] in *.
  now rewrite IH.
Qed.

Lemma _rank_files_length (analyses : list RepoMapFileAnalysis) (focus_files : list string)
      (max_files : Z) (graph_scores : dict Q) :
  List.length (_rank_files analyses focus_files max_files graph_scores)
  = Nat.min (Z.to_nat (Z.max 0 max_files)) (List.length analyses).
Proof.
  unfold _rank_files. cbv zeta.
  now rewrite length_firstn, (Permutation_length (sort_ranked_perm _)), length_map.
Qed.

Lemma _rank_files_ranked (analyses : list RepoMapFileAnalysis) (focus_files : list string)
      (max_files : Z) (graph_scores : dict Q) :
  StronglySorted ranked_before (_rank_files analyses focus_files max_files graph_scores).
Proof. unfold _rank_files. cbv zeta. apply ListFacts.firstn_sorted, sort_ranked_ordered. Qed.

(** X18. A run that reports [ok] carries no error; it wrote the artifact
    and returns the path it wrote to; its ranking is in rank order and
    holds at most [max(1, max_files)] entries and no more than there were
    files parsed; its text is the rendering of that ranking within the
    byte budget, and [byte_count] is the length of the text.  A run that
    does not report [ok] returns no artifact path. *)
Theorem run_result_shape
        (w : World) nx edges root cfg scope focus out mf mtb sid timeout st :
  let r := fst (run_repomap w nx edges root cfg scope focus out mf mtb sid timeout st) in
  let a := artifact r in
  let limit := Z.max 1 (opt_or mf (_get_attr cfg max_ranked_files 20%Z)) in
  let budget := Z.max 256 (opt_or mtb (_get_attr cfg cfg_max_text_bytes 8192%Z)) in
  let target :=
    root_join root
              (opt_or (truthy out)
                      (_get_attr cfg cfg_artifact_path
                                 ".cortex/artifacts/repomap/latest.json")) in
  (ok a = true ->
   error a = None
   /\ artifact_path r = Some target
   /\ write_error w target = None
   /\ (Z.of_nat (List.length (ranking a)) <= Z.min limit (files_parsed (stats a)))%Z
   /\ StronglySorted ranked_before (ranking a)
   /\ text a = _render_text (ranking a) budget
   /\ byte_count (stats a) = byte_len (text a)
   /\ run_provenance (provenance a) <> None)
  /\ (ok a = false -> artifact_path r = None /\ session_artifact_path r = None).
Proof.
  unfold run_repomap, rbind, rret. cbv zeta.
  pose proof (_analyze_files_paths w) as Hpaths.
  repeat (run_step; cbn -[_rank_files _render_text _pagerank_scores_with_backend
                          _discover_files _analyze_files root_join]).
  all: split; intros Hok; try discriminate Hok; try (split; reflexivity).
  all: repeat split; try reflexivity; try discriminate; try apply _rank_files_ranked.
  all: rewrite _rank_files_length;
    match goal with
    | H : _analyze_files _ ?files ?s = (?analyses, _) |- _ =>
        specialize (Hpaths files s); rewrite H in Hpaths; cbn [fst] in Hpaths;
        rewrite <- Hpaths, length_map
    end; lia.
Qed.

Lemma run_result_shape_witness :
  let r := fst (run_repomap small_world no_networkx no_edges "/repo"
                            None None None None None None None None fresh) in
  let a := artifact r in
  error a = None
  /\ artifact_path r = Some "/repo/.cortex/artifacts/repomap/latest.json"
  /\ write_error small_world "/repo/.cortex/artifacts/repomap/latest.json" = None
  /\ (Z.of_nat (List.length (ranking a)) <= Z.min 20 (files_parsed (stats a)))%Z
  /\ StronglySorted ranked_before (ranking a)
  /\ text a = _render_text (ranking a) 8192
  /\ byte_count (stats a) = byte_len (text a)
  /\ run_provenance (provenance a) <> None.
Proof.
  apply (proj1 (run_result_shape small_world no_networkx no_edges "/repo"
                                 None None None None None None None None fresh)).
  vm_compute. reflexivity.
Defined.

(** ** Scope selection *)

(** X19. [_select_scope] never returns an empty scope; a scope the user
    supplied is kept (blank entries dropped, [src] when nothing is left)
    whether or not it exists; without one, the result is [.] unless one
    of its entries exists under the root. *)
Theorem _select_scope_never_empty
        (w : World) (root : string) (requested_scope : list string)
        (user_scope_supplied : bool) :
  let result := _select_scope w root requested_scope user_scope_supplied in
  result <> []
  /\ (user_scope_supplied = true ->
      result = or_default (filter not_blank requested_scope) ["src"])
  /\ (user_scope_supplied = false ->
      result = ["."]
      \/ exists entry, In entry result /\ path_exists w (root_join root entry) = true).
Proof.
  intros result. subst result. unfold _select_scope. cbv zeta.
  set (normalized := or_default (filter not_blank requested_scope) ["src"]).
  assert (Hnorm : normalized <> []).
  { unfold normalized, or_default. destruct (filter not_blank requested_scope); discriminate. }
  destruct user_scope_supplied; cbn [orb].
  { split; [exact Hnorm|]. split; [reflexivity|discriminate]. }
  destruct (_scope_targets_exist w root normalized) eqn:Hex.
  - split; [exact Hnorm|]. split; [discriminate|]. intros _. right.
    unfold _scope_targets_exist in Hex. apply existsb_exists in Hex.
    destruct Hex as (entry & Hin & Hexists). now exists entry.
  - set (fallback := filter (fun name => path_exists w (root_join root name))
                            _FALLBACK_SCOPE_CANDIDATES).
    split; [|split; [discriminate|]].
    + unfold or_default. destruct fallback; discriminate.
    + intros _. unfold or_default. destruct fallback as [|name rest] eqn:Ef; [now left|].
      right. exists name. split; [now left|].
      assert (Hin : In name fallback) by (rewrite Ef; now left).
      unfold fallback in Hin. apply filter_In in Hin. tauto.
Qed.

(** ** Graph scores in the ranking *)

(** X20. A higher graph score never lowers a file's rank score: with
    everything else equal, the score is monotone in the PageRank value of
    the file's path. *)
Theorem graph_score_never_lowers_rank
        (focus focus_basenames : list string) (g1 g2 : dict Q)
        (analysis : RepoMapFileAnalysis) :
  dict_get g1 (ranked_path analysis) 0 <= dict_get g2 (ranked_path analysis) 0 ->
  score (rank_entry focus focus_basenames g1 analysis)
  <= score (rank_entry focus focus_basenames g2 analysis).
Proof.
  intros Hg. unfold rank_entry. cbn [score]. unfold raw_score. cbv zeta.
  fold (ranked_path analysis).
  apply Q.max_le_compat_l. apply Qplus_le_compat; [apply Qle_refl|].
  apply Qmult_le_l; [reflexivity|]. now apply Q.max_le_compat_l.
Qed.

Lemma graph_score_never_lowers_rank_witness :
  score (rank_entry [] [] [("src/app.py", 0.2)] (plain_analysis "src/app.py"))
  <= score (rank_entry [] [] [("src/app.py", 1)] (plain_analysis "src/app.py")).
Proof. apply graph_score_never_lowers_rank. vm_compute. discriminate. Defined.

End RepomapFacts.

(* ================================================================== *)
(** * Further properties: truncation on a UTF-8 boundary *)
(* ================================================================== *)

Module TruncateFacts.
Import PyStr Repomap TextFacts RepomapSpec.

(** Inside a multi-byte sequence the decoder is at most three bytes past
    its first byte, with as many still due as keeps it within four. *)
Definition pending_ok (i : nat) (st : option Pending) : Prop :=
  match st with
  | None => True
  | Some p => (1 <= need p)%nat /\ (i + need p <= seq_start p + 4)%nat /\ (seq_start p < i)%nat
  end.

Lemma lead_ok (i b : nat) (st' : option Pending) :
  lead i b = Some st' ->
  pending_ok (S i) st' /\ match st' with Some p => seq_start p = i | None => True end.
Proof.
  unfold lead.
  repeat match goal with
         | |- (if ?c then _ else _) = _ -> _ => destruct c
         end; intros E; inversion E; subst; cbn; repeat split; lia.
Qed.

(** One byte of [decode_scan]: the next state, or [None] at an error. *)
Definition scan_byte (i : nat) (st : option Pending) (c : ascii) : option (option Pending) :=
  let b := nat_of_ascii c in
  match st with
  | None => lead i b
  | Some p =>
      if (lo p <=? b)%nat && (b <=? hi p)%nat
      then Some (if (need p =? 1)%nat then None
                 else Some (mkPending (seq_start p) (need p - 1) 128 191))
      else None
  end.

Lemma decode_scan_cons (c : ascii) (l : list ascii) (i : nat) (st : option Pending) :
  decode_scan (c :: l) i st
  = match scan_byte i st c with
    | Some st' => decode_scan l (S i) st'
    | None => Some (match st with Some p => seq_start p | None => i end)
    end.
Proof.
  cbn [decode_scan]. unfold scan_byte. cbv zeta. destruct st as [p|].
  - now destruct ((lo p <=? nat_of_ascii c)%nat && (nat_of_ascii c <=? hi p)%nat).
  - now destruct (lead i (nat_of_ascii c)).
Qed.

Lemma scan_byte_ok (i : nat) (st st' : option Pending) (c : ascii) :
  pending_ok i st ->
  scan_byte i st c = Some st' ->
  pending_ok (S i) st'
  /\ match st' with
     | Some p' => match st with
                  | Some p => seq_start p' = seq_start p
                  | None => seq_start p' = i
                  end
     | None => True
     end.
Proof.
  intros Hok. unfold scan_byte. cbv zeta. destruct st as [p|].
  - destruct ((lo p <=? nat_of_ascii c)%nat && (nat_of_ascii c <=? hi p)%nat); [|discriminate].
    intros E. injection E as <-. destruct Hok as (H1 & H2 & H3).
    destruct (Nat.eqb_spec (need p) 1); cbn; [auto|]. repeat split; lia.
  - intros E. apply lead_ok in E. exact E.
Qed.

(** Cutting valid UTF-8 after [k] bytes: either the prefix decodes, or
    the error starts at most three bytes before the cut, and what comes
    before it decodes. *)
Lemma decode_scan_prefix (l : list ascii) :
  forall k i st,
    pending_ok i st ->
    decode_scan l i st = None ->
    match decode_scan (firstn k l) i st with
    | None => True
    | Some start =>
        (i + k <= start + 3)%nat /\ (start < i + k)%nat
        /\ ((i <= start)%nat -> decode_scan (firstn (start - i) l) i st = None)
        /\ ((start < i)%nat -> exists p, st = Some p /\ seq_start p = start)
    end.
Proof.
  induction l as [|c l IH]; intros k i st Hok Hfull.
  - rewrite firstn_nil. now rewrite Hfull.
  - destruct k as [|k].
    + cbn [firstn decode_scan]. destruct st as [p|]; [|exact I].
      destruct Hok as (H1 & H2 & H3). repeat split; try lia.
      intros _. now exists p.
    + cbn [firstn]. rewrite decode_scan_cons in Hfull |- *.
      destruct (scan_byte i st c) as [st'|] eqn:Estep; [|discriminate].
      destruct (scan_byte_ok i st st' c Hok Estep) as [Hok' Hstart].
      specialize (IH k (S i) st' Hok' Hfull).
      destruct (decode_scan (firstn k l) (S i) st') as [start|]; [|exact I].
      destruct IH as (H1 & H2 & H3 & H4).
      split; [lia|]. split; [lia|]. split.
      * intros Hi. destruct (Nat.eq_dec start i) as [->|Hne].
        -- rewrite Nat.sub_diag. cbn [firstn decode_scan].
           destruct (H4 ltac:(lia)) as (p' & -> & Hp').
           destruct st as [p|]; [|reflexivity].
           destruct Hok as (_ & _ & Hlt). lia.
        -- replace (start - i)%nat with (S (start - S i)) by lia.
           cbn [firstn]. rewrite decode_scan_cons, Estep. apply H3. lia.
      * intros Hi. destruct (H4 ltac:(lia)) as (p' & -> & Hp').
        destruct st as [p|]; [exists p; split; [reflexivity|lia]|lia].
Qed.

Lemma truncate_loop_valid (s : string) : utf8_decode_error s = None -> truncate_loop s = s.
Proof.
  intros Hvalid. funelim (truncate_loop s).
  - now apply String.eqb_eq in Heq.
  - congruence.
  - reflexivity.
Qed.

Lemma truncate_loop_error (s : string) (start : nat) :
  utf8_decode_error s = Some start -> truncate_loop s = truncate_loop (take start s).
Proof.
  intros Herr. funelim (truncate_loop s).
  - apply String.eqb_eq in Heq. subst. discriminate.
  - assert (start0 = start) by congruence. now subst.
  - congruence.
Qed.

Lemma take_take (a b : nat) (s : string) : (a <= b)%nat -> take a (take b s) = take a s.
Proof.
  unfold take. revert a b. induction s as [|c s IH]; intros [|a] [|b] H; cbn; try reflexivity;
    try lia.
  f_equal. apply IH. lia.
Qed.

(** X21. Cutting valid UTF-8 text that is longer than a positive byte
    limit loses at most three bytes below the limit: the result is the
    text cut at some position between [max_bytes - 3] and [max_bytes],
    and it still decodes. *)
Theorem _truncate_utf8_loses_at_most_three_bytes (text : string) (max_bytes : Z) :
  utf8_decode_error text = None ->
  (0 < max_bytes < byte_len text)%Z ->
  exists cut,
    _truncate_utf8 text max_bytes = take cut text
    /\ (max_bytes - 3 <= Z.of_nat cut <= max_bytes)%Z
    /\ byte_len (_truncate_utf8 text max_bytes) = Z.of_nat cut
    /\ utf8_decode_error (_truncate_utf8 text max_bytes) = None.
Proof.
  intros Hvalid [Hpos Hlong]. unfold byte_len in Hlong.
  set (k := Z.to_nat max_bytes).
  assert (Hk : (k < String.length text)%nat) by lia.
  assert (Hdecodes : utf8_decode_error (_truncate_utf8 text max_bytes) = None).
  { apply _truncate_utf8_boundary. unfold byte_len. lia. }
  unfold _truncate_utf8 in *.
  destruct (Z.leb_spec max_bytes 0); [lia|].
  destruct (Z.leb_spec (Z.of_nat (String.length text)) max_bytes); [lia|].
  fold k in Hdecodes |- *.
  pose proof (decode_scan_prefix (chars text) k 0 None I Hvalid) as Hcut.
  rewrite <- substring0_chars in Hcut. fold (take k text) in Hcut.
  fold (utf8_decode_error (take k text)) in Hcut.
  destruct (utf8_decode_error (take k text)) as [start|] eqn:Eerr.
  - destruct Hcut as (H1 & H2 & H3 & _). specialize (H3 ltac:(lia)).
    rewrite Nat.sub_0_r, <- substring0_chars in H3. fold (take start text) in H3.
    fold (utf8_decode_error (take start text)) in H3.
    assert (Hres : truncate_loop (take k text) = take start text).
    { rewrite (truncate_loop_error _ _ Eerr), take_take by lia.
      now apply truncate_loop_valid. }
    exists start. rewrite Hres. split; [reflexivity|]. split; [lia|].
    split; [|now rewrite Hres in Hdecodes].
    unfold byte_len. rewrite take_length by lia. reflexivity.
  - exists k. rewrite (truncate_loop_valid _ Eerr). split; [reflexivity|]. split; [lia|].
    split; [|exact Eerr]. unfold byte_len. rewrite take_length by lia. reflexivity.
Qed.

(** [h], the two bytes of an accented [e], then [llo]: a limit of 2 falls
    inside the two-byte sequence. *)
Definition accented_text : string :=
  String "h" (String (ascii_of_nat 195) (String (ascii_of_nat 169)
    (String "l" (String "l" (String "o" EmptyString))))).

Lemma _truncate_utf8_loses_at_most_three_bytes_witness :
  exists cut,
    _truncate_utf8 accented_text 2 = take cut accented_text
    /\ (2 - 3 <= Z.of_nat cut <= 2)%Z
    /\ byte_len (_truncate_utf8 accented_text 2) = Z.of_nat cut
    /\ utf8_decode_error (_truncate_utf8 accented_text 2) = None.
Proof.
  apply _truncate_utf8_loses_at_most_three_bytes.
  - vm_compute. reflexivity.
  - vm_compute. split; reflexivity.
Defined.

End TruncateFacts.
